(** * Signals over an intrusive list: a shallow embedding

    The development follows the two layers of the repository.

    - [intrusive_list.h]: [list_element] and [list], as pointer surgery on a
      heap of [next]/[prev] records.
    - [signals.h] and its alternate version: connections, iteration tokens,
      the signal with its token stack, and emission, as an interpreter of the
      actions a callback (or the program holding the signal) can perform.

    Addresses are natural numbers.  An object that is not live has no entry
    in the store, and an access to it is undefined behaviour. *)

From stdpp Require Import gmap list fin_maps.

Abbreviation addr := nat (only parsing).

(** ** intrusive_list.h *)

(** [struct list_element { list_element *next; list_element *prev; }] *)
Record list_element := ListElement { next : addr; prev : addr }.

Abbreviation heap := (gmap nat list_element) (only parsing).

Definition set_next (v : addr) (e : list_element) : list_element :=
  {| next := v; prev := prev e |}.
Definition set_prev (v : addr) (e : list_element) : list_element :=
  {| next := next e; prev := v |}.

(** [a->next], [a->prev] as rvalues. *)
Definition load_next (h : heap) (a : addr) : option addr := next <$> h !! a.
Definition load_prev (h : heap) (a : addr) : option addr := prev <$> h !! a.

(** [a->next = v], [a->prev = v]. *)
Definition store_next (a v : addr) (h : heap) : option heap :=
  match h !! a with
  | Some _ => Some (alter (set_next v) a h)
  | None => None
  end.
Definition store_prev (a v : addr) (h : heap) : option heap :=
  match h !! a with
  | Some _ => Some (alter (set_prev v) a h)
  | None => None
  end.

(** [list_element::is_linked]: [next != this || prev != this]. *)
Definition is_linked (this : addr) (h : heap) : option bool :=
  n ← load_next h this;
  p ← load_prev h this;
  Some (negb (n =? this) || negb (p =? this)).

(** [list_element::list_element()]: [next = this; prev = this]. *)
Definition list_element_ctor (this : addr) (h : heap) : heap :=
  <[this := ListElement this this]> h.

(** [list_element::unlink]. *)
Definition unlink (this : addr) (h : heap) : option heap :=
  n ← load_next h this;
  p ← load_prev h this;
  h ← store_prev n p h;              (* next->prev = prev *)
  p ← load_prev h this;
  n ← load_next h this;
  h ← store_next p n h;              (* prev->next = next *)
  h ← store_next this this h;        (* next = this *)
  store_prev this this h.            (* prev = this *)

(** [list_element::~list_element()]: unlink, then the storage is gone. *)
Definition list_element_dtor (this : addr) (h : heap) : option heap :=
  h ← unlink this h;
  Some (delete this h).

(** The [list] object is its [fake_node]; a list is named by the address of
    that node.  Iterators are addresses of list elements. *)
Module list.

(** [list()]: [fake_node.next = &fake_node; fake_node.prev = &fake_node]
    after the node's own constructor. *)
Definition ctor (fake_node : addr) (h : heap) : option heap :=
  h ← Some (list_element_ctor fake_node h);
  h ← store_next fake_node fake_node h;
  store_prev fake_node fake_node h.

Definition push_back (fake_node node : addr) (h : heap) : option heap :=
  p ← load_prev h fake_node;
  h ← store_next p node h;           (* fake_node.prev->next = node *)
  p ← load_prev h fake_node;
  h ← store_prev node p h;           (* node->prev = fake_node.prev *)
  h ← store_next node fake_node h;   (* node->next = &fake_node *)
  store_prev fake_node node h.       (* fake_node.prev = node *)

Definition pop_back (fake_node : addr) (h : heap) : option heap :=
  p ← load_prev h fake_node;
  unlink p h.

Definition back (fake_node : addr) (h : heap) : option addr :=
  load_prev h fake_node.

Definition push_front (fake_node node : addr) (h : heap) : option heap :=
  n ← load_next h fake_node;
  h ← store_prev n node h;           (* fake_node.next->prev = node *)
  n ← load_next h fake_node;
  h ← store_next node n h;           (* node->next = fake_node.next *)
  h ← store_prev node fake_node h;   (* node->prev = &fake_node *)
  store_next fake_node node h.       (* fake_node.next = node *)

Definition pop_front (fake_node : addr) (h : heap) : option heap :=
  n ← load_next h fake_node;
  unlink n h.

Definition front (fake_node : addr) (h : heap) : option addr :=
  load_next h fake_node.

Definition empty (fake_node : addr) (h : heap) : option bool :=
  n ← load_next h fake_node;
  Some (n =? fake_node).

Definition begin (fake_node : addr) (h : heap) : option addr :=
  load_next h fake_node.

(** [end()] is the address of the sentinel; nothing is read. *)
Definition end_ (fake_node : addr) : addr := fake_node.

(** [non_const_transform(cur)]: [iterator(cur->prev->next)]. *)
Definition non_const_transform (cur : addr) (h : heap) : option addr :=
  p ← load_prev h cur;
  load_next h p.

Definition insert (pos node : addr) (h : heap) : option (addr * heap) :=
  pos ← non_const_transform pos h;
  p ← load_prev h pos;
  h ← store_next p node h;           (* pos->prev->next = node *)
  h ← store_next node pos h;         (* node->next = pos *)
  p ← load_prev h pos;
  h ← store_prev node p h;           (* node->prev = pos->prev *)
  h ← store_prev pos node h;         (* pos->prev = node *)
  Some (node, h).

Definition erase (pos : addr) (h : heap) : option (addr * heap) :=
  pos ← non_const_transform pos h;
  cur ← load_next h pos;             (* iterator cur = ++pos *)
  p ← load_prev h cur;
  h ← unlink p h;                    (* pos->prev->unlink() *)
  Some (cur, h).

(** [splice(pos, l, first, last)]; the list [l] is not used by the body. *)
Definition splice (pos first last : addr) (h : heap) : option heap :=
  if first =? last then Some h else
  pos ← non_const_transform pos h;
  first ← non_const_transform first h;
  last ← non_const_transform last h;
  p ← load_prev h pos;
  h ← store_next p first h;          (* pos->prev->next = first *)
  p ← load_prev h first;
  h ← store_next p last h;           (* first->prev->next = last *)
  p ← load_prev h last;
  h ← store_next p pos h;            (* last->prev->next = pos *)
  tmp ← load_prev h first;           (* tmp = first->prev *)
  p ← load_prev h pos;
  h ← store_prev first p h;          (* first->prev = pos->prev *)
  p ← load_prev h last;
  h ← store_prev pos p h;            (* pos->prev = last->prev *)
  store_prev last tmp h.             (* last->prev = tmp *)

(** [clear()]: [while (!empty()) pop_back();], one unit of fuel a turn. *)
Fixpoint clear (fuel : nat) (fake_node : addr) (h : heap) : option (option heap) :=
  match fuel with
  | 0 => Some None
  | S fuel =>
      match empty fake_node h with
      | None => None
      | Some true => Some (Some h)
      | Some false =>
          match pop_back fake_node h with
          | None => None
          | Some h => clear fuel fake_node h
          end
      end
  end.

(** [swap(node1, node2)].  Each [std::swap(a, b)] binds its two lvalues,
    reads both, then stores into [a] and into [b]. *)
Definition swap (node1 node2 : addr) (h : heap) : option heap :=
  a ← load_prev h node1;             (* swap(node1.prev, node2.prev) *)
  b ← load_prev h node2;
  h ← store_prev node1 b h;
  h ← store_prev node2 a h;
  p1 ← load_prev h node1;            (* swap(node1.prev->next, node2.prev->next) *)
  p2 ← load_prev h node2;
  a ← load_next h p1;
  b ← load_next h p2;
  h ← store_next p1 b h;
  h ← store_next p2 a h;
  a ← load_next h node1;             (* swap(node1.next, node2.next) *)
  b ← load_next h node2;
  h ← store_next node1 b h;
  h ← store_next node2 a h;
  n1 ← load_next h node1;            (* swap(node1.next->prev, node2.next->prev) *)
  n2 ← load_next h node2;
  a ← load_prev h n1;
  b ← load_prev h n2;
  h ← store_prev n1 b h;
  store_prev n2 a h.

(** [list(list &&cur_list) : list()]: a new list at [fake_node], then
    [swap(fake_node, cur_list.fake_node); cur_list.clear();]. *)
Definition move_ctor (fuel : nat) (fake_node cur_list : addr) (h : heap)
    : option (option heap) :=
  match h !! fake_node with
  | Some _ => None
  | None =>
      h ← ctor fake_node h;
      h ← swap fake_node cur_list h;
      clear fuel cur_list h
  end.

(** [list &operator=(list &&cur_list)]. *)
Definition move_assign (fuel : nat) (fake_node cur_list : addr) (h : heap)
    : option (option heap) :=
  if fake_node =? cur_list then Some (Some h) else
  h ← swap fake_node cur_list h;
  clear fuel cur_list h.

(** [~list()]: [clear()], then the sentinel's own destructor. *)
Definition dtor (fuel : nat) (fake_node : addr) (h : heap) : option (option heap) :=
  h ← clear fuel fake_node h;
  match h with
  | None => Some None
  | Some h => h ← list_element_dtor fake_node h; Some (Some h)
  end.

(** The iterator's [operator++()] and [operator--()]: the new [current]. *)
Definition iterator_incr (current : addr) (h : heap) : option addr :=
  load_next h current.
Definition iterator_decr (current : addr) (h : heap) : option addr :=
  load_prev h current.

(** [operator++(int)]: [current = current->next; return
    list_iterator(current->prev);], as the new [current] and the iterator
    returned; [operator--(int)] likewise. *)
Definition iterator_post_incr (current : addr) (h : heap) : option (addr * addr) :=
  current ← load_next h current;
  r ← load_prev h current;
  Some (current, r).
Definition iterator_post_decr (current : addr) (h : heap) : option (addr * addr) :=
  current ← load_prev h current;
  r ← load_next h current;
  Some (current, r).

End list.

(** ** Shared by both versions of the signal header *)

(** A raw object pointer that may never have been initialised. *)
Inductive pointer := indeterminate | nullptr | ptr (a : addr).

(** The identity of the callable held by a [std::function]; [None] is the
    empty function, whose invocation throws [std::bad_function_call]. *)
Abbreviation slot_t := (option nat) (only parsing).

(** [struct connection : list_element { signal *sig; slot_t slot; }]; the
    base subobject lives in the node heap at the connection's address. *)
Record connection := Connection { sig : pointer; slot : slot_t }.

Inductive exn := bad_function_call | user_exception (e : nat).

(** Outcome of running code: a result, undefined behaviour (an access to
    an object that is not live), or the interpreter running out of fuel. *)
Inductive result (A : Type) : Type :=
| Ret (a : A)
| Undefined
| Timeout.
Arguments Ret {A} a.
Arguments Undefined {A}.
Arguments Timeout {A}.

Definition lift {A} (o : option A) : result A :=
  match o with Some a => Ret a | None => Undefined end.

Definition bind {A B} (k : A → result B) (r : result A) : result B :=
  match r with
  | Ret a => k a
  | Undefined => Undefined
  | Timeout => Timeout
  end.

(** How a statement completes: normally, or with an exception in flight. *)
Inductive completion := Normal | Thrown (e : exn).

(** Sequencing of statements: an exception skips the rest. *)
Definition andthen {A} (r : result (completion * A))
    (k : A → result (completion * A)) : result (completion * A) :=
  match r with
  | Ret (Normal, a) => k a
  | _ => r
  end.

(** What a callback, or the code that owns the objects, can do. *)
Inductive action :=
| NewSignal (s : addr)                       (* new (s) signal() *)
| DeleteSignal (s : addr)                    (* s.~signal() *)
| Connect (c s : addr) (f : option nat)      (* new (c) connection(s.connect(f)) *)
| DefaultConnection (c : addr)               (* new (c) connection() *)
| MoveConstruct (c other : addr)             (* new (c) connection(std::move(other)) *)
| MoveAssign (c other : addr)                (* c = std::move(other) *)
| Disconnect (c : addr)                      (* c.disconnect() *)
| DeleteConnection (c : addr)                (* c.~connection() *)
| Emit (s : addr) (arg : nat)                (* s(arg) *)
| ThrowException (e : nat).                  (* throw e *)

(** One entry for each callback invocation: which callable, with which
    argument. *)
Abbreviation trace := (list (nat * nat)) (only parsing).

(** The store: list elements (of connections and of the signals' sentinels),
    the connections' own fields, the iteration tokens (one a stack frame,
    named by its depth in the call stack) and the signals' [top_token]. *)
Record state (T : Type) := State {
  nodes : gmap nat list_element;
  conns : gmap nat connection;
  toks : gmap nat T;
  sigs : gmap nat (option nat);
}.
Arguments State {T} _ _ _ _.
Arguments nodes {T} _.
Arguments conns {T} _.
Arguments toks {T} _.
Arguments sigs {T} _.

Definition with_nodes {T} (h : gmap nat list_element) (st : state T) : state T :=
  State h (conns st) (toks st) (sigs st).
Definition with_conns {T} (c : gmap nat connection) (st : state T) : state T :=
  State (nodes st) c (toks st) (sigs st).
Definition with_toks {T} (t : gmap nat T) (st : state T) : state T :=
  State (nodes st) (conns st) t (sigs st).
Definition with_sigs {T} (s : gmap nat (option nat)) (st : state T) : state T :=
  State (nodes st) (conns st) (toks st) s.

Definition empty_state {T} : state T := State ∅ ∅ ∅ ∅.

(** [for (tok = top; tok != nullptr; tok = tok->next) body(tok)] *)
Fixpoint for_tokens {T} (tok_next : T → option nat) (fuel : nat)
    (body : T → option T) (tok : option nat) (tks : gmap nat T)
    : result (gmap nat T) :=
  match tok with
  | None => Ret tks
  | Some t =>
      match fuel with
      | 0 => Timeout
      | S fuel =>
          match tks !! t with
          | None => Undefined
          | Some tk =>
              match body tk with
              | None => Undefined
              | Some tk' =>
                  for_tokens tok_next fuel body (tok_next tk') (<[t := tk']> tks)
              end
          end
      end
  end.

(** [sig->top_token] *)
Definition load_top_token {T} (p : pointer) (st : state T) : option (option nat) :=
  match p with
  | ptr s => sigs st !! s
  | _ => None
  end.

(** [sig->connections.end()]: the address of the sentinel inside [*sig]. *)
Definition connections_end (p : pointer) : option addr :=
  match p with
  | ptr s => Some (list.end_ s)
  | _ => None
  end.

(** Running a list of statements. *)
Fixpoint run_list {C} (step : action → C → result (completion * C))
    (acts : list action) (c : C) : result (completion * C) :=
  match acts with
  | [] => Ret (Normal, c)
  | a :: rest => andthen (step a c) (run_list step rest)
  end.

#[global] Instance result_bind : MBind result := @bind.
#[global] Instance result_ret : MRet result := @Ret.

(** [struct iteration_token { const_iterator current; iteration_token *next;
    ... }]: the two versions of the header differ in the third member, which
    is [signal const *sig] in one and [bool destroyed] in the other. *)
Record iteration_token (X : Type) := IterationToken {
  current : addr;
  next_token : option nat;
  extra : X;
}.
Arguments IterationToken {X} _ _ _.
Arguments current {X} _.
Arguments next_token {X} _.
Arguments extra {X} _.

Definition set_current {X} (v : addr) (tok : iteration_token X) : iteration_token X :=
  IterationToken v (next_token tok) (extra tok).
Definition set_extra {X} (v : X) (tok : iteration_token X) : iteration_token X :=
  IterationToken (current tok) (next_token tok) v.

(** The members whose text is the same in both versions of the header. *)
Section common.
Context {X : Type}.
Implicit Type st : state (iteration_token X).

(** [signal()]: the list's constructor, [top_token = nullptr]. *)
Definition signal_ctor (this : addr) st : option (state (iteration_token X)) :=
  match nodes st !! this, sigs st !! this with
  | None, None =>
      h ← list.ctor this (nodes st);
      Some (State h (conns st) (toks st) (<[this := None]> (sigs st)))
  | _, _ => None
  end.

(** [connection()]: unlinked, [sig] left uninitialised, empty [slot]. *)
Definition connection_default_ctor (this : addr) st
    : option (state (iteration_token X)) :=
  match nodes st !! this, conns st !! this with
  | None, None =>
      Some (State (list_element_ctor this (nodes st))
                  (<[this := Connection indeterminate None]> (conns st))
                  (toks st) (sigs st))
  | _, _ => None
  end.

(** [connection(signal *sig, slot_t slot)], the body of [signal::connect]. *)
Definition connect (this s : addr) (f : slot_t) st
    : option (state (iteration_token X)) :=
  match nodes st !! this, conns st !! this with
  | None, None =>
      h ← list.push_front s this (list_element_ctor this (nodes st));
      Some (State h (<[this := Connection (ptr s) f]> (conns st))
                  (toks st) (sigs st))
  | _, _ => None
  end.

(** [connection::safe_move]. *)
Definition safe_move (fuel : nat) (this other : addr) st
    : result (state (iteration_token X)) :=
  l ← lift (is_linked other (nodes st));
  if l : bool then
    o ← lift (conns st !! other);
    c ← lift (conns st !! this);
    _ ← lift (connections_end (sig o));
    _ ← lift (connections_end (sig c));
    r ← lift (list.insert other this (nodes st));
    h ← lift (unlink other r.2);
    top ← lift (load_top_token (sig c) st);
    e ← lift (connections_end (sig c));
    tks ← for_tokens next_token fuel
             (λ tok, if negb (current tok =? e) && (current tok =? other)
                     then Some (set_current this tok)
                     else Some tok)
             top (toks st);
    Ret (State h (conns st) tks (sigs st))
  else Ret st.

(** [connection(connection &&other) : sig(other.sig), slot(other.slot)]:
    the slot is copied, [other] keeps its own. *)
Definition connection_move_ctor (fuel : nat) (this other : addr) st
    : result (state (iteration_token X)) :=
  match nodes st !! this, conns st !! this with
  | None, None =>
      o ← lift (conns st !! other);
      safe_move fuel this other
        (State (list_element_ctor this (nodes st))
               (<[this := Connection (sig o) (slot o)]> (conns st))
               (toks st) (sigs st))
  | _, _ => Undefined
  end.

(** [connection &operator=(connection &&other)], given the version's
    [disconnect]; [std::move(other.slot)] leaves the moved-from
    [std::function] empty. *)
Definition connection_move_assign
    (disconnect : nat → addr → state (iteration_token X) →
                  result (state (iteration_token X)))
    (fuel : nat) (this other : addr) st
    : result (state (iteration_token X)) :=
  if this =? other then Ret st else
  st ← disconnect fuel this st;
  _ ← lift (conns st !! this);
  o ← lift (conns st !! other);
  safe_move fuel this other
    (with_conns (<[other := Connection (sig o) None]>
                   (<[this := Connection (sig o) (slot o)]> (conns st))) st).

(** [~connection()]: [disconnect()], then the base class destructor. *)
Definition connection_dtor
    (disconnect : nat → addr → state (iteration_token X) →
                  result (state (iteration_token X)))
    (fuel : nat) (this : addr) st : result (state (iteration_token X)) :=
  st ← disconnect fuel this st;
  h ← lift (list_element_dtor this (nodes st));
  Ret (State h (delete this (conns st)) (toks st) (sigs st)).

(** The destructors of a signal's members, after the body of [~signal()]:
    [~list()] clears the list, the sentinel unlinks itself, and the
    storage of the signal ends. *)
Definition signal_members_dtor (fuel : nat) (this : addr) st
    : result (state (iteration_token X)) :=
  h ← lift (list.clear fuel this (nodes st));
  match h with
  | None => Timeout
  | Some h =>
      h ← lift (list_element_dtor this h);
      Ret (State h (conns st) (toks st) (delete this (sigs st)))
  end.

Definition on_state (r : result (state (iteration_token X)))
    (tr : list (nat * nat))
    : result (completion * (state (iteration_token X) * list (nat * nat))) :=
  st ← r; Ret (Normal, (st, tr)).
End common.

(** ** signals.h *)
Module signals.

(** The token's third member is [signal const *sig]. *)
Abbreviation token := (iteration_token (option nat)) (only parsing).
Abbreviation config := (state (iteration_token (option nat)) * list (nat * nat))%type
  (only parsing).

(** [connection::disconnect]. *)
Definition disconnect (fuel : nat) (this : addr) (st : state token)
    : result (state token) :=
  l ← lift (is_linked this (nodes st));
  if l : bool then
    h ← lift (unlink this (nodes st));
    c ← lift (conns st !! this);
    top ← lift (load_top_token (sig c) st);
    e ← lift (connections_end (sig c));
    tks ← for_tokens next_token fuel
             (λ tok, if negb (current tok =? e) && (current tok =? this)
                     then n ← load_next h (current tok);     (* ++tok->current *)
                          Some (set_current n tok)
                     else Some tok)
             top (toks st);
    Ret (State h (<[this := Connection nullptr None]> (conns st)) tks (sigs st))
  else Ret st.

(** The second loop of [~signal()]:
    [while (!connections.empty()) { front().slot = {}; front().sig = nullptr;
    front().unlink(); }] *)
Fixpoint clear_connections (fuel : nat) (this : addr) (st : state token)
    : result (state token) :=
  match fuel with
  | 0 => Timeout
  | S fuel =>
      e ← lift (list.empty this (nodes st));
      if e : bool then Ret st else
      f ← lift (list.front this (nodes st));
      c ← lift (conns st !! f);
      let cs := <[f := Connection (sig c) None]> (conns st) in
      f ← lift (list.front this (nodes st));
      c ← lift (cs !! f);
      let cs := <[f := Connection nullptr (slot c)]> cs in
      f ← lift (list.front this (nodes st));
      h ← lift (unlink f (nodes st));
      clear_connections fuel this (State h cs (toks st) (sigs st))
  end.

(** [~signal()] and what follows it. *)
Definition signal_dtor (fuel : nat) (this : addr) (st : state token)
    : result (state token) :=
  top ← lift (sigs st !! this);
  tks ← for_tokens next_token fuel
           (λ tok, if negb (current tok =? list.end_ this)
                   then Some (set_extra None tok)           (* tok->sig = nullptr *)
                   else Some tok)
           top (toks st);
  st ← clear_connections fuel this (with_toks tks st);
  signal_members_dtor fuel this st.

(** [iteration_token(signal const *sig)], for the token in frame [t]. *)
Definition iteration_token_ctor (t s : addr) (st : state token)
    : option (state token) :=
  b ← list.begin s (nodes st);
  top ← sigs st !! s;
  Some (State (nodes st) (conns st)
              (<[t := IterationToken b top (Some s)]> (toks st))
              (<[s := Some t]> (sigs st))).

(** [~iteration_token()]: [if (sig != nullptr) sig->top_token = next;],
    then the frame is gone. *)
Definition iteration_token_dtor (t : addr) (st : state token)
    : option (state token) :=
  tok ← toks st !! t;
  match extra tok with
  | Some s =>
      _ ← sigs st !! s;
      Some (State (nodes st) (conns st) (delete t (toks st))
                  (<[s := next_token tok]> (sigs st)))
  | None =>
      Some (State (nodes st) (conns st) (delete t (toks st)) (sigs st))
  end.

Section emission.
(** [body f arg]: the statements of callable [f] applied to [arg]. *)
Variable body : nat → nat → list action.
(** How the statements of a callback run, one frame up. *)
Variable invoke : list action → config → result (completion * config).

(** The loop of [operator()], for the token in frame [t] of signal
    [this]. *)
Fixpoint emission_loop (fuel : nat) (t this : addr) (arg : nat) (cfg : config)
    : result (completion * config) :=
  match fuel with
  | 0 => Timeout
  | S fuel =>
      let st := cfg.1 in
      tok ← lift (toks st !! t);
      if current tok =? list.end_ this then Ret (Normal, cfg) else
      let copy := current tok in                    (* auto copy = tok.current *)
      n ← lift (load_next (nodes st) copy);         (* tok.current++ *)
      _ ← lift (load_prev (nodes st) n);
      let st := with_toks (<[t := set_current n tok]> (toks st)) st in
      c ← lift (conns st !! copy);                  (* copy->slot(args...) *)
      match slot c with
      | None => Ret (Thrown bad_function_call, (st, cfg.2))
      | Some f =>
          andthen (invoke (body f arg) (st, cfg.2 ++ [(f, arg)]))
            (λ cfg,
               tok ← lift (toks cfg.1 !! t);
               match extra tok with
               | None => Ret (Normal, cfg)          (* if (tok.sig == nullptr) return *)
               | Some _ => emission_loop fuel t this arg cfg
               end)
      end
  end.

(** [signal::operator()]: the token, the loop, and the token's
    destructor on every way out. *)
Definition call_operator (fuel : nat) (t this : addr) (arg : nat) (cfg : config)
    : result (completion * config) :=
  st ← lift (iteration_token_ctor t this cfg.1);
  r ← emission_loop fuel t this arg (st, cfg.2);
  st ← lift (iteration_token_dtor t r.2.1);
  Ret (r.1, (st, r.2.2)).

(** One statement in frame [depth]; a member function called on an
    object that is not live is undefined. *)
Definition perform (fuel depth : nat) (a : action) (cfg : config)
    : result (completion * config) :=
  let st := cfg.1 in
  match a with
  | NewSignal s => on_state (lift (signal_ctor s st)) cfg.2
  | DeleteSignal s =>
      _ ← lift (sigs st !! s); on_state (signal_dtor fuel s st) cfg.2
  | Connect c s f =>
      _ ← lift (sigs st !! s); on_state (lift (connect c s f st)) cfg.2
  | DefaultConnection c => on_state (lift (connection_default_ctor c st)) cfg.2
  | MoveConstruct c other =>
      _ ← lift (conns st !! other);
      on_state (connection_move_ctor fuel c other st) cfg.2
  | MoveAssign c other =>
      _ ← lift (conns st !! c); _ ← lift (conns st !! other);
      on_state (connection_move_assign disconnect fuel c other st) cfg.2
  | Disconnect c =>
      _ ← lift (conns st !! c); on_state (disconnect fuel c st) cfg.2
  | DeleteConnection c =>
      _ ← lift (conns st !! c);
      on_state (connection_dtor disconnect fuel c st) cfg.2
  | Emit s arg =>
      _ ← lift (sigs st !! s); call_operator fuel depth s arg cfg
  | ThrowException e => Ret (Thrown (user_exception e), cfg)
  end.
End emission.

(** The interpreter: [exec body fuel depth acts cfg] runs the statements
    [acts] in frame [depth]; callbacks run one frame up with one unit of
    fuel less. *)
Fixpoint exec (body : nat → nat → list action) (fuel depth : nat)
    (acts : list action) (cfg : config) : result (completion * config) :=
  match fuel with
  | 0 => Timeout
  | S fuel =>
      run_list (perform body (exec body fuel (S depth)) fuel depth) acts cfg
  end.

(** [operator()] called from frame [depth]. *)
Definition emit (body : nat → nat → list action) (fuel depth : nat)
    (this : addr) (arg : nat) (cfg : config) : result (completion * config) :=
  call_operator body (exec body fuel (S depth)) fuel depth this arg cfg.

End signals.

(** ** The alternate version of the signal header *)
Module alt.

(** The token's third member is [bool destroyed = false]. *)
Abbreviation token := (iteration_token bool) (only parsing).
Abbreviation config := (state (iteration_token bool) * list (nat * nat))%type
  (only parsing).

(** [connection::disconnect]; [sig] is left as it is. *)
Definition disconnect (fuel : nat) (this : addr) (st : state token)
    : result (state token) :=
  l ← lift (is_linked this (nodes st));
  if l : bool then
    h ← lift (unlink this (nodes st));
    c ← lift (conns st !! this);
    top ← lift (load_top_token (sig c) st);
    e ← lift (connections_end (sig c));
    tks ← for_tokens next_token fuel
             (λ tok, if negb (current tok =? e) && (current tok =? this)
                     then n ← load_next h (current tok);     (* ++tok->current *)
                          Some (set_current n tok)
                     else Some tok)
             top (toks st);
    Ret (State h (<[this := Connection (sig c) None]> (conns st)) tks (sigs st))
  else Ret st.

(** [~signal()] and what follows it. *)
Definition signal_dtor (fuel : nat) (this : addr) (st : state token)
    : result (state token) :=
  top ← lift (sigs st !! this);
  tks ← for_tokens next_token fuel
           (λ tok, if negb (current tok =? list.end_ this)
                   then Some (set_extra true tok)           (* tok->destroyed = true *)
                   else Some tok)
           top (toks st);
  signal_members_dtor fuel this (with_toks tks st).

(** [iteration_token(signal const *sig)], for the token in frame [t]. *)
Definition iteration_token_ctor (t s : addr) (st : state token)
    : option (state token) :=
  b ← list.begin s (nodes st);
  top ← sigs st !! s;
  Some (State (nodes st) (conns st)
              (<[t := IterationToken b top false]> (toks st))
              (<[s := Some t]> (sigs st))).

(** [top_token = tok.next], a store to a member of [*this]. *)
Definition pop_token (t this : addr) (st : state token) : option (state token) :=
  tok ← toks st !! t;
  _ ← sigs st !! this;
  Some (with_sigs (<[this := next_token tok]> (sigs st)) st).

Section emission.
Variable body : nat → nat → list action.
Variable invoke : list action → config → result (completion * config).

(** The loop inside the [try] block; the flag tells whether it was left
    by [return]. *)
Fixpoint emission_loop (fuel : nat) (t this : addr) (arg : nat) (cfg : config)
    : result (completion * (bool * config)) :=
  match fuel with
  | 0 => Timeout
  | S fuel =>
      let st := cfg.1 in
      tok ← lift (toks st !! t);
      if current tok =? list.end_ this then Ret (Normal, (false, cfg)) else
      let copy := current tok in                    (* auto copy = tok.current *)
      n ← lift (load_next (nodes st) copy);         (* tok.current++ *)
      _ ← lift (load_prev (nodes st) n);
      let st := with_toks (<[t := set_current n tok]> (toks st)) st in
      c ← lift (conns st !! copy);                  (* copy->slot(args...) *)
      match slot c with
      | None => Ret (Thrown bad_function_call, (false, (st, cfg.2)))
      | Some f =>
          r ← invoke (body f arg) (st, cfg.2 ++ [(f, arg)]);
          match r.1 with
          | Thrown e => Ret (Thrown e, (false, r.2))
          | Normal =>
              tok ← lift (toks r.2.1 !! t);
              if extra tok : bool
              then Ret (Normal, (true, r.2))        (* if (tok.destroyed) return *)
              else emission_loop fuel t this arg r.2
          end
      end
  end.

(** [signal::operator()]: [try { loop } catch (...) { top_token =
    tok.next; throw; } top_token = tok.next;], and the frame is gone. *)
Definition call_operator (fuel : nat) (t this : addr) (arg : nat) (cfg : config)
    : result (completion * config) :=
  st ← lift (iteration_token_ctor t this cfg.1);
  r ← emission_loop fuel t this arg (st, cfg.2);
  let st := r.2.2.1 in
  st ← (if r.2.1 : bool then Ret st else lift (pop_token t this st));
  Ret (r.1, (with_toks (delete t (toks st)) st, r.2.2.2)).

Definition perform (fuel depth : nat) (a : action) (cfg : config)
    : result (completion * config) :=
  let st := cfg.1 in
  match a with
  | NewSignal s => on_state (lift (signal_ctor s st)) cfg.2
  | DeleteSignal s =>
      _ ← lift (sigs st !! s); on_state (signal_dtor fuel s st) cfg.2
  | Connect c s f =>
      _ ← lift (sigs st !! s); on_state (lift (connect c s f st)) cfg.2
  | DefaultConnection c => on_state (lift (connection_default_ctor c st)) cfg.2
  | MoveConstruct c other =>
      _ ← lift (conns st !! other);
      on_state (connection_move_ctor fuel c other st) cfg.2
  | MoveAssign c other =>
      _ ← lift (conns st !! c); _ ← lift (conns st !! other);
      on_state (connection_move_assign disconnect fuel c other st) cfg.2
  | Disconnect c =>
      _ ← lift (conns st !! c); on_state (disconnect fuel c st) cfg.2
  | DeleteConnection c =>
      _ ← lift (conns st !! c);
      on_state (connection_dtor disconnect fuel c st) cfg.2
  | Emit s arg =>
      _ ← lift (sigs st !! s); call_operator fuel depth s arg cfg
  | ThrowException e => Ret (Thrown (user_exception e), cfg)
  end.
End emission.

Fixpoint exec (body : nat → nat → list action) (fuel depth : nat)
    (acts : list action) (cfg : config) : result (completion * config) :=
  match fuel with
  | 0 => Timeout
  | S fuel =>
      run_list (perform body (exec body fuel (S depth)) fuel depth) acts cfg
  end.

Definition emit (body : nat → nat → list action) (fuel depth : nat)
    (this : addr) (arg : nat) (cfg : config) : result (completion * config) :=
  call_operator body (exec body fuel (S depth)) fuel depth this arg cfg.

End alt.

(** ** Predicates used by the statements *)

Definition upd_next (a v : addr) (h : gmap nat list_element) : gmap nat list_element :=
  alter (set_next v) a h.
Definition upd_prev (a v : addr) (h : gmap nat list_element) : gmap nat list_element :=
  alter (set_prev v) a h.

(** [a] and [b] are neighbours: [a->next == b] and [b->prev == a]. *)
Definition link (h : gmap nat list_element) (a b : addr) : Prop :=
  load_next h a = Some b ∧ load_prev h b = Some a.

(** The nodes [a], [l], [z] are linked in this order. *)
Fixpoint chain (h : gmap nat list_element) (a : addr) (l : list addr) (z : addr) : Prop :=
  match l with
  | [] => link h a z
  | x :: l => link h a x ∧ chain h x l z
  end.

(** The list with sentinel [fake_node] holds exactly [xs], in this order:
    the circular chain leaves the sentinel, runs through [xs] and comes back. *)
Definition dll (h : gmap nat list_element) (fake_node : addr) (xs : list addr) : Prop :=
  NoDup (fake_node :: xs) ∧ chain h fake_node xs fake_node.

(** The token stack: the tokens [l] are reached from [top] through their
    [next] members, ending in [nullptr]. *)
Fixpoint token_chain {X} (tks : gmap nat (iteration_token X)) (top : option nat)
    (l : list nat) : Prop :=
  match l with
  | [] => top = None
  | t :: l => top = Some t ∧
      ∃ tok, tks !! t = Some tok ∧ token_chain tks (next_token tok) l
  end.

(** The connections [cs] hold the callables [fs], in this order. *)
Definition callbacks {T} (st : state T) (cs : list addr) (fs : list nat) : Prop :=
  Forall2 (λ c f, ∃ p, conns st !! c = Some (Connection p (Some f))) cs fs.

(** Connection [c] of signal [sg] holds callable [f], whose body either does
    nothing or ([d = true]) disconnects [c] itself. *)
Definition self_disconnecting {T} (body : nat → nat → list action) (arg : nat)
    (st : state T) (sg : addr) (c : addr) (f : nat) (d : bool) : Prop :=
  conns st !! c = Some (Connection (ptr sg) (Some f)) ∧
  body f arg = if d then [Disconnect c] else [].

(** The connections that stay linked: those whose flag is [false]. *)
Fixpoint survivors (cs : list addr) (ds : list bool) : list addr :=
  match cs, ds with
  | c :: cs, d :: ds => if d then survivors cs ds else c :: survivors cs ds
  | _, _ => []
  end.

(** What [unlink] leaves behind: [x] is a loop of its own, its former
    neighbours [p] and [n] point at each other. *)
Definition removed (h h' : gmap nat list_element) (x p n : nat) : Prop :=
  (∀ a, load_next h' a =
        if decide (a = x) then Some x else if decide (a = p) then Some n else load_next h a) ∧
  (∀ a, load_prev h' a =
        if decide (a = x) then Some x else if decide (a = n) then Some p else load_prev h a).

(** What linking [x] between the neighbours [p] and [n] leaves behind. *)
Definition inserted (h h' : gmap nat list_element) (x p n : nat) : Prop :=
  (∀ a, load_next h' a =
        if decide (a = x) then Some n else if decide (a = p) then Some x else load_next h a) ∧
  (∀ a, load_prev h' a =
        if decide (a = x) then Some p else if decide (a = n) then Some x else load_prev h a).

(** What [splice] leaves behind, for three distinct positions with their
    predecessors [P], [F] and [L]: the range from [first] to [L] now sits
    between [P] and [pos], and [F] is followed by [last]. *)
Definition spliced (h h' : gmap nat list_element) (pos first last P F L : nat) : Prop :=
  (∀ a, load_next h' a =
        if decide (a = L) then Some pos
        else if decide (a = F) then Some last
        else if decide (a = P) then Some first else load_next h a) ∧
  (∀ a, load_prev h' a =
        if decide (a = last) then Some F
        else if decide (a = pos) then Some L
        else if decide (a = first) then Some P else load_prev h a).

(** The state of an emission under way: the token in frame [t] of signal
    [sg] points at [cur], over the store [st] of the caller. *)
Definition during (st : state (iteration_token (option nat))) (t sg : nat)
    (top : option nat) (cur : nat) : state (iteration_token (option nat)) :=
  State (nodes st) (conns st)
        (<[t := IterationToken cur top (Some sg)]> (toks st))
        (<[sg := Some t]> (sigs st)).

(** The same for the alternate version, whose token carries the flag
    [destroyed], still [false]. *)
Definition alt_during (st : state (iteration_token bool)) (t sg : nat)
    (top : option nat) (cur : nat) : state (iteration_token bool) :=
  State (nodes st) (conns st)
        (<[t := IterationToken cur top false]> (toks st))
        (<[sg := Some t]> (sigs st)).

(** What [safe_move] does to a token: a cursor on [other] is repointed to
    [this]. *)
Definition repoint {X} (this other : nat) (tok : iteration_token X) : iteration_token X :=
  if decide (current tok = other) then set_current this tok else tok.

(** Forward traversal: from [cur], following [next] until the sentinel. *)
Fixpoint forward (fuel : nat) (h : gmap nat list_element) (fake_node cur : addr)
    : option (list addr) :=
  match fuel with
  | 0 => None
  | S fuel =>
      if cur =? fake_node then Some []
      else (n ← load_next h cur; l ← forward fuel h fake_node n; Some (cur :: l))
  end.

(** Reverse traversal: from [cur], following [prev] until the sentinel. *)
Fixpoint backward (fuel : nat) (h : gmap nat list_element) (fake_node cur : addr)
    : option (list addr) :=
  match fuel with
  | 0 => None
  | S fuel =>
      if cur =? fake_node then Some []
      else (p ← load_prev h cur; l ← backward fuel h fake_node p; Some (cur :: l))
  end.

(** [for (auto it = begin(); it != end(); ++it)] and its mirror image. *)
Definition traverse_forward (fuel : nat) (fake_node : addr) (h : gmap nat list_element)
    : option (list addr) :=
  b ← list.begin fake_node h; forward fuel h fake_node b.
Definition traverse_backward (fuel : nat) (fake_node : addr) (h : gmap nat list_element)
    : option (list addr) :=
  b ← list.back fake_node h; backward fuel h fake_node b.

(** The operations of one list. *)
Inductive list_op :=
| PushFront (x : addr)
| PushBack (x : addr)
| PopFront
| PopBack
| Insert (pos x : addr)
| Erase (pos : addr)
| Splice (pos first last : addr).

Definition run_op (fake_node : addr) (op : list_op) (h : gmap nat list_element)
    : option (gmap nat list_element) :=
  match op with
  | PushFront x => list.push_front fake_node x h
  | PushBack x => list.push_back fake_node x h
  | PopFront => list.pop_front fake_node h
  | PopBack => list.pop_back fake_node h
  | Insert pos x => snd <$> list.insert pos x h
  | Erase pos => snd <$> list.erase pos h
  | Splice pos first last => list.splice pos first last h
  end.

Fixpoint run_ops (fake_node : addr) (ops : list list_op) (h : gmap nat list_element)
    : option (gmap nat list_element) :=
  match ops with
  | [] => Some h
  | op :: ops => h ← run_op fake_node op h; run_ops fake_node ops h
  end.

(** The list as a sequence: what each operation does to it, when the
    operation is used as intended.  A node may be linked only if it is live
    and not in the list already; [pop] and [erase] need a member; the
    sentinel stands for [end()].  [splice] moves the range from [first] up to
    [last], which does not hold the sentinel, in front of a position [pos]
    that lies outside the range and is not [last] either. *)
Fixpoint insert_before (pos x : addr) (xs : list addr) : list addr :=
  match xs with
  | [] => [x]
  | y :: ys => if decide (y = pos) then x :: y :: ys else y :: insert_before pos x ys
  end.

Fixpoint remove_member (pos : addr) (xs : list addr) : list addr :=
  match xs with
  | [] => []
  | y :: ys => if decide (y = pos) then ys else y :: remove_member pos ys
  end.

(** The elements of [l] before and after the first [a]. *)
Fixpoint split_at (a : addr) (l : list addr) : option (list addr * list addr) :=
  match l with
  | [] => None
  | y :: ys =>
      if decide (y = a) then Some ([], ys)
      else match split_at a ys with
           | Some (l1, l2) => Some (y :: l1, l2)
           | None => None
           end
  end.

(** The circular sequence [c], read from [a] on. *)
Definition rotate_to (a : addr) (c : list addr) : option (list addr) :=
  match split_at a c with
  | Some (l1, l2) => Some (a :: l2 ++ l1)
  | None => None
  end.

Definition model_splice (fake_node pos first last : addr) (xs : list addr)
    : option (list addr) :=
  if decide (first = last) then Some xs else
  c ← rotate_to first (fake_node :: xs);
  '(R, M) ← split_at last c;
  if decide (fake_node ∈ R) then None else
  '(M1, M2) ← split_at pos M;
  c ← rotate_to fake_node (R ++ pos :: M2 ++ last :: M1);
  Some (tail c).

Definition model_op (live : gset nat) (fake_node : addr) (op : list_op) (xs : list addr)
    : option (list addr) :=
  match op with
  | PushFront x =>
      if decide ((x ∈ live) ∧ (x ∉ fake_node :: xs)) then Some (x :: xs) else None
  | PushBack x =>
      if decide ((x ∈ live) ∧ (x ∉ fake_node :: xs)) then Some (xs ++ [x]) else None
  | PopFront => match xs with [] => None | _ :: xs => Some xs end
  | PopBack => match xs with [] => None | _ => Some (removelast xs) end
  | Insert pos x =>
      if decide ((x ∈ live) ∧ (x ∉ fake_node :: xs) ∧ (pos ∈ fake_node :: xs))
      then Some (insert_before pos x xs) else None
  | Erase pos =>
      if decide (pos ∈ xs) then Some (remove_member pos xs) else None
  | Splice pos first last => model_splice fake_node pos first last xs
  end.

Fixpoint model_ops (live : gset nat) (fake_node : addr) (ops : list list_op)
    (xs : list addr) : option (list addr) :=
  match ops with
  | [] => Some xs
  | op :: ops => xs ← model_op live fake_node op xs; model_ops live fake_node ops xs
  end.

(** ** Comparing the two versions of the signal header *)

(** No statement destroys a signal. *)
Definition no_destruction (acts : list action) : Prop :=
  Forall (λ a, match a with DeleteSignal _ => False | _ => True end) acts.

(** [next] and [prev] are inverse to each other wherever they are defined. *)
Definition consistent (h : gmap nat list_element) : Prop :=
  ∀ x y, load_next h x = Some y ↔ load_prev h y = Some x.

(** Two tokens agree: same cursor, same link to the enclosing token, and
    neither says that its signal is gone. *)
Definition token_agree (a : iteration_token (option nat)) (b : iteration_token bool)
    : Prop :=
  current a = current b ∧ next_token a = next_token b ∧
  is_Some (extra a) ∧ extra b = false.

(** Two connections at address [c] agree: same callable, and the same
    signal pointer as long as the connection is linked. *)
Definition connection_agree (h : gmap nat list_element) (c : addr) (a b : connection)
    : Prop :=
  slot a = slot b ∧ (is_linked c h = Some true → sig a = sig b).

(** The stores of the two versions agree. *)
Record agree (sA : state (iteration_token (option nat)))
    (sB : state (iteration_token bool)) : Prop := Agree {
  agree_nodes : nodes sA = nodes sB;
  agree_sigs : sigs sA = sigs sB;
  agree_toks : ∀ t, option_Forall2 token_agree (toks sA !! t) (toks sB !! t);
  agree_conns : ∀ c, option_Forall2 (connection_agree (nodes sA) c)
                                    (conns sA !! c) (conns sB !! c);
  agree_consistent : consistent (nodes sA);
  agree_signal : ∀ s, is_Some (sigs sA !! s) →
                      is_Some (nodes sA !! s) ∧ conns sA !! s = None;
  agree_connection : ∀ c, is_Some (conns sA !! c) → is_Some (nodes sA !! c);
}.

(** Two results of the same kind, with related values. *)
Definition rel_result {A B} (R : A → B → Prop) (ra : result A) (rb : result B) : Prop :=
  match ra, rb with
  | Ret a, Ret b => R a b
  | Undefined, Undefined => True
  | Timeout, Timeout => True
  | _, _ => False
  end.

(** The token in frame [t] keeps its signal pointer and its link. *)
Definition token_kept {X} (tks tks' : gmap nat (iteration_token X)) (t : nat) : Prop :=
  (λ tok, (extra tok, next_token tok)) <$> tks' !! t =
  (λ tok, (extra tok, next_token tok)) <$> tks !! t.

(** The stores agree after a step that kept every token's signal pointer
    and link. *)
Definition stepped (sA sA' : state (iteration_token (option nat)))
    (sB' : state (iteration_token bool)) : Prop :=
  agree sA' sB' ∧ ∀ t, token_kept (toks sA) (toks sA') t.

(** Two runs in frame [depth] from agreeing stores [sA] and [sB]: the same
    completion and trace, agreeing stores, and the tokens of the frames
    below [depth] kept. *)
Definition run_agree (depth : nat) (sA : state (iteration_token (option nat)))
    (rA : completion * (state (iteration_token (option nat)) * list (nat * nat)))
    (rB : completion * (state (iteration_token bool) * list (nat * nat))) : Prop :=
  rA.1 = rB.1 ∧ rA.2.2 = rB.2.2 ∧ agree rA.2.1 rB.2.1 ∧
  ∀ t, t < depth → token_kept (toks sA) (toks rA.2.1) t.

(** What an observer of the two versions compares: how the run completed,
    which callbacks were invoked with which arguments, the list elements,
    the callables of the connections, the cursors and links of the tokens,
    and the tops of the token stacks. *)
Definition same_outcome
    (rA : result (completion * (state (iteration_token (option nat)) * list (nat * nat))))
    (rB : result (completion * (state (iteration_token bool) * list (nat * nat))))
    : Prop :=
  match rA, rB with
  | Ret (cA, (sA, trA)), Ret (cB, (sB, trB)) =>
      cA = cB ∧ trA = trB ∧ nodes sA = nodes sB ∧ sigs sA = sigs sB ∧
      (∀ c, slot <$> conns sA !! c = slot <$> conns sB !! c) ∧
      (∀ t, (λ tok, (current tok, next_token tok)) <$> toks sA !! t =
            (λ tok, (current tok, next_token tok)) <$> toks sB !! t)
  | Undefined, Undefined => True
  | Timeout, Timeout => True
  | _, _ => False
  end.

(** ** Concrete scenarios *)
Module scenario.

(** A signal at address 0 with three connections, connected in the order
    3, 2, 1, so that the list reads 1, 2, 3; connection [i] holds
    callable [i]. *)
Definition setup : list action :=
  [NewSignal 0; Connect 3 0 (Some 3); Connect 2 0 (Some 2); Connect 1 0 (Some 1)].

(** Callable 1 disconnects connection 2, the next in line. *)
Definition disconnect_next (f arg : nat) : list action :=
  match f with 1 => [Disconnect 2] | _ => [] end.

(** Callable 3, the last in line, destroys the signal. *)
Definition destroy_in_last (f arg : nat) : list action :=
  match f with 3 => [DeleteSignal 0] | _ => [] end.

(** Callable 2, in the middle, destroys the signal. *)
Definition destroy_in_middle (f arg : nat) : list action :=
  match f with 2 => [DeleteSignal 0] | _ => [] end.

(** No callable does anything. *)
Definition quiet (f arg : nat) : list action := [].

(** What can be observed of a run: how it completed and which callbacks
    were invoked. *)
Definition observe {T} (r : result (completion * (state T * list (nat * nat))))
    : result (completion * list (nat * nat)) :=
  match r with
  | Ret (c, (_, tr)) => Ret (c, tr)
  | Undefined => Undefined
  | Timeout => Timeout
  end.

Definition final_state {T} (r : result (completion * (state T * list (nat * nat))))
    : option (state T) :=
  match r with
  | Ret (_, (st, _)) => Some st
  | _ => None
  end.

(** The store after [setup]. *)
Definition linked3 : state (iteration_token (option nat)) :=
  State
    (<[0 := ListElement 1 3]> (<[1 := ListElement 2 0]>
       (<[2 := ListElement 3 1]> (<[3 := ListElement 0 2]> ∅))))
    (<[1 := Connection (ptr 0) (Some 1)]> (<[2 := Connection (ptr 0) (Some 2)]>
       (<[3 := Connection (ptr 0) (Some 3)]> ∅)))
    ∅
    (<[0 := None]> ∅).

(** The store after [setup] and [DefaultConnection 5]. *)
Definition linked3_and_5 : state (iteration_token (option nat)) :=
  State (<[5 := ListElement 5 5]> (nodes linked3))
        (<[5 := Connection indeterminate None]> (conns linked3))
        ∅ (sigs linked3).

(** A signal at address 0 with four connections, the list reading 1, 2, 3,
    4; connection [i] holds callable [i]. *)
Definition linked4 : state (iteration_token (option nat)) :=
  State
    (<[0 := ListElement 1 4]> (<[1 := ListElement 2 0]> (<[2 := ListElement 3 1]>
       (<[3 := ListElement 4 2]> (<[4 := ListElement 0 3]> ∅)))))
    (<[1 := Connection (ptr 0) (Some 1)]> (<[2 := Connection (ptr 0) (Some 2)]>
       (<[3 := Connection (ptr 0) (Some 3)]> (<[4 := Connection (ptr 0) (Some 4)]> ∅))))
    ∅
    (<[0 := None]> ∅).

End scenario.

(** * Properties *)

Create Rewrite HintDb heap.

Section heap.
Implicit Type h : gmap nat list_element.

Lemma load_next_upd_next h a v b :
  load_next (upd_next a v h) b =
  if decide (b = a) then (λ _, v) <$> load_next h a else load_next h b.
Proof.
  unfold load_next, upd_next. rewrite lookup_alter.
  repeat case_decide; simplify_eq; try done. by destruct (h !! a).
Qed.
Lemma load_prev_upd_next h a v b : load_prev (upd_next a v h) b = load_prev h b.
Proof.
  unfold load_prev, upd_next. rewrite lookup_alter.
  case_decide; simplify_eq; try done. by destruct (h !! b).
Qed.
Lemma load_next_upd_prev h a v b : load_next (upd_prev a v h) b = load_next h b.
Proof.
  unfold load_next, upd_prev. rewrite lookup_alter.
  case_decide; simplify_eq; try done. by destruct (h !! b).
Qed.
Lemma load_prev_upd_prev h a v b :
  load_prev (upd_prev a v h) b =
  if decide (b = a) then (λ _, v) <$> load_prev h a else load_prev h b.
Proof.
  unfold load_prev, upd_prev. rewrite lookup_alter.
  repeat case_decide; simplify_eq; try done. by destruct (h !! a).
Qed.
Lemma store_next_upd a v h :
  store_next a v h = (λ _, upd_next a v h) <$> load_next h a.
Proof. unfold store_next, load_next, upd_next. by destruct (h !! a). Qed.
Lemma store_prev_upd a v h :
  store_prev a v h = (λ _, upd_prev a v h) <$> load_prev h a.
Proof. unfold store_prev, load_prev, upd_prev. by destruct (h !! a). Qed.

Lemma load_next_insert h a e b :
  load_next (<[a := e]> h) b = if decide (b = a) then Some (next e) else load_next h b.
Proof. unfold load_next. rewrite lookup_insert. by repeat case_decide; simplify_eq. Qed.
Lemma load_prev_insert h a e b :
  load_prev (<[a := e]> h) b = if decide (b = a) then Some (prev e) else load_prev h b.
Proof. unfold load_prev. rewrite lookup_insert. by repeat case_decide; simplify_eq. Qed.
Lemma load_next_delete h a b :
  load_next (delete a h) b = if decide (b = a) then None else load_next h b.
Proof. unfold load_next. rewrite lookup_delete. by repeat case_decide; simplify_eq. Qed.
Lemma load_prev_delete h a b :
  load_prev (delete a h) b = if decide (b = a) then None else load_prev h b.
Proof. unfold load_prev. rewrite lookup_delete. by repeat case_decide; simplify_eq. Qed.

Lemma alloc_loads h a :
  is_Some (h !! a) → ∃ n p, load_next h a = Some n ∧ load_prev h a = Some p.
Proof. intros [[n p] H]. exists n, p. unfold load_next, load_prev. by rewrite H. Qed.
Lemma load_next_alloc h a n : load_next h a = Some n → is_Some (h !! a).
Proof. unfold load_next. destruct (h !! a); naive_solver. Qed.
Lemma load_prev_alloc h a n : load_prev h a = Some n → is_Some (h !! a).
Proof. unfold load_prev. destruct (h !! a); naive_solver. Qed.
Lemma load_next_None h a : load_next h a = None ↔ h !! a = None.
Proof. unfold load_next. destruct (h !! a); naive_solver. Qed.
Lemma load_prev_None h a : load_prev h a = None ↔ h !! a = None.
Proof. unfold load_prev. destruct (h !! a); naive_solver. Qed.

(** A list element is its two fields. *)
Lemma lookup_loads h h' a :
  load_next h' a = load_next h a → load_prev h' a = load_prev h a → h' !! a = h !! a.
Proof.
  unfold load_next, load_prev.
  destruct (h' !! a) as [[]|], (h !! a) as [[]|]; naive_solver.
Qed.
Lemma heap_ext h h' :
  (∀ a, load_next h' a = load_next h a) → (∀ a, load_prev h' a = load_prev h a) → h' = h.
Proof. intros Hn Hp. apply map_eq. intros a. by apply lookup_loads. Qed.
End heap.

#[export] Hint Rewrite load_next_upd_next load_prev_upd_next load_next_upd_prev
  load_prev_upd_prev store_next_upd store_prev_upd load_next_insert load_prev_insert
  load_next_delete load_prev_delete : heap.

Ltac heap_hyps :=
  repeat match goal with
  | H : load_next ?h ?a = _ |- context [load_next ?h ?a] => rewrite H
  | H : load_prev ?h ?a = _ |- context [load_prev ?h ?a] => rewrite H
  end.
Ltac heap_step :=
  first [ progress (autorewrite with heap) | progress heap_hyps | progress simpl
        | case_decide; simplify_eq ].
Ltac heap_solve := repeat heap_step; try done.

Section ops.
Implicit Type h : gmap nat list_element.

Lemma unlink_removed h x n p :
  load_next h x = Some n → load_prev h x = Some p →
  is_Some (h !! n) → is_Some (h !! p) →
  ∃ h', unlink x h = Some h' ∧ removed h h' x p n.
Proof.
  intros Hn Hp (nn & np & Hnn & Hnp)%alloc_loads (pn & pp & Hpn & Hpp)%alloc_loads.
  unfold unlink, removed. eexists. split; [heap_solve|].
  split; intros a; heap_solve.
Qed.

Lemma unlink_unlinked h x :
  load_next h x = Some x → load_prev h x = Some x → unlink x h = Some h.
Proof.
  intros Hn Hp.
  destruct (unlink_removed h x x x) as (h' & -> & Hr1 & Hr2); eauto using load_next_alloc.
  f_equal. apply heap_ext; intros a; rewrite ?Hr1, ?Hr2; repeat case_decide; by simplify_eq.
Qed.

Lemma push_front_inserted h f x n :
  load_next h f = Some n → is_Some (h !! n) → is_Some (h !! x) → x ≠ f → x ≠ n →
  ∃ h', list.push_front f x h = Some h' ∧ inserted h h' x f n.
Proof.
  intros Hn (nn & np & Hnn & Hnp)%alloc_loads (xn & xp & Hxn & Hxp)%alloc_loads ??.
  assert (is_Some (load_prev h f)) as [fp Hfp].
  { apply load_next_alloc, alloc_loads in Hn as (?&?&?&?). eauto. }
  unfold list.push_front, inserted. eexists. split; [heap_solve|].
  split; intros a; heap_solve.
Qed.

Lemma push_back_inserted h f x p :
  load_prev h f = Some p → is_Some (h !! p) → is_Some (h !! x) → x ≠ f → x ≠ p →
  ∃ h', list.push_back f x h = Some h' ∧ inserted h h' x p f.
Proof.
  intros Hp (pn & pp & Hpn & Hpp)%alloc_loads (xn & xp & Hxn & Hxp)%alloc_loads ??.
  assert (is_Some (load_next h f)) as [fn Hfn].
  { apply load_prev_alloc, alloc_loads in Hp as (?&?&?&?). eauto. }
  unfold list.push_back, inserted. eexists. split; [heap_solve|].
  split; intros a; heap_solve.
Qed.

Lemma insert_inserted h pos x p :
  load_prev h pos = Some p → load_next h p = Some pos →
  is_Some (h !! x) → x ≠ pos → x ≠ p →
  ∃ h', list.insert pos x h = Some (x, h') ∧ inserted h h' x p pos.
Proof.
  intros Hp Hpn (xn & xp & Hxn & Hxp)%alloc_loads ??.
  assert (is_Some (load_next h pos)) as [posn Hposn].
  { apply load_prev_alloc, alloc_loads in Hp as (?&?&?&?). eauto. }
  assert (is_Some (load_prev h p)) as [pp Hpp].
  { apply load_next_alloc, alloc_loads in Hpn as (?&?&?&?). eauto. }
  unfold list.insert, list.non_const_transform, inserted. eexists. split; [heap_solve|].
  split; intros a; heap_solve.
Qed.
End ops.

Section chain.
Implicit Type h : gmap nat list_element.

Lemma last_cons (l : list nat) a b : List.last (b :: l) a = List.last l b.
Proof.
  revert a b. induction l as [|c l IH]; intros a b; [done|].
  change (List.last (b :: c :: l) a) with (List.last (c :: l) a). by rewrite !IH.
Qed.

Lemma chain_app h a l1 x l2 z :
  chain h a (l1 ++ x :: l2) z ↔ chain h a l1 x ∧ chain h x l2 z.
Proof. revert a. induction l1 as [|b l1 IH]; intros a; simpl; [done|]. rewrite IH. tauto. Qed.

Lemma chain_frame h h' a l z :
  chain h a l z →
  (∀ s, s ∈ a :: l → load_next h' s = load_next h s) →
  (∀ t, t ∈ l ++ [z] → load_prev h' t = load_prev h t) →
  chain h' a l z.
Proof.
  revert a. induction l as [|b l IH]; intros a; simpl.
  - intros [Hn Hp] Hs Ht. split; [rewrite Hs | rewrite Ht]; set_solver.
  - intros [[Hn Hp] Hc] Hs Ht. split; [split; [rewrite Hs | rewrite Ht]; set_solver|].
    apply IH; [done|intros; apply Hs|intros; apply Ht]; set_solver.
Qed.

(** The neighbours of a member of a chain. *)
Lemma chain_neighbours h a l1 x l2 z :
  chain h a (l1 ++ x :: l2) z →
  load_prev h x = Some (List.last l1 a) ∧ load_next h x = Some (hd z l2).
Proof.
  rewrite chain_app. intros [H1 H2]. split.
  - clear H2. revert a H1. induction l1 as [|b l1 IH]; intros a; [by intros []|].
    intros [_ H]. apply IH in H. by rewrite last_cons.
  - destruct l2; simpl in *; [by destruct H2 | by destruct H2 as [[] _]].
Qed.
Lemma chain_first h a l z : chain h a l z → load_next h a = Some (hd z l).
Proof. destruct l; simpl; [by intros [] | by intros [[] _]]. Qed.
Lemma chain_last h a l z : chain h a l z → load_prev h z = Some (List.last l a).
Proof.
  revert a. induction l as [|b l IH]; intros a; [by intros []|].
  intros [_ H]. apply IH in H. by rewrite last_cons.
Qed.
Lemma chain_first_prev h a l z : chain h a l z → load_prev h (hd z l) = Some a.
Proof. destruct l; simpl; [by intros [] | by intros [[] _]]. Qed.
Lemma chain_last_next h a l z : chain h a l z → load_next h (List.last l a) = Some z.
Proof.
  revert a. induction l as [|b l IH]; intros a; [by intros []|].
  intros [_ H]. apply IH in H. by rewrite last_cons.
Qed.
Lemma chain_alloc h a l z x : chain h a l z → x ∈ a :: l ++ [z] → is_Some (h !! x).
Proof.
  revert a. induction l as [|b l IH]; intros a; simpl.
  - intros [Hn Hp] Hx. apply elem_of_cons in Hx as [->|Hx]; [by eapply load_next_alloc|].
    apply list_elem_of_singleton in Hx as ->. by eapply load_prev_alloc.
  - intros [[Hn Hp] Hc] Hx. apply elem_of_cons in Hx as [->|Hx]; [by eapply load_next_alloc|].
    by apply (IH b).
Qed.

Lemma last_in (l : list nat) a : List.last l a ∈ a :: l.
Proof.
  revert a. induction l as [|b l IH]; intros a; [set_solver|].
  rewrite last_cons. specialize (IH b). set_solver.
Qed.
Lemma hd_in (l : list nat) z : hd z l ∈ l ++ [z].
Proof. destruct l; set_solver. Qed.

(** Linking [x] between two neighbours of a chain. *)
Lemma chain_inserted h h' a l1 l2 z x :
  chain h a (l1 ++ l2) z →
  NoDup (a :: l1 ++ l2) → NoDup (l1 ++ l2 ++ [z]) →
  x ∉ a :: l1 ++ l2 → x ≠ z →
  inserted h h' x (List.last l1 a) (hd z l2) →
  chain h' a (l1 ++ x :: l2) z.
Proof.
  revert a. induction l1 as [|b l1 IH]; intros a Hc Hs Ht Hx Hz [Hn Hp].
  - simpl in *. assert (x ≠ a) by set_solver.
    split; [split; [rewrite Hn | rewrite Hp]; repeat case_decide; by simplify_eq|].
    destruct l2 as [|y l2]; simpl in *.
    + split; [rewrite Hn | rewrite Hp]; repeat case_decide; by simplify_eq.
    + destruct Hc as [_ Hc]. apply NoDup_cons in Hs as [Ha Hs], Ht as [Hy Ht].
      assert (x ≠ y) by set_solver.
      split; [split; [rewrite Hn | rewrite Hp]; repeat case_decide; by simplify_eq|].
      eapply chain_frame; [done|..].
      * intros s Hin. rewrite Hn. repeat case_decide; simplify_eq; set_solver.
      * intros t Hin. rewrite Hp. repeat case_decide; simplify_eq; set_solver.
  - simpl in Hc. destruct Hc as [[Hab Hba] Hc].
    pose proof (last_in l1 b) as Hl. pose proof (hd_in l2 z) as Hh.
    rewrite <-!app_comm_cons in *.
    apply NoDup_cons in Hs as [Ha Hs]. pose proof Ht as Ht'. apply NoDup_cons in Ht as [Hb Ht].
    pose proof (last_cons l1 a b) as Hlast.
    rewrite Hlast in Hn, Hp.
    simpl. split.
    + split; [rewrite Hn | rewrite Hp]; repeat case_decide; simplify_eq; set_solver.
    + apply IH; try done. set_solver.
Qed.

(** Taking [x] out of a chain. *)
Lemma chain_removed h h' a l1 l2 z x :
  chain h a (l1 ++ x :: l2) z →
  NoDup (a :: l1 ++ x :: l2) → NoDup (l1 ++ x :: l2 ++ [z]) →
  removed h h' x (List.last l1 a) (hd z l2) →
  chain h' a (l1 ++ l2) z.
Proof.
  revert a. induction l1 as [|b l1 IH]; intros a Hc Hs Ht [Hn Hp].
  - simpl in *. destruct Hc as [_ Hc].
    apply NoDup_cons in Hs as [Ha Hs], Ht as [Hx Ht].
    assert (x ≠ a) by set_solver. assert (x ≠ z) by set_solver.
    destruct l2 as [|y l2]; simpl in *.
    + split; [rewrite Hn | rewrite Hp]; repeat case_decide; by simplify_eq.
    + destruct Hc as [_ Hc]. apply NoDup_cons in Hs as [Hx' Hs], Ht as [Hy Ht].
      assert (x ≠ y) by set_solver.
      split; [split; [rewrite Hn | rewrite Hp]; repeat case_decide; by simplify_eq|].
      eapply chain_frame; [done|..].
      * intros s Hin. rewrite Hn. repeat case_decide; simplify_eq; set_solver.
      * intros t Hin. rewrite Hp. repeat case_decide; simplify_eq; set_solver.
  - simpl in Hc. destruct Hc as [[Hab Hba] Hc].
    pose proof (last_in l1 b) as Hl. pose proof (hd_in l2 z) as Hh.
    rewrite <-!app_comm_cons in *.
    apply NoDup_cons in Hs as [Ha Hs]. pose proof Ht as Ht'. apply NoDup_cons in Ht as [Hb Ht].
    pose proof (last_cons l1 a b) as Hlast.
    rewrite Hlast in Hn, Hp.
    simpl. split.
    + split; [rewrite Hn | rewrite Hp]; repeat case_decide; simplify_eq; set_solver.
    + apply IH; try done.
Qed.
End chain.

Section dll.
Implicit Type h : gmap nat list_element.

Lemma NoDup_rotate (f : nat) xs : NoDup (f :: xs) → NoDup (xs ++ [f]).
Proof. intros H. apply NoDup_app. apply NoDup_cons in H as [??]. set_solver by eauto using NoDup_singleton. Qed.

Lemma dll_alloc h f xs x : dll h f xs → x ∈ f :: xs → is_Some (h !! x).
Proof. intros [_ Hc] Hx. eapply chain_alloc; [done|]. set_solver. Qed.

Lemma dll_neighbours h f l1 x l2 :
  dll h f (l1 ++ x :: l2) →
  load_prev h x = Some (List.last l1 f) ∧ load_next h x = Some (hd f l2).
Proof. intros [_ Hc]. by apply chain_neighbours. Qed.

Lemma dll_begin h f xs : dll h f xs → load_next h f = Some (hd f xs).
Proof. intros [_ Hc]. by apply chain_first in Hc. Qed.
Lemma dll_back h f xs : dll h f xs → load_prev h f = Some (List.last xs f).
Proof. intros [_ Hc]. by apply chain_last in Hc. Qed.

Lemma dll_is_linked h f xs x : dll h f xs → x ∈ xs → is_linked x h = Some true.
Proof.
  intros Hd (l1 & l2 & ->)%list_elem_of_split.
  destruct (dll_neighbours _ _ _ _ _ Hd) as [Hp Hn]. destruct Hd as [Hnd _].
  unfold is_linked. rewrite Hn, Hp. simpl. f_equal.
  apply orb_true_iff. left. apply negb_true_iff, Nat.eqb_neq.
  pose proof (hd_in l2 f). intros E. rewrite E in H.
  rewrite app_comm_cons, <-Permutation_middle in Hnd.
  apply NoDup_cons in Hnd as [Hx _]. set_solver.
Qed.

Lemma dll_empty h f xs :
  dll h f xs → list.empty f h = Some (match xs with [] => true | _ => false end).
Proof.
  intros Hd. unfold list.empty. rewrite (dll_begin _ _ _ Hd). simpl. f_equal.
  destruct xs as [|x xs]; simpl; [by rewrite Nat.eqb_refl|].
  destruct Hd as [Hnd _]. apply NoDup_cons in Hnd as [Hf _].
  apply Nat.eqb_neq. set_solver.
Qed.

Lemma dll_unlink h f l1 x l2 :
  dll h f (l1 ++ x :: l2) →
  ∃ h', unlink x h = Some h' ∧ removed h h' x (List.last l1 f) (hd f l2) ∧
        dll h' f (l1 ++ l2).
Proof.
  intros Hd. destruct (dll_neighbours _ _ _ _ _ Hd) as [Hp Hn].
  destruct (unlink_removed h x (hd f l2) (List.last l1 f)) as (h' & Hu & Hr); try done.
  { eapply dll_alloc; [done|]. pose proof (hd_in l2 f). set_solver. }
  { eapply dll_alloc; [done|]. pose proof (last_in l1 f). set_solver. }
  exists h'. split; [done|]. split; [done|]. destruct Hd as [Hnd Hc]. split.
  - rewrite app_comm_cons in *. rewrite <-Permutation_middle in Hnd.
    by apply NoDup_cons in Hnd as [_ ?].
  - eapply chain_removed; [done|done| |done].
    apply NoDup_rotate in Hnd. by rewrite <-app_assoc in Hnd.
Qed.

Lemma dll_linked h h' f l1 l2 x :
  dll h f (l1 ++ l2) → x ∉ f :: l1 ++ l2 →
  inserted h h' x (List.last l1 f) (hd f l2) →
  dll h' f (l1 ++ x :: l2).
Proof.
  intros [Hnd Hc] Hx Hi. split.
  - rewrite app_comm_cons in *. rewrite <-Permutation_middle.
    by apply NoDup_cons.
  - eapply chain_inserted; try done; [|set_solver].
    apply NoDup_rotate in Hnd. by rewrite <-app_assoc in Hnd.
Qed.

Lemma dll_push_front h f xs x :
  dll h f xs → x ∉ f :: xs → is_Some (h !! x) →
  ∃ h', list.push_front f x h = Some h' ∧ inserted h h' x f (hd f xs) ∧
        dll h' f (x :: xs).
Proof.
  intros Hd Hx Ha.
  destruct (push_front_inserted h f x (hd f xs)) as (h' & Hpf & Hi);
    eauto using dll_begin.
  { eapply dll_alloc; [done|]. pose proof (hd_in xs f). set_solver. }
  { set_solver. }
  { pose proof (hd_in xs f). set_solver. }
  exists h'. split; [done|]. split; [done|]. by apply (dll_linked h h' f [] xs x).
Qed.

Lemma dll_push_back h f xs x :
  dll h f xs → x ∉ f :: xs → is_Some (h !! x) →
  ∃ h', list.push_back f x h = Some h' ∧ inserted h h' x (List.last xs f) f ∧
        dll h' f (xs ++ [x]).
Proof.
  intros Hd Hx Ha.
  destruct (push_back_inserted h f x (List.last xs f)) as (h' & Hpf & Hi);
    eauto using dll_back.
  { eapply dll_alloc; [done|]. apply last_in. }
  { set_solver. }
  { pose proof (last_in xs f). set_solver. }
  exists h'. split; [done|]. split; [done|].
  apply (dll_linked h h' f xs [] x); rewrite ?app_nil_r; done.
Qed.

(** [insert] before the member [pos], or before [end()] when [l2] is
    empty and [pos] is the sentinel. *)
Lemma dll_insert h f l1 l2 x :
  dll h f (l1 ++ l2) → x ∉ f :: l1 ++ l2 → is_Some (h !! x) →
  ∃ h', list.insert (hd f l2) x h = Some (x, h') ∧
        inserted h h' x (List.last l1 f) (hd f l2) ∧
        dll h' f (l1 ++ x :: l2).
Proof.
  intros Hd Hx Ha.
  assert (load_prev h (hd f l2) = Some (List.last l1 f) ∧
          load_next h (List.last l1 f) = Some (hd f l2)) as [Hp Hn].
  { destruct l2 as [|y l2]; simpl.
    - rewrite app_nil_r in Hd. split; [by apply dll_back|].
      destruct l1 as [|b l1 _] using rev_ind; [by apply dll_begin in Hd|].
      rewrite last_last. by apply (proj2 (dll_neighbours h f l1 b [] Hd)).
    - split; [by apply (proj1 (dll_neighbours h f l1 y l2 Hd))|].
      destruct l1 as [|b l1 _] using rev_ind; [by apply dll_begin in Hd|].
      rewrite last_last. rewrite <-app_assoc in Hd.
      by apply (proj2 (dll_neighbours h f l1 b (y :: l2) Hd)). }
  destruct (insert_inserted h (hd f l2) x (List.last l1 f)) as (h' & Hpf & Hi); try done.
  { pose proof (hd_in l2 f). set_solver. }
  { pose proof (last_in l1 f). set_solver. }
  exists h'. split; [done|]. split; [done|]. by apply (dll_linked h).
Qed.
End dll.

Section tokens.
Context {X : Type}.
Implicit Type tks : gmap nat (iteration_token X).

Lemma token_chain_frame tks tks' top l :
  token_chain tks top l →
  (∀ t tok, t ∈ l → tks !! t = Some tok →
     ∃ tok', tks' !! t = Some tok' ∧ next_token tok' = next_token tok) →
  token_chain tks' top l.
Proof.
  revert top. induction l as [|t l IH]; intros top; simpl; [done|].
  intros (-> & tok & Ht & Hc) Hf. split; [done|].
  destruct (Hf t tok) as (tok' & Ht' & Hn); [set_solver|done|].
  exists tok'. split; [done|]. rewrite Hn. apply IH; [done|].
  intros t0 tok0 Hin. apply Hf. set_solver.
Qed.

Lemma token_chain_det tks top l1 l2 :
  token_chain tks top l1 → token_chain tks top l2 → l1 = l2.
Proof.
  revert top l2. induction l1 as [|t l1 IH]; intros top [|t2 l2]; simpl; try done.
  - by intros -> [? _].
  - by intros [-> _] ?.
  - intros (-> & tok & Ht & Hc) ([= <-] & tok2 & Ht2 & Hc2). simplify_eq.
    f_equal. by eapply IH.
Qed.

Lemma token_chain_suffix tks top l1 t l2 :
  token_chain tks top (l1 ++ t :: l2) → token_chain tks (Some t) (t :: l2).
Proof.
  revert top. induction l1 as [|a l1 IH]; intros top; simpl.
  - intros (-> & ?). done.
  - intros (-> & tok & Ht & Hc). by eapply IH.
Qed.

Lemma token_chain_NoDup tks top l : token_chain tks top l → NoDup l.
Proof.
  revert top. induction l as [|t l IH]; intros top; [constructor|].
  intros (-> & tok & Ht & Hc). apply NoDup_cons. split; [|by eapply IH].
  intros (l1 & l2 & ->)%list_elem_of_split.
  pose proof (token_chain_suffix _ _ _ _ _ Hc) as (_ & tok' & Ht' & Hc'). simplify_eq.
  pose proof (token_chain_det _ _ _ _ Hc Hc') as E.
  apply (f_equal length) in E. rewrite length_app in E. simpl in E. lia.
Qed.

(** A loop over the token stack whose body changes nothing. *)
Lemma for_tokens_id fuel body top tks l :
  token_chain tks top l → length l ≤ fuel →
  (∀ t tok, t ∈ l → tks !! t = Some tok → body tok = Some tok) →
  for_tokens next_token fuel body top tks = Ret tks.
Proof.
  revert top fuel. induction l as [|t l IH]; intros top fuel; simpl.
  - intros -> _ _. by destruct fuel.
  - intros (-> & tok & Ht & Hc) Hlen Hb. destruct fuel as [|fuel]; [lia|]. simpl.
    rewrite Ht. rewrite (Hb t tok) by set_solver. rewrite insert_id by done.
    apply IH; [done|lia|]. intros. apply (Hb t0); set_solver.
Qed.

(** A loop over the token stack that applies [g] to every token. *)
Lemma for_tokens_map fuel body g top tks l :
  token_chain tks top l → length l ≤ fuel →
  (∀ tok, body tok = Some (g tok)) →
  (∀ tok, next_token (g tok) = next_token tok) →
  ∃ tks', for_tokens next_token fuel body top tks = Ret tks' ∧
    ∀ t, tks' !! t = if decide (t ∈ l) then g <$> tks !! t else tks !! t.
Proof.
  intros Hc Hlen Hb Hg. pose proof (token_chain_NoDup _ _ _ Hc) as Hnd.
  revert top fuel tks Hc Hlen Hnd.
  induction l as [|t l IH]; intros top fuel tks; simpl.
  - intros -> _ _. exists tks. split; [by destruct fuel|]. done.
  - intros (-> & tok & Ht & Hc) Hlen [Hnt Hnd]%NoDup_cons.
    destruct fuel as [|fuel]; [lia|]. simpl. rewrite Ht, Hb, Hg.
    destruct (IH (next_token tok) fuel (<[t := g tok]> tks)) as (tks' & -> & Hl);
      [|lia|done|].
    { eapply token_chain_frame; [done|]. intros t0 tok0 Hin Ht0.
      exists tok0. rewrite lookup_insert_ne by set_solver. done. }
    exists tks'. split; [done|]. intros t0. rewrite Hl.
    destruct (decide (t0 = t)) as [->|Hne].
    + rewrite decide_False by done. rewrite decide_True by set_solver.
      by rewrite lookup_insert_eq, Ht.
    + rewrite lookup_insert_ne by done.
      repeat case_decide; try done; set_solver.
Qed.
End tokens.

Lemma signals_exec_S body fuel d acts cfg :
  signals.exec body (S fuel) d acts cfg =
  run_list (signals.perform body (signals.exec body fuel (S d)) fuel d) acts cfg.
Proof. done. Qed.
Lemma alt_exec_S body fuel d acts cfg :
  alt.exec body (S fuel) d acts cfg =
  run_list (alt.perform body (alt.exec body fuel (S d)) fuel d) acts cfg.
Proof. done. Qed.
#[global] Arguments signals.exec : simpl never.
#[global] Arguments alt.exec : simpl never.

Section signals_emission.
Variable body : nat → nat → list action.

Lemma exec_nil fuel d cfg : signals.exec body (S fuel) d [] cfg = Ret (Normal, cfg).
Proof. done. Qed.

Lemma emission_loop_pure invoke st t sg top arg l2 :
  (∀ cfg, invoke [] cfg = Ret (Normal, cfg)) →
  ∀ l1 fs tr fuel,
    dll (nodes st) sg (l1 ++ l2) →
    callbacks st l2 fs → Forall (λ f, body f arg = []) fs →
    length l2 < fuel →
    signals.emission_loop body invoke fuel t sg arg (during st t sg top (hd sg l2), tr) =
    Ret (Normal, (during st t sg top sg, tr ++ ((λ f, (f, arg)) <$> fs))).
Proof.
  intros Hinv. induction l2 as [|c l2 IH]; intros l1 fs tr fuel Hd Hcb Hpure Hfuel.
  - apply Forall2_nil_inv_l in Hcb as ->. destruct fuel; [simpl in *; lia|].
    simpl. rewrite lookup_insert_eq. simpl. unfold list.end_. rewrite Nat.eqb_refl, app_nil_r. done.
  - apply Forall2_cons_inv_l in Hcb as (f & fs' & (p & Hc) & Hcb & ->).
    apply Forall_cons in Hpure as [Hf Hpure].
    destruct fuel as [|fuel]; [simpl in *; lia|].
    destruct (dll_neighbours _ _ _ _ _ Hd) as [Hp Hn].
    assert (c ≠ sg) as Hne.
    { destruct Hd as [Hnd _]. apply NoDup_cons in Hnd as [Hnd _]. set_solver. }
    assert (is_Some (load_prev (nodes st) (hd sg l2))) as [pp Hpp].
    { destruct (alloc_loads (nodes st) (hd sg l2)) as (?&?&?&?); [|eauto].
      eapply dll_alloc; [done|]. pose proof (hd_in l2 sg). set_solver. }
    simpl. rewrite lookup_insert_eq. simpl.
    unfold list.end_. apply Nat.eqb_neq in Hne. rewrite Hne. rewrite Hn. simpl. rewrite Hpp. simpl.
    rewrite Hc. simpl. rewrite Hf, Hinv. simpl.
    rewrite lookup_insert_eq. simpl. rewrite insert_insert_eq.
    change (with_toks _ (during st t sg top c)) with (during st t sg top (hd sg l2)).
    rewrite (IH (l1 ++ [c]) fs' (tr ++ [(f, arg)]) fuel); try done.
    + by rewrite <-app_assoc.
    + by rewrite <-app_assoc.
    + simpl in Hfuel. lia.
Qed.

Lemma during_done (st : state (iteration_token (option nat))) t sg top cur :
  toks st !! t = None → sigs st !! sg = Some top →
  signals.iteration_token_dtor t (during st t sg top cur) = Some st.
Proof.
  intros Ht Hs. unfold signals.iteration_token_dtor, during. simpl.
  rewrite lookup_insert_eq. simpl. rewrite lookup_insert_eq. simpl.
  rewrite delete_insert_eq, insert_insert_eq, insert_id, delete_id by done.
  by destruct st.
Qed.
End signals_emission.

Lemma signals_call_operator_eq body invoke fuel t sg arg
    (st : state (iteration_token (option nat))) tr top cs :
  dll (nodes st) sg cs → sigs st !! sg = Some top →
  signals.call_operator body invoke fuel t sg arg (st, tr) =
  (r ← signals.emission_loop body invoke fuel t sg arg (during st t sg top (hd sg cs), tr);
   st ← lift (signals.iteration_token_dtor t r.2.1);
   Ret (r.1, (st, r.2.2))).
Proof.
  intros Hd Hs.
  unfold signals.call_operator, signals.iteration_token_ctor, list.begin.
  simpl. by rewrite (dll_begin _ _ _ Hd), Hs.
Qed.


Section connect.
Context {X : Type}.
Implicit Type st : state (iteration_token X).

Lemma dll_frame (h h' : gmap nat list_element) f xs :
  dll h f xs → (∀ a, a ∈ f :: xs → h' !! a = h !! a) → dll h' f xs.
Proof.
  intros [Hnd Hc] Hf. split; [done|].
  eapply chain_frame; [done|..]; intros a Ha; unfold load_next, load_prev;
    rewrite Hf; [done|set_solver|done|set_solver].
Qed.

Lemma dll_fresh (h : gmap nat list_element) f xs c :
  dll h f xs → h !! c = None → c ∉ f :: xs.
Proof.
  intros Hd Hc Hin. destruct (dll_alloc _ _ _ _ Hd Hin) as [? ?]. congruence.
Qed.

Lemma connect_front st sg cs c f :
  dll (nodes st) sg cs → nodes st !! c = None → conns st !! c = None →
  ∃ h', connect c sg f st =
          Some (State h' (<[c := Connection (ptr sg) f]> (conns st)) (toks st) (sigs st)) ∧
        dll h' sg (c :: cs).
Proof.
  intros Hd Hn Hc. pose proof (dll_fresh _ _ _ _ Hd Hn) as Hfresh.
  unfold connect. rewrite Hn, Hc.
  destruct (dll_push_front (list_element_ctor c (nodes st)) sg cs c) as (h' & -> & _ & Hd');
    [| done | |].
  - eapply dll_frame; [done|]. intros a Ha. unfold list_element_ctor.
    rewrite lookup_insert_ne; [done|]. intros ->. done.
  - unfold list_element_ctor. rewrite lookup_insert_eq. eauto.
  - exists h'. done.
Qed.
End connect.

Lemma callbacks_fresh {T} (st : state T) cs fs c x :
  callbacks st cs fs → c ∉ cs →
  callbacks (State (nodes st) (<[c := x]> (conns st)) (toks st) (sigs st)) cs fs.
Proof.
  unfold callbacks. intros H Hc. induction H as [|c' f cs fs (p & Hp) H IH]; [constructor|].
  constructor; [|apply IH; set_solver].
  exists p. simpl. rewrite lookup_insert_ne; [done|set_solver].
Qed.

Lemma callbacks_nodes {T} (st : state T) h cs fs :
  callbacks st cs fs → callbacks (State h (conns st) (toks st) (sigs st)) cs fs.
Proof. done. Qed.

(** C7: emission invokes exactly the callbacks of the linked connections,
    each once, in list order.  [connect] links the new connection at the
    front of the list, so the callback connected last is invoked first.
    Emission on a signal without connections invokes nothing, returns
    normally and leaves the store as it was.  The callbacks here leave
    signals and connections alone. *)
Theorem emission_invokes_linked_callbacks_in_list_order
    (body : nat → nat → list action) (st : state (iteration_token (option nat)))
    (sg : nat) (cs fs : list nat) (top : option nat) (depth arg fuel : nat)
    (tr : list (nat * nat)) :
  dll (nodes st) sg cs →
  sigs st !! sg = Some top →
  toks st !! depth = None →
  callbacks st cs fs →
  Forall (λ f, body f arg = []) fs →
  length cs + 2 < fuel →
  signals.emit body fuel depth sg arg (st, tr) =
    Ret (Normal, (st, tr ++ ((λ f, (f, arg)) <$> fs))) ∧
  (cs = [] → signals.emit body fuel depth sg arg (st, tr) = Ret (Normal, (st, tr))) ∧
  (∀ c f, nodes st !! c = None → conns st !! c = None → body f arg = [] →
     ∃ st', connect c sg (Some f) st = Some st' ∧
            dll (nodes st') sg (c :: cs) ∧
            signals.emit body fuel depth sg arg (st', tr) =
              Ret (Normal, (st', tr ++ (f, arg) :: ((λ f, (f, arg)) <$> fs)))).
Proof.
  intros Hd Hs Ht Hcb Hpure Hfuel.
  assert (∀ st cs fs, dll (nodes st) sg cs → sigs st !! sg = Some top →
            toks st !! depth = None → callbacks st cs fs →
            Forall (λ f, body f arg = []) fs → length cs + 1 < fuel →
            signals.emit body fuel depth sg arg (st, tr) =
              Ret (Normal, (st, tr ++ ((λ f, (f, arg)) <$> fs)))) as Hemit.
  { clear. intros st cs fs Hd Hs Ht Hcb Hpure Hfuel.
    unfold signals.emit. rewrite (signals_call_operator_eq _ _ _ _ _ _ _ _ top cs) by done.
    assert (∀ cfg, signals.exec body fuel (S depth) [] cfg = Ret (Normal, cfg)) as Hinv.
    { intros cfg. destruct fuel; [lia|done]. }
    rewrite (emission_loop_pure body _ st depth sg top arg cs Hinv [] fs tr fuel Hd Hcb Hpure)
      by lia.
    simpl. by rewrite during_done. }
  split; [apply (Hemit st cs fs); try done; lia|]. split.
  - intros ->. apply Forall2_nil_inv_l in Hcb as ->.
    rewrite (Hemit st [] []); try done; [by rewrite app_nil_r|constructor|simpl in *; lia].
  - intros c f Hn Hc Hf.
    destruct (connect_front st sg cs c (Some f) Hd Hn Hc) as (h' & Hconn & Hd').
    eexists. split; [done|]. split; [done|].
    apply (Hemit _ (c :: cs) (f :: fs)); try done.
    + constructor; [exists (ptr sg); simpl; by rewrite lookup_insert_eq|].
      pose proof (dll_fresh _ _ _ _ Hd Hn).
      apply (callbacks_fresh (State h' (conns st) (toks st) (sigs st))); [done|set_solver].
    + by constructor.
    + simpl. lia.
Qed.

Section signals_disconnect.
Implicit Type st : state (iteration_token (option nat)).

(** [disconnect] of a linked connection: the node leaves the list, the
    callable is cleared, and every token is left as it was, whatever its
    cursor: [++tok->current] runs after [unlink()] has made the node its
    own successor. *)
Lemma disconnect_linked fuel st sg l1 c l2 f top tl :
  dll (nodes st) sg (l1 ++ c :: l2) →
  conns st !! c = Some (Connection (ptr sg) f) →
  sigs st !! sg = Some top →
  token_chain (toks st) top tl → length tl ≤ fuel →
  ∃ h', signals.disconnect fuel c st =
          Ret (State h' (<[c := Connection nullptr None]> (conns st)) (toks st) (sigs st)) ∧
        removed (nodes st) h' c (List.last l1 sg) (hd sg l2) ∧
        dll h' sg (l1 ++ l2).
Proof.
  intros Hd Hc Hs Htc Hlen.
  destruct (dll_unlink _ _ _ _ _ Hd) as (h' & Hu & Hr & Hd').
  exists h'. split; [|done]. unfold signals.disconnect.
  rewrite (dll_is_linked _ _ _ c Hd) by set_solver. simpl.
  rewrite Hu. simpl. rewrite Hc. simpl. rewrite Hs. simpl.
  rewrite (for_tokens_id _ _ _ _ tl); [done|done|done|].
  intros t [cur nx ex] _ _. simpl. unfold list.end_.
  destruct (negb (cur =? sg) && (cur =? c)) eqn:E; [|done].
  apply andb_true_iff in E as [_ ->%Nat.eqb_eq].
  destruct Hr as [Hr _]. rewrite Hr. by rewrite decide_True.
Qed.
End signals_disconnect.

Section signals_self_disconnect.
Variable body : nat → nat → list action.
Implicit Type st : state (iteration_token (option nat)).

Lemma self_disconnecting_frame arg st st' sg (cs fs : list nat) (ds : list bool) :
  Forall3 (self_disconnecting body arg st sg) cs fs ds →
  (∀ c, c ∈ cs → conns st' !! c = conns st !! c) →
  Forall3 (self_disconnecting body arg st' sg) cs fs ds.
Proof.
  induction 1 as [|c f d cs fs ds [Hc Hb] H IH]; intros Hf; constructor.
  - split; [|done]. rewrite Hf; [done|set_solver].
  - apply IH. intros. apply Hf. set_solver.
Qed.

Lemma emission_loop_self_disconnect n t sg top tl arg l2 :
  length tl + 1 ≤ n →
  ∀ fs ds st kept tr fuel,
    dll (nodes st) sg (kept ++ l2) →
    sigs st !! sg = Some top →
    token_chain (toks st) top tl → toks st !! t = None →
    Forall3 (self_disconnecting body arg st sg) l2 fs ds →
    length l2 < fuel →
    ∃ h' cs',
      signals.emission_loop body (signals.exec body (S n) (S t)) fuel t sg arg
        (during st t sg top (hd sg l2), tr) =
      Ret (Normal, (during (State h' cs' (toks st) (sigs st)) t sg top sg,
                    tr ++ ((λ f, (f, arg)) <$> fs))) ∧
      dll h' sg (kept ++ survivors l2 ds).
Proof.
  intros Hn. induction l2 as [|c l2 IH]; intros fs ds st kept tr fuel Hd Hs Htc Ht Hsd Hfuel.
  - inversion Hsd; subst. destruct fuel; [simpl in *; lia|].
    exists (nodes st), (conns st). split; [|done].
    simpl. rewrite lookup_insert_eq. simpl. unfold list.end_.
    by rewrite Nat.eqb_refl, app_nil_r.
  - inversion Hsd as [|? f d ? fs' ds' [Hc Hb] Hsd']; subst.
    destruct fuel as [|fuel]; [simpl in *; lia|].
    destruct (dll_neighbours _ _ _ _ _ Hd) as [Hp Hnx].
    assert (c ≠ sg) as Hne.
    { destruct Hd as [Hnd _]. apply NoDup_cons in Hnd as [Hnd _]. set_solver. }
    assert (c ∉ l2) as Hcl2.
    { destruct Hd as [Hnd _]. rewrite app_comm_cons, <-Permutation_middle in Hnd.
      apply NoDup_cons in Hnd as [Hnd _]. set_solver. }
    assert (is_Some (load_prev (nodes st) (hd sg l2))) as [pp Hpp].
    { destruct (alloc_loads (nodes st) (hd sg l2)) as (?&?&?&?); [|eauto].
      eapply dll_alloc; [done|]. pose proof (hd_in l2 sg). set_solver. }
    simpl. rewrite lookup_insert_eq. simpl.
    unfold list.end_. apply Nat.eqb_neq in Hne. rewrite Hne, Hnx. simpl. rewrite Hpp. simpl.
    rewrite Hc. simpl. rewrite Hb. rewrite insert_insert_eq.
    change (with_toks _ (during st t sg top c)) with (during st t sg top (hd sg l2)).
    destruct d.
    + (* the callback disconnects its own connection *)
      rewrite signals_exec_S. simpl. rewrite Hc. simpl.
      destruct (disconnect_linked n (during st t sg top (hd sg l2)) sg kept c l2
                  (Some f) (Some t) (t :: tl)) as (h' & -> & Hr & Hd'); simpl; try done.
      * by rewrite lookup_insert_eq.
      * split; [done|]. eexists. rewrite lookup_insert_eq. split; [done|]. simpl.
        eapply token_chain_frame; [done|]. intros t0 tok0 Hin Ht0.
        exists tok0. rewrite lookup_insert_ne; [done|]. intros ->. congruence.
      * lia.
      * simpl. rewrite lookup_insert_eq. simpl.
        destruct (IH fs' ds' (State h' (<[c := Connection nullptr None]> (conns st))
                                    (toks st) (sigs st)) kept (tr ++ [(f, arg)]) fuel)
          as (h'' & cs'' & Hloop & Hd''); simpl; try done.
        { eapply self_disconnecting_frame; [done|]. intros c' Hc'. simpl.
          rewrite lookup_insert_ne; [done|]. intros ->. done. }
        { simpl in Hfuel. lia. }
        exists h'', cs''. split; [|done].
        unfold during in *. simpl in *. rewrite Hloop. by rewrite <-app_assoc.
    + (* the callback does nothing *)
      rewrite signals_exec_S. simpl. rewrite lookup_insert_eq. simpl.
      destruct (IH fs' ds' st (kept ++ [c]) (tr ++ [(f, arg)]) fuel)
        as (h'' & cs'' & Hloop & Hd''); try done.
      { by rewrite <-app_assoc. }
      { simpl in Hfuel. lia. }
      exists h'', cs''. split; [|by rewrite <-app_assoc in Hd''].
      rewrite Hloop. by rewrite <-app_assoc.
Qed.
End signals_self_disconnect.

Lemma self_disconnecting_callbacks {T} body arg (st : state T) sg cs fs ds :
  Forall3 (self_disconnecting body arg st sg) cs fs ds → callbacks st cs fs.
Proof. induction 1 as [|c f d cs fs ds [Hc Hb] H IH]; constructor; eauto. Qed.

(** C3: the cursor of the token is advanced past the current connection
    before its callback is invoked: a callback that throws at connection [c]
    leaves the cursor on the successor of [c].  So in an emission in which
    callbacks disconnect their own connection, every connection that was
    linked at the start is invoked exactly once, in the original order, none
    is revisited, the connections that did not disconnect themselves stay
    linked in their order, and the token stack is as before. *)
Theorem self_disconnect_during_emission
    (body : nat → nat → list action) (st : state (iteration_token (option nat)))
    (sg : nat) (cs fs : list nat) (ds : list bool) (top : option nat) (tl : list nat)
    (depth arg fuel : nat) (tr : list (nat * nat)) :
  dll (nodes st) sg cs →
  sigs st !! sg = Some top →
  token_chain (toks st) top tl →
  toks st !! depth = None →
  Forall3 (self_disconnecting body arg st sg) cs fs ds →
  length cs + length tl + 3 < fuel →
  (∀ l1 c l2 f e,
     cs = l1 ++ c :: l2 → conns st !! c = Some (Connection (ptr sg) (Some f)) →
     signals.emission_loop body (λ _ cfg, Ret (Thrown e, cfg)) fuel depth sg arg
       (during st depth sg top c, tr) =
     Ret (Thrown e, (during st depth sg top (hd sg l2), tr ++ [(f, arg)]))) ∧
  ∃ st', signals.emit body fuel depth sg arg (st, tr) =
           Ret (Normal, (st', tr ++ ((λ f, (f, arg)) <$> fs))) ∧
         dll (nodes st') sg (survivors cs ds) ∧
         toks st' = toks st ∧ sigs st' = sigs st.
Proof.
  intros Hd Hs Htc Ht Hsd Hfuel. split.
  - intros l1 c l2 f e -> Hc.
    destruct (dll_neighbours _ _ _ _ _ Hd) as [Hp Hnx].
    assert (c ≠ sg) as Hne.
    { destruct Hd as [Hnd _]. apply NoDup_cons in Hnd as [Hnd _]. set_solver. }
    assert (is_Some (load_prev (nodes st) (hd sg l2))) as [pp Hpp].
    { destruct (alloc_loads (nodes st) (hd sg l2)) as (?&?&?&?); [|eauto].
      eapply dll_alloc; [done|]. pose proof (hd_in l2 sg). set_solver. }
    destruct fuel as [|fuel]; [lia|].
    simpl. rewrite lookup_insert_eq. simpl.
    unfold list.end_. apply Nat.eqb_neq in Hne. rewrite Hne, Hnx. simpl. rewrite Hpp. simpl.
    rewrite Hc. simpl. rewrite insert_insert_eq. done.
  - destruct fuel as [|n]; [lia|].
    destruct (emission_loop_self_disconnect body n depth sg top tl arg cs ltac:(lia)
                fs ds st [] tr (S n)) as (h' & cs' & Hloop & Hd'); try done; [lia|].
    exists (State h' cs' (toks st) (sigs st)). split; [|done].
    unfold signals.emit. rewrite (signals_call_operator_eq _ _ _ _ _ _ _ _ top cs) by done.
    rewrite Hloop. simpl. rewrite during_done; done.
Qed.

Lemma scenario_setup body :
  scenario.final_state (signals.exec body 1 0 scenario.setup (empty_state, [])) =
  Some scenario.linked3.
Proof. vm_compute. reflexivity. Qed.

Section unlinked_connection.
Lemma signals_disconnect_unlinked fuel (st : state (iteration_token (option nat))) c :
  load_next (nodes st) c = Some c → load_prev (nodes st) c = Some c →
  signals.disconnect fuel c st = Ret st.
Proof.
  intros Hn Hp. unfold signals.disconnect, is_linked. rewrite Hn, Hp. simpl.
  by rewrite Nat.eqb_refl.
Qed.

Lemma alt_disconnect_unlinked fuel (st : state (iteration_token bool)) c :
  load_next (nodes st) c = Some c → load_prev (nodes st) c = Some c →
  alt.disconnect fuel c st = Ret st.
Proof.
  intros Hn Hp. unfold alt.disconnect, is_linked. rewrite Hn, Hp. simpl.
  by rewrite Nat.eqb_refl.
Qed.

Lemma connection_dtor_unlinked {X} disconnect fuel (st : state (iteration_token X)) c :
  load_next (nodes st) c = Some c → load_prev (nodes st) c = Some c →
  disconnect fuel c st = Ret st →
  connection_dtor disconnect fuel c st =
    Ret (State (delete c (nodes st)) (delete c (conns st)) (toks st) (sigs st)).
Proof.
  intros Hn Hp Hd. unfold connection_dtor. rewrite Hd. simpl.
  unfold list_element_dtor. by rewrite unlink_unlinked.
Qed.
End unlinked_connection.

(** C10: on an unlinked connection, whatever its signal pointer, and on a
    default-constructed one in particular, whose signal pointer is
    indeterminate, [disconnect()] sees [is_linked() == false] and returns
    the store unchanged, any number of times; the destructor only ends the
    lifetime of the connection. *)
Theorem disconnect_of_unlinked_connection_is_noop
    (fuel : nat) (st : state (iteration_token (option nat))) (c n : nat) :
  load_next (nodes st) c = Some c →
  load_prev (nodes st) c = Some c →
  is_linked c (nodes st) = Some false ∧
  signals.disconnect fuel c st = Ret st ∧
  Nat.iter n (λ r, r ≫= signals.disconnect fuel c) (Ret st) = Ret st ∧
  connection_dtor signals.disconnect fuel c st =
    Ret (State (delete c (nodes st)) (delete c (conns st)) (toks st) (sigs st)) ∧
  (∀ st0 : state (iteration_token (option nat)),
     nodes st0 !! c = None → conns st0 !! c = None →
     ∃ st1, connection_default_ctor c st0 = Some st1 ∧
            conns st1 !! c = Some (Connection indeterminate None) ∧
            signals.disconnect fuel c st1 = Ret st1).
Proof.
  intros Hn Hp.
  split; [unfold is_linked; rewrite Hn, Hp; simpl; by rewrite Nat.eqb_refl|].
  split; [by apply signals_disconnect_unlinked|]. split; [|split].
  - induction n as [|n IH]; [done|]. simpl. rewrite IH. simpl.
    by apply signals_disconnect_unlinked.
  - apply connection_dtor_unlinked; try done. by apply signals_disconnect_unlinked.
  - intros st0 Hn0 Hc0. unfold connection_default_ctor. rewrite Hn0, Hc0.
    eexists. split; [done|]. simpl. split; [by rewrite lookup_insert_eq|].
    apply signals_disconnect_unlinked; simpl; unfold list_element_ctor; heap_solve.
Qed.

(** A default-constructed connection at address 2. *)
Lemma disconnect_of_unlinked_connection_is_noop_witness :
  signals.disconnect 0 2 (State {[2 := ListElement 2 2]}
                                {[2 := Connection indeterminate None]} ∅ ∅) =
  Ret (State {[2 := ListElement 2 2]} {[2 := Connection indeterminate None]} ∅ ∅).
Proof.
  apply (disconnect_of_unlinked_connection_is_noop 0
           (State {[2 := ListElement 2 2]} {[2 := Connection indeterminate None]} ∅ ∅)
           2 3); reflexivity.
Defined.

(** C1.  Specified: when a callback disconnects the connection under the
    cursor of an active token, the cursor moves on to the next element, the
    disconnected connection is skipped and the one after it is still
    invoked.  The code: [disconnect()] unlinks the connection before it walks the
    tokens, so the connection is its own successor by then and the advance
    leaves the cursor on it: with the list 1, 2, 3 and callable 1
    disconnecting connection 2, the cursor stays on 2, whose callback is now
    empty, the emission ends in [bad_function_call] after callable 1 alone,
    and connection 3 is never invoked.  Both versions of the header do the
    same. *)
Theorem disconnect_next_leaves_cursor_on_disconnected :
  (∃ st1,
     signals.disconnect 5 2 (during scenario.linked3 0 0 None 2) = Ret st1 ∧
     current <$> toks st1 !! 0 = Some 2 ∧
     load_next (nodes st1) 2 = Some 2 ∧
     slot <$> conns st1 !! 2 = Some None) ∧
  scenario.observe
    (signals.exec scenario.disconnect_next 10 0 [Emit 0 7] (scenario.linked3, [])) =
  Ret (Thrown bad_function_call, [(1, 7)]) ∧
  scenario.observe
    (alt.exec scenario.disconnect_next 10 0 (scenario.setup ++ [Emit 0 7]) (empty_state, [])) =
  Ret (Thrown bad_function_call, [(1, 7)]).
Proof.
  split; [eexists; split; [vm_compute; reflexivity|]; vm_compute; done|].
  split; vm_compute; reflexivity.
Qed.

(** C2.  Specified: an emission in which a callback destroys the signal,
    at any position and also at the last connection, stops after that
    callback without touching the destroyed signal.  The code: the
    destructor of the signal marks only the tokens whose cursor is not at the end.  When
    callable 3, the last of the list 1, 2, 3, destroys the signal, the
    cursor is at the end already: the token keeps its pointer to the signal,
    and the emission goes on to use the destroyed signal, which is
    undefined.  When callable 2, in the middle, destroys it, the emission
    stops after callable 2 and returns normally. *)
Theorem destroying_signal_in_last_callback_is_undefined :
  signals.exec scenario.destroy_in_last 10 0 [Emit 0 7] (scenario.linked3, []) = Undefined ∧
  (∃ st1,
     signals.emission_loop scenario.destroy_in_last
       (signals.exec scenario.destroy_in_last 10 1) 10 0 0 7
       (during scenario.linked3 0 0 None 1, []) =
       Ret (Normal, (st1, [(1, 7); (2, 7); (3, 7)])) ∧
     extra <$> toks st1 !! 0 = Some (Some 0) ∧
     sigs st1 !! 0 = None ∧
     signals.iteration_token_dtor 0 st1 = None) ∧
  scenario.observe
    (signals.exec scenario.destroy_in_middle 10 0 [Emit 0 7] (scenario.linked3, [])) =
  Ret (Normal, [(1, 7); (2, 7)]).
Proof.
  split; [vm_compute; reflexivity|].
  split; [eexists; split; [vm_compute; reflexivity|]; vm_compute; done|].
  vm_compute; reflexivity.
Qed.

Lemma linked3_dll : dll (nodes scenario.linked3) 0 [1; 2; 3].
Proof.
  split; [repeat (apply NoDup_cons_2; [set_solver|]); apply NoDup_nil_2|].
  vm_compute. repeat split.
Defined.

(** Three connections whose callbacks do nothing. *)
Lemma emission_invokes_linked_callbacks_in_list_order_witness :
  signals.emit scenario.quiet 10 0 0 7 (scenario.linked3, []) =
  Ret (Normal, (scenario.linked3, [(1, 7); (2, 7); (3, 7)])).
Proof.
  apply (emission_invokes_linked_callbacks_in_list_order scenario.quiet scenario.linked3
           0 [1; 2; 3] [1; 2; 3] None 0 7 10 []).
  - exact linked3_dll.
  - reflexivity.
  - reflexivity.
  - repeat constructor; eexists; reflexivity.
  - repeat constructor.
  - simpl. lia.
Defined.

(** Callable 2 disconnects its own connection. *)
Lemma self_disconnect_during_emission_witness :
  ∃ st', signals.emit (λ f _, match f with 2 => [Disconnect 2] | _ => [] end) 10 0 0 7
           (scenario.linked3, []) =
         Ret (Normal, (st', [(1, 7); (2, 7); (3, 7)])) ∧
         dll (nodes st') 0 [1; 3] ∧
         toks st' = toks scenario.linked3 ∧ sigs st' = sigs scenario.linked3.
Proof.
  apply (self_disconnect_during_emission
           (λ f _, match f with 2 => [Disconnect 2] | _ => [] end) scenario.linked3
           0 [1; 2; 3] [1; 2; 3] [false; true; false] None [] 0 7 10 []).
  - exact linked3_dll.
  - reflexivity.
  - reflexivity.
  - reflexivity.
  - repeat constructor.
  - simpl. lia.
Defined.

Section throwing_callback.
Variable body : nat → nat → list action.

(** The loop walks over a run [la] of connections whose callbacks do
    nothing. *)
Lemma emission_loop_skip invoke st t sg top arg la :
  (∀ cfg, invoke [] cfg = Ret (Normal, cfg)) →
  ∀ l1 rest fa tr fuel,
    dll (nodes st) sg (l1 ++ la ++ rest) →
    callbacks st la fa → Forall (λ f, body f arg = []) fa →
    signals.emission_loop body invoke (length la + fuel) t sg arg
      (during st t sg top (hd sg (la ++ rest)), tr) =
    signals.emission_loop body invoke fuel t sg arg
      (during st t sg top (hd sg rest), tr ++ ((λ f, (f, arg)) <$> fa)).
Proof.
  intros Hinv. induction la as [|c la IH]; intros l1 rest fa tr fuel Hd Hcb Hpure.
  - apply Forall2_nil_inv_l in Hcb as ->. simpl. by rewrite app_nil_r.
  - apply Forall2_cons_inv_l in Hcb as (f & fs' & (p & Hc) & Hcb & ->).
    apply Forall_cons in Hpure as [Hf Hpure].
    rewrite <-app_comm_cons in Hd.
    destruct (dll_neighbours _ _ _ _ _ Hd) as [Hp Hn].
    assert (c ≠ sg) as Hne.
    { destruct Hd as [Hnd _]. apply NoDup_cons in Hnd as [Hnd _]. set_solver. }
    assert (is_Some (load_prev (nodes st) (hd sg (la ++ rest)))) as [pp Hpp].
    { destruct (alloc_loads (nodes st) (hd sg (la ++ rest))) as (?&?&?&?); [|eauto].
      eapply dll_alloc; [done|]. pose proof (hd_in (la ++ rest) sg). set_solver. }
    simpl. rewrite lookup_insert_eq. simpl.
    unfold list.end_. apply Nat.eqb_neq in Hne. rewrite Hne, Hn. simpl. rewrite Hpp. simpl.
    rewrite Hc. simpl. rewrite Hf, Hinv. simpl.
    rewrite lookup_insert_eq. simpl. rewrite insert_insert_eq.
    change (with_toks _ (during st t sg top c)) with
      (during st t sg top (hd sg (la ++ rest))).
    rewrite (IH (l1 ++ [c]) rest fs' (tr ++ [(f, arg)]) fuel); try done.
    + by rewrite <-app_assoc.
    + by rewrite <-app_assoc.
Qed.

Lemma alt_emission_loop_skip invoke st t sg top arg la :
  (∀ cfg, invoke [] cfg = Ret (Normal, cfg)) →
  ∀ l1 rest fa tr fuel,
    dll (nodes st) sg (l1 ++ la ++ rest) →
    callbacks st la fa → Forall (λ f, body f arg = []) fa →
    alt.emission_loop body invoke (length la + fuel) t sg arg
      (alt_during st t sg top (hd sg (la ++ rest)), tr) =
    alt.emission_loop body invoke fuel t sg arg
      (alt_during st t sg top (hd sg rest), tr ++ ((λ f, (f, arg)) <$> fa)).
Proof.
  intros Hinv. induction la as [|c la IH]; intros l1 rest fa tr fuel Hd Hcb Hpure.
  - apply Forall2_nil_inv_l in Hcb as ->. simpl. by rewrite app_nil_r.
  - apply Forall2_cons_inv_l in Hcb as (f & fs' & (p & Hc) & Hcb & ->).
    apply Forall_cons in Hpure as [Hf Hpure].
    rewrite <-app_comm_cons in Hd.
    destruct (dll_neighbours _ _ _ _ _ Hd) as [Hp Hn].
    assert (c ≠ sg) as Hne.
    { destruct Hd as [Hnd _]. apply NoDup_cons in Hnd as [Hnd _]. set_solver. }
    assert (is_Some (load_prev (nodes st) (hd sg (la ++ rest)))) as [pp Hpp].
    { destruct (alloc_loads (nodes st) (hd sg (la ++ rest))) as (?&?&?&?); [|eauto].
      eapply dll_alloc; [done|]. pose proof (hd_in (la ++ rest) sg). set_solver. }
    simpl. rewrite lookup_insert_eq. simpl.
    unfold list.end_. apply Nat.eqb_neq in Hne. rewrite Hne, Hn. simpl. rewrite Hpp. simpl.
    rewrite Hc. simpl. rewrite Hf, Hinv. simpl.
    rewrite lookup_insert_eq. simpl. rewrite insert_insert_eq.
    change (with_toks _ (alt_during st t sg top c)) with
      (alt_during st t sg top (hd sg (la ++ rest))).
    rewrite (IH (l1 ++ [c]) rest fs' (tr ++ [(f, arg)]) fuel); try done.
    + by rewrite <-app_assoc.
    + by rewrite <-app_assoc.
Qed.

Lemma alt_call_operator_eq invoke fuel t sg arg
    (st : state (iteration_token bool)) tr top cs :
  dll (nodes st) sg cs → sigs st !! sg = Some top →
  alt.call_operator body invoke fuel t sg arg (st, tr) =
  (r ← alt.emission_loop body invoke fuel t sg arg (alt_during st t sg top (hd sg cs), tr);
   let st := r.2.2.1 in
   st ← (if r.2.1 : bool then Ret st else lift (alt.pop_token t sg st));
   Ret (r.1, (with_toks (delete t (toks st)) st, r.2.2.2))).
Proof.
  intros Hd Hs.
  unfold alt.call_operator, alt.iteration_token_ctor, list.begin.
  simpl. by rewrite (dll_begin _ _ _ Hd), Hs.
Qed.

Lemma alt_during_done (st : state (iteration_token bool)) t sg top cur :
  toks st !! t = None → sigs st !! sg = Some top →
  (st' ← lift (alt.pop_token t sg (alt_during st t sg top cur));
   Ret (with_toks (delete t (toks st')) st')) = Ret st.
Proof.
  intros Ht Hs. unfold alt.pop_token, alt_during. simpl.
  rewrite !lookup_insert_eq. simpl. unfold with_toks, with_sigs. simpl.
  rewrite delete_insert_eq, insert_insert_eq, insert_id, delete_id by done.
  by destruct st.
Qed.
End throwing_callback.

(** C5: when the callback of a connection throws during an emission, the
    exception leaves the emission call, the callbacks in front of it have
    been invoked and those behind it are not, and the store is the one
    before the call: the token is off the token stack of the signal again,
    and the list and the connections are untouched, so still usable.  This
    holds for both versions of the header. *)
Theorem throwing_callback_stops_emission_and_pops_token
    (body : nat → nat → list action)
    (h : gmap nat list_element) (cm : gmap nat connection) (sm : gmap nat (option nat))
    (tks : gmap nat (iteration_token (option nat))) (tks' : gmap nat (iteration_token bool))
    (sg : nat) (l1 : list nat) (c : nat) (l2 : list nat) (f1 : list nat) (f e : nat)
    (p : pointer) (top : option nat) (depth arg fuel : nat) (tr : list (nat * nat)) :
  dll h sg (l1 ++ c :: l2) →
  sm !! sg = Some top →
  tks !! depth = None → tks' !! depth = None →
  callbacks (State h cm tks sm) l1 f1 →
  Forall (λ f, body f arg = []) f1 →
  cm !! c = Some (Connection p (Some f)) →
  body f arg = [ThrowException e] →
  length l1 + 2 < fuel →
  signals.emit body fuel depth sg arg (State h cm tks sm, tr) =
    Ret (Thrown (user_exception e),
         (State h cm tks sm, tr ++ ((λ f, (f, arg)) <$> f1) ++ [(f, arg)])) ∧
  alt.emit body fuel depth sg arg (State h cm tks' sm, tr) =
    Ret (Thrown (user_exception e),
         (State h cm tks' sm, tr ++ ((λ f, (f, arg)) <$> f1) ++ [(f, arg)])).
Proof.
  intros Hd Hs Ht Ht' Hcb Hpure Hc Hb Hfuel.
  destruct (dll_neighbours _ _ _ _ _ Hd) as [Hp Hn].
  assert (c ≠ sg) as Hne.
  { destruct Hd as [Hnd _]. apply NoDup_cons in Hnd as [Hnd _]. set_solver. }
  assert (is_Some (load_prev h (hd sg l2))) as [pp Hpp].
  { destruct (alloc_loads h (hd sg l2)) as (?&?&?&?); [|eauto].
    eapply dll_alloc; [done|]. pose proof (hd_in l2 sg). set_solver. }
  destruct fuel as [|n]; [lia|].
  assert (∃ k, S n = length l1 + S k) as [k Hk] by (exists (n - length l1); lia).
  apply Nat.eqb_neq in Hne.
  assert (hd sg (l1 ++ c :: l2) = hd sg (l1 ++ [c] ++ l2)) as Hhd by done.
  split.
  - unfold signals.emit.
    rewrite (signals_call_operator_eq _ _ _ _ _ _ _ _ top (l1 ++ c :: l2)) by done.
    rewrite Hk at 2. rewrite Hhd.
    rewrite (emission_loop_skip body _ (State h cm tks sm) depth sg top arg l1
               ltac:(by intros; rewrite signals_exec_S) [] ([c] ++ l2) f1 tr (S k)); try done.
    simpl. rewrite lookup_insert_eq. simpl. unfold list.end_.
    rewrite Hne, Hn. simpl. rewrite Hpp. simpl. rewrite Hc. simpl. rewrite Hb.
    rewrite signals_exec_S. simpl. rewrite insert_insert_eq.
    change (with_toks _ (during _ depth sg top c)) with
      (during (State h cm tks sm) depth sg top (hd sg l2)).
    rewrite during_done by done. simpl. by rewrite <-app_assoc.
  - unfold alt.emit.
    rewrite (alt_call_operator_eq _ _ _ _ _ _ _ _ top (l1 ++ c :: l2)) by done.
    rewrite Hk at 2. rewrite Hhd.
    rewrite (alt_emission_loop_skip body _ (State h cm tks' sm) depth sg top arg l1
               ltac:(by intros; rewrite alt_exec_S) [] ([c] ++ l2) f1 tr (S k)); try done.
    simpl. rewrite lookup_insert_eq. simpl. unfold list.end_.
    rewrite Hne, Hn. simpl. rewrite Hpp. simpl. rewrite Hc. simpl. rewrite Hb.
    rewrite alt_exec_S. simpl. rewrite insert_insert_eq.
    change (with_toks _ (alt_during _ depth sg top c)) with
      (alt_during (State h cm tks' sm) depth sg top (hd sg l2)).
    pose proof (alt_during_done (State h cm tks' sm) depth sg top (hd sg l2) Ht' Hs) as Hdone.
    unfold alt.pop_token in *. simpl in *. rewrite !lookup_insert_eq in *. simpl in *.
    simplify_eq. unfold with_toks, with_sigs in *. simpl in *.
    rewrite delete_insert_eq, insert_insert_eq, insert_id, delete_id by done.
    by rewrite <-app_assoc.
Qed.

Section signal_destructor.
Implicit Type h : gmap nat list_element.

Lemma removed_frame h h' x p n a :
  removed h h' x p n → a ≠ x → a ≠ p → a ≠ n → h' !! a = h !! a.
Proof.
  intros [Hn Hp] ???. apply lookup_loads; [rewrite Hn | rewrite Hp];
    repeat case_decide; by simplify_eq.
Qed.

Lemma removed_self h h' x p n :
  removed h h' x p n → load_next h' x = Some x ∧ load_prev h' x = Some x.
Proof. intros [Hn Hp]. rewrite Hn, Hp. by rewrite !decide_True. Qed.

Lemma dll_nil_self h f : dll h f [] → load_next h f = Some f ∧ load_prev h f = Some f.
Proof. by intros [_ [??]]. Qed.

Lemma unlinked_is_linked h c :
  load_next h c = Some c → load_prev h c = Some c → is_linked c h = Some false.
Proof. intros Hn Hp. unfold is_linked. rewrite Hn, Hp. simpl. by rewrite Nat.eqb_refl. Qed.

(** [~list()]: every element is popped from the back. *)
Lemma list_clear_spec f cs :
  ∀ h fuel, dll h f cs → length cs < fuel →
    ∃ h', list.clear fuel f h = Some (Some h') ∧ dll h' f [] ∧
          (∀ c, c ∈ cs → load_next h' c = Some c ∧ load_prev h' c = Some c) ∧
          (∀ a, a ∉ f :: cs → h' !! a = h !! a).
Proof.
  induction cs as [|c cs IH] using rev_ind; intros h fuel Hd Hfuel.
  - destruct fuel; [simpl in *; lia|]. exists h. simpl.
    rewrite (dll_empty _ _ _ Hd). split; [done|]. split; [done|]. split; [|done].
    intros c Hc. inversion Hc.
  - destruct fuel as [|fuel]; [simpl in *; lia|]. simpl.
    rewrite (dll_empty _ _ _ Hd). destruct (cs ++ [c]) eqn:E; [by destruct cs|].
    rewrite <-E in *. clear E. unfold list.pop_back.
    rewrite (dll_back _ _ _ Hd), last_last. simpl.
    destruct (dll_unlink _ _ _ _ _ Hd) as (h1 & -> & Hr & Hd1).
    rewrite app_nil_r in Hd1.
    destruct (IH h1 fuel Hd1) as (h' & -> & Hd' & Hself & Hframe).
    { rewrite length_app in Hfuel. simpl in Hfuel. lia. }
    exists h'. split; [done|]. split; [done|].
    assert (c ∉ f :: cs) as Hc.
    { destruct Hd as [Hnd _]. rewrite app_comm_cons in Hnd.
      apply NoDup_app in Hnd as (_ & Hnd & _). intros Hin. apply (Hnd c Hin). set_solver. }
    split.
    + intros c' [Hc'| ->%list_elem_of_singleton]%elem_of_app; [by apply Hself|].
      unfold load_next, load_prev. rewrite Hframe by done.
      by apply (removed_self _ _ _ _ _ Hr).
    + intros a Ha. rewrite Hframe by set_solver.
      eapply removed_frame; [done|set_solver| |].
      * pose proof (last_in cs f). set_solver.
      * simpl. set_solver.
Qed.

(** The destructors of the signal's members, for a list that still holds
    [cs]. *)
Lemma signal_members_dtor_spec {X} (st : state (iteration_token X)) sg cs fuel :
  dll (nodes st) sg cs → length cs < fuel →
  ∃ h', signal_members_dtor fuel sg st =
          Ret (State h' (conns st) (toks st) (delete sg (sigs st))) ∧
        h' !! sg = None ∧
        (∀ c, c ∈ cs → load_next h' c = Some c ∧ load_prev h' c = Some c) ∧
        (∀ a, a ∉ sg :: cs → h' !! a = nodes st !! a).
Proof.
  intros Hd Hfuel.
  destruct (list_clear_spec sg cs (nodes st) fuel Hd Hfuel) as (h' & Hcl & Hd' & Hself & Hfr).
  destruct (dll_nil_self _ _ Hd') as [Hn Hp].
  exists (delete sg h'). unfold signal_members_dtor, list_element_dtor.
  rewrite Hcl. simpl. rewrite unlink_unlinked by done. simpl.
  split; [done|]. split; [by rewrite lookup_delete_eq|].
  assert (sg ∉ cs) as Hsg.
  { destruct Hd as [Hnd _]. by apply NoDup_cons in Hnd as [? _]. }
  split.
  - intros c Hc. destruct (Hself c Hc) as [Hcn Hcp].
    assert (c ≠ sg) by set_solver. by heap_solve.
  - intros a Ha. rewrite lookup_delete_ne by set_solver. by apply Hfr.
Qed.

(** The loop of [~signal()] over the connections still linked. *)
Lemma clear_connections_spec sg cs :
  ∀ (st : state (iteration_token (option nat))) fuel,
    dll (nodes st) sg cs → Forall (λ c, is_Some (conns st !! c)) cs →
    length cs < fuel →
    ∃ h' cm', signals.clear_connections fuel sg st =
                Ret (State h' cm' (toks st) (sigs st)) ∧
              dll h' sg [] ∧
              (∀ c, c ∈ cs → load_next h' c = Some c ∧ load_prev h' c = Some c ∧
                             cm' !! c = Some (Connection nullptr None)) ∧
              (∀ a, a ∉ sg :: cs → h' !! a = nodes st !! a ∧ cm' !! a = conns st !! a).
Proof.
  induction cs as [|c cs IH]; intros st fuel Hd Hall Hfuel.
  - destruct fuel; [simpl in *; lia|]. exists (nodes st), (conns st). simpl.
    rewrite (dll_empty _ _ _ Hd). simpl. split; [by destruct st|]. split; [done|].
    split; [|done]. intros c Hc. inversion Hc.
  - destruct fuel as [|fuel]; [simpl in *; lia|]. simpl.
    apply Forall_cons in Hall as [[x Hx] Hall].
    rewrite (dll_empty _ _ _ Hd). simpl. unfold list.front.
    rewrite (dll_begin _ _ _ Hd). simpl. rewrite Hx. simpl.
    rewrite lookup_insert_eq. simpl. rewrite insert_insert_eq.
    destruct (dll_unlink _ _ [] c cs Hd) as (h1 & -> & Hr & Hd1). simpl in *.
    assert (c ∉ sg :: cs) as Hc.
    { destruct Hd as [Hnd _]. apply NoDup_cons in Hnd as [Hsg Hnd].
      apply NoDup_cons in Hnd as [Hc _]. set_solver. }
    destruct (IH (State h1 (<[c := Connection nullptr None]> (conns st))
                   (toks st) (sigs st)) fuel) as (h' & cm' & -> & Hd' & Hself & Hfr);
      simpl; [done| |lia|].
    { eapply Forall_impl; [done|]. intros c' [y Hy]. simpl in *.
      destruct (decide (c' = c)) as [->|]; [rewrite lookup_insert_eq|rewrite lookup_insert_ne];
        eauto. }
    simpl in *. exists h', cm'. split; [done|]. split; [done|]. split.
    + intros c' [->|Hc']%elem_of_cons; [|by apply Hself].
      destruct (Hfr c Hc) as [Hh Hcm]. rewrite Hcm, lookup_insert_eq.
      unfold load_next, load_prev. rewrite Hh. destruct (removed_self _ _ _ _ _ Hr). done.
    + intros a Ha. destruct (Hfr a) as [Hh Hcm]; [set_solver|].
      rewrite Hh, Hcm. rewrite lookup_insert_ne by set_solver. split; [|done].
      eapply removed_frame; [done|set_solver|set_solver|].
      pose proof (hd_in cs sg). set_solver.
Qed.
End signal_destructor.

(** The destructor of a signal, for any list and token stack.  In both
    versions every connection that was still linked ends up unlinked, so
    that its later [disconnect()] changes nothing and its destructor only
    ends its lifetime, neither reading the destroyed signal.  With
    signals.h the callback and the signal pointer of these connections are
    cleared; with the alternate version the entry of each connection is the
    one of before. *)
Theorem signal_destructor_unlinks_remaining_connections
    (h : gmap nat list_element) (cm : gmap nat connection) (sm : gmap nat (option nat))
    (tks : gmap nat (iteration_token (option nat))) (tks' : gmap nat (iteration_token bool))
    (sg : nat) (cs : list nat) (top : option nat) (tl : list nat) (fuel : nat) :
  dll h sg cs →
  sm !! sg = Some top →
  token_chain tks top tl → token_chain tks' top tl →
  Forall (λ c, is_Some (cm !! c)) cs →
  length cs + length tl < fuel →
  (∃ st', signals.signal_dtor fuel sg (State h cm tks sm) = Ret st' ∧
          sigs st' !! sg = None ∧ nodes st' !! sg = None ∧
          ∀ c, c ∈ cs →
            is_linked c (nodes st') = Some false ∧
            conns st' !! c = Some (Connection nullptr None) ∧
            (∀ k, signals.disconnect k c st' = Ret st') ∧
            (∀ k, connection_dtor signals.disconnect k c st' =
                  Ret (State (delete c (nodes st')) (delete c (conns st'))
                             (toks st') (sigs st')))) ∧
  (∃ st', alt.signal_dtor fuel sg (State h cm tks' sm) = Ret st' ∧
          sigs st' !! sg = None ∧ nodes st' !! sg = None ∧
          ∀ c, c ∈ cs →
            is_linked c (nodes st') = Some false ∧
            conns st' !! c = cm !! c ∧
            (∀ k, alt.disconnect k c st' = Ret st') ∧
            (∀ k, connection_dtor alt.disconnect k c st' =
                  Ret (State (delete c (nodes st')) (delete c (conns st'))
                             (toks st') (sigs st')))).
Proof.
  intros Hd Hs Htc Htc' Hall Hfuel.
  assert (sg ∉ cs) as Hsg.
  { destruct Hd as [Hnd _]. by apply NoDup_cons in Hnd as [? _]. }
  split.
  - unfold signals.signal_dtor. simpl. rewrite Hs. simpl.
    destruct (for_tokens_map fuel
                (λ tok : iteration_token (option nat),
                   if negb (current tok =? list.end_ sg)
                   then Some (set_extra None tok) else Some tok)
                (λ tok, if negb (current tok =? list.end_ sg)
                        then set_extra None tok else tok)
                top tks tl) as (tks1 & -> & _); [done|lia| | |].
    { intros tok. by destruct (negb _). }
    { intros tok. by destruct (negb _). }
    simpl.
    destruct (clear_connections_spec sg cs (with_toks tks1 (State h cm tks sm)) fuel)
      as (h1 & cm1 & -> & Hd1 & Hself & Hfr); simpl; [done|done|lia|].
    simpl.
    destruct (signal_members_dtor_spec (State h1 cm1 tks1 sm) sg [] fuel)
      as (h2 & -> & Hsg2 & _ & Hfr2); simpl; [done|lia|].
    eexists. split; [done|]. simpl. split; [by rewrite lookup_delete_eq|]. split; [done|].
    intros c Hc. destruct (Hself c Hc) as (Hn & Hp & Hcm).
    assert (load_next h2 c = Some c ∧ load_prev h2 c = Some c) as [Hn2 Hp2].
    { unfold load_next, load_prev in *. rewrite Hfr2 by set_solver. done. }
    split; [by apply unlinked_is_linked|]. split; [done|].
    split; intros k.
    + by apply signals_disconnect_unlinked.
    + apply connection_dtor_unlinked; try done. by apply signals_disconnect_unlinked.
  - unfold alt.signal_dtor. simpl. rewrite Hs. simpl.
    destruct (for_tokens_map fuel
                (λ tok : iteration_token bool,
                   if negb (current tok =? list.end_ sg)
                   then Some (set_extra true tok) else Some tok)
                (λ tok, if negb (current tok =? list.end_ sg)
                        then set_extra true tok else tok)
                top tks' tl) as (tks1 & -> & _); [done|lia| | |].
    { intros tok. by destruct (negb _). }
    { intros tok. by destruct (negb _). }
    simpl.
    destruct (signal_members_dtor_spec (with_toks tks1 (State h cm tks' sm)) sg cs fuel)
      as (h2 & -> & Hsg2 & Hself & Hfr2); simpl; [done|lia|].
    eexists. split; [done|]. simpl. split; [by rewrite lookup_delete_eq|]. split; [done|].
    intros c Hc. destruct (Hself c Hc) as (Hn2 & Hp2).
    split; [by apply unlinked_is_linked|]. split; [done|].
    split; intros k.
    + by apply alt_disconnect_unlinked.
    + apply connection_dtor_unlinked; try done. by apply alt_disconnect_unlinked.
Qed.

(** The alternate version destroys the signal of the list 1, 2, 3: connection
    2 still holds its callback. *)
Lemma alternate_signal_destructor_keeps_callbacks :
  ¬ (∀ st',
       alt.signal_dtor 10 0
         (State (nodes scenario.linked3) (conns scenario.linked3) ∅ (sigs scenario.linked3)) =
         Ret st' →
       ∀ c, c ∈ [1; 2; 3] → slot <$> conns st' !! c = Some None).
Proof.
  intros H.
  destruct (alt.signal_dtor 10 0
              (State (nodes scenario.linked3) (conns scenario.linked3) ∅
                     (sigs scenario.linked3))) as [st'| |] eqn:E; [|by vm_compute in E..].
  specialize (H st' eq_refl 2 ltac:(set_solver)).
  vm_compute in E. injection E as <-. vm_compute in H. discriminate.
Qed.

(** C4.  Specified: destroying a signal unlinks and clears every remaining
    connection, so that a connection that outlives its signal is unlinked
    and its callback is cleared.  The code, on the signal 0 with the
    connections 1, 2, 3, no emission under way: the destructor of signals.h
    leaves the three connections unlinked with an empty callback.  The
    destructor of the alternate version only marks the tokens; the
    connections are unlinked when the list member is destroyed, which knows
    nothing of callbacks, so the three connections are unlinked and each
    still holds its callable.  [disconnect()] of the same alternate version
    does empty the callback of connection 2. *)
Theorem alternate_signal_destructor_leaves_callbacks_stored :
  (∃ st', signals.signal_dtor 10 0
            (State (nodes scenario.linked3) (conns scenario.linked3) ∅
                   (sigs scenario.linked3)) = Ret st' ∧
          sigs st' !! 0 = None ∧
          Forall (λ c, is_linked c (nodes st') = Some false ∧
                       slot <$> conns st' !! c = Some None) [1; 2; 3]) ∧
  (∃ st', alt.signal_dtor 10 0
            (State (nodes scenario.linked3) (conns scenario.linked3) ∅
                   (sigs scenario.linked3)) = Ret st' ∧
          sigs st' !! 0 = None ∧
          Forall (λ c, is_linked c (nodes st') = Some false ∧
                       slot <$> conns st' !! c = Some (Some c)) [1; 2; 3]) ∧
  (∃ st', alt.disconnect 10 2
            (State (nodes scenario.linked3) (conns scenario.linked3) ∅
                   (sigs scenario.linked3)) = Ret st' ∧
          is_linked 2 (nodes st') = Some false ∧
          slot <$> conns st' !! 2 = Some None).
Proof.
  split_and!.
  - eexists. split; [vm_compute; reflexivity|]. split; [done|].
    repeat constructor.
  - eexists. split; [vm_compute; reflexivity|]. split; [done|].
    repeat constructor.
  - eexists. split; [vm_compute; reflexivity|]. by split.
Qed.

Section move.
Context {X : Type}.
Implicit Type st : state (iteration_token X).

Lemma safe_move_linked fuel st sg l1 o l2 this so sc top tl :
  dll (nodes st) sg (l1 ++ o :: l2) →
  is_Some (nodes st !! this) → this ∉ sg :: l1 ++ o :: l2 →
  conns st !! o = Some (Connection (ptr sg) so) →
  conns st !! this = Some (Connection (ptr sg) sc) →
  sigs st !! sg = Some top →
  token_chain (toks st) top tl → length tl ≤ fuel →
  ∃ h' tks',
    safe_move fuel this o st = Ret (State h' (conns st) tks' (sigs st)) ∧
    dll h' sg (l1 ++ this :: l2) ∧
    load_next h' o = Some o ∧ load_prev h' o = Some o ∧
    (∀ a, a ∉ this :: sg :: l1 ++ o :: l2 → h' !! a = nodes st !! a) ∧
    (∀ t, tks' !! t = if decide (t ∈ tl) then repoint this o <$> toks st !! t
                      else toks st !! t).
Proof.
  intros Hd Ha Hfresh Ho Hc Hs Htc Hlen.
  assert (o ≠ sg) as Hne.
  { destruct Hd as [Hnd _]. apply NoDup_cons in Hnd as [Hnd _]. set_solver. }
  destruct (dll_insert (nodes st) sg l1 (o :: l2) this Hd Hfresh Ha)
    as (h1 & Hins & Hi & Hd1).
  replace (l1 ++ this :: o :: l2) with ((l1 ++ [this]) ++ o :: l2) in Hd1
    by (by rewrite <-app_assoc).
  destruct (dll_unlink _ _ _ _ _ Hd1) as (h2 & Hu & Hr & Hd2).
  rewrite <-app_assoc in Hd2.
  destruct (for_tokens_map fuel
              (λ tok : iteration_token X,
                 if negb (current tok =? sg) && (current tok =? o)
                 then Some (set_current this tok) else Some tok)
              (repoint this o) top (toks st) tl) as (tks' & Hft & Hl); [done|done| | |].
  { intros tok. unfold repoint. destruct (decide (current tok = o)) as [->|Hn].
    - rewrite Nat.eqb_refl. apply Nat.eqb_neq in Hne. by rewrite Hne.
    - apply Nat.eqb_neq in Hn. rewrite Hn. by rewrite andb_false_r. }
  { intros tok. unfold repoint. by case_decide. }
  exists h2, tks'. unfold safe_move.
  rewrite (dll_is_linked _ _ _ o Hd) by set_solver. simpl.
  rewrite Ho, Hc. simpl in *. rewrite Hins. simpl. rewrite Hu. simpl.
  rewrite Hs. simpl. unfold list.end_. rewrite Hft. simpl.
  split; [done|]. split; [done|].
  destruct (removed_self _ _ _ _ _ Hr) as [Hon Hop].
  split; [done|]. split; [done|]. split; [|done].
  intros a Hnot.
  rewrite (removed_frame _ _ _ _ _ a Hr).
  - destruct Hi as [Hin Hip]. apply lookup_loads; [rewrite Hin|rewrite Hip];
      repeat case_decide; simplify_eq; try done.
    + set_solver.
    + pose proof (last_in l1 sg). set_solver.
    + set_solver.
    + simpl in *. set_solver.
  - set_solver.
  - rewrite last_last. set_solver.
  - pose proof (hd_in l2 sg). set_solver.
Qed.

(** Move construction from a linked connection. *)
Lemma move_construct_linked fuel st sg l1 o l2 this so top tl :
  dll (nodes st) sg (l1 ++ o :: l2) →
  nodes st !! this = None → conns st !! this = None →
  conns st !! o = Some (Connection (ptr sg) so) →
  sigs st !! sg = Some top →
  token_chain (toks st) top tl → length tl ≤ fuel →
  ∃ h' tks',
    connection_move_ctor fuel this o st =
      Ret (State h' (<[this := Connection (ptr sg) so]> (conns st)) tks' (sigs st)) ∧
    dll h' sg (l1 ++ this :: l2) ∧
    is_linked o h' = Some false ∧
    (∀ t, tks' !! t = if decide (t ∈ tl) then repoint this o <$> toks st !! t
                      else toks st !! t).
Proof.
  intros Hd Hn Hc Ho Hs Htc Hlen.
  pose proof (dll_fresh _ _ _ _ Hd Hn) as Hfresh.
  assert (this ≠ o) as Hne by set_solver.
  unfold connection_move_ctor. rewrite Hn, Hc, Ho. simpl.
  destruct (safe_move_linked fuel
              (State (list_element_ctor this (nodes st))
                     (<[this := Connection (ptr sg) so]> (conns st)) (toks st) (sigs st))
              sg l1 o l2 this so so top tl)
    as (h' & tks' & -> & Hd' & Hon & Hop & _ & Hl); simpl; try done.
  - eapply dll_frame; [done|]. intros a Ha. unfold list_element_ctor.
    rewrite lookup_insert_ne; [done|]. intros ->. done.
  - unfold list_element_ctor. rewrite lookup_insert_eq. eauto.
  - by rewrite lookup_insert_ne.
  - by rewrite lookup_insert_eq.
  - exists h', tks'. split; [done|]. split; [done|]. split; [|done].
    by apply unlinked_is_linked.
Qed.

(** Moving from an unlinked connection. *)
Lemma move_construct_unlinked fuel st o this x :
  load_next (nodes st) o = Some o → load_prev (nodes st) o = Some o →
  nodes st !! this = None → conns st !! this = None →
  conns st !! o = Some x →
  ∃ st', connection_move_ctor fuel this o st = Ret st' ∧
         is_linked this (nodes st') = Some false ∧
         is_linked o (nodes st') = Some false.
Proof.
  intros Hon Hop Hn Hc Ho.
  assert (this ≠ o) as Hne.
  { intros ->. unfold load_next in Hon. by rewrite Hn in Hon. }
  unfold connection_move_ctor, safe_move. rewrite Hn, Hc, Ho. simpl.
  assert (is_linked o (list_element_ctor this (nodes st)) = Some false) as Hl.
  { apply unlinked_is_linked; unfold list_element_ctor; heap_solve. }
  rewrite Hl. simpl. eexists. split; [done|]. simpl. split; [|done].
  apply unlinked_is_linked; unfold list_element_ctor; heap_solve.
Qed.
End move.

Section move_assign.
Implicit Type st : state (iteration_token (option nat)).

(** Move assignment to an unlinked connection from a linked one. *)
Lemma move_assign_linked fuel st sg l1 o l2 this so x top tl :
  dll (nodes st) sg (l1 ++ o :: l2) →
  load_next (nodes st) this = Some this → load_prev (nodes st) this = Some this →
  conns st !! this = Some x →
  conns st !! o = Some (Connection (ptr sg) so) →
  sigs st !! sg = Some top →
  token_chain (toks st) top tl → length tl ≤ fuel →
  ∃ h' tks',
    connection_move_assign signals.disconnect fuel this o st =
      Ret (State h' (<[o := Connection (ptr sg) None]>
                       (<[this := Connection (ptr sg) so]> (conns st)))
                 tks' (sigs st)) ∧
    dll h' sg (l1 ++ this :: l2) ∧
    is_linked o h' = Some false ∧
    (∀ t, tks' !! t = if decide (t ∈ tl) then repoint this o <$> toks st !! t
                      else toks st !! t).
Proof.
  intros Hd Hn Hp Hc Ho Hs Htc Hlen.
  assert (this ∉ sg :: l1 ++ o :: l2) as Hfresh.
  { intros Hin. apply elem_of_cons in Hin as [->|Hin].
    - pose proof (dll_begin _ _ _ Hd) as Hb. rewrite Hn in Hb. injection Hb as Hb.
      assert (hd sg (l1 ++ o :: l2) ∈ l1 ++ o :: l2) as Hh
        by (destruct l1; simpl; set_solver).
      destruct Hd as [Hnd _]. apply NoDup_cons in Hnd as [Hnd _].
      rewrite <-Hb in Hh. done.
    - pose proof (dll_is_linked _ _ _ _ Hd Hin) as Hl.
      rewrite (unlinked_is_linked _ _ Hn Hp) in Hl. done. }
  assert (this ≠ o) as Hne by set_solver.
  unfold connection_move_assign. apply Nat.eqb_neq in Hne as Hne'. rewrite Hne'.
  rewrite signals_disconnect_unlinked by done. simpl. rewrite Hc, Ho. simpl.
  destruct (safe_move_linked fuel
              (with_conns (<[o := Connection (ptr sg) None]>
                             (<[this := Connection (ptr sg) so]> (conns st))) st)
              sg l1 o l2 this None so top tl)
    as (h' & tks' & -> & Hd' & Hon & Hop & _ & Hl); simpl; try done.
  - by eapply load_next_alloc.
  - by rewrite lookup_insert_eq.
  - rewrite lookup_insert_ne by done. by rewrite lookup_insert_eq.
  - exists h', tks'. split; [done|]. split; [done|]. split; [|done].
    by apply unlinked_is_linked.
Qed.
End move_assign.

(** C6.  Specified: moving a linked connection puts the destination at the
    place of the source, and leaves the source unlinked and empty.  The
    code: move construction initialises the callback of the destination from
    [other.slot], which is a copy: moving connection 2 of the list 1, 2, 3
    into a new connection 5 gives the list 1, 5, 3 and leaves 2 unlinked,
    yet connection 2 still holds callable 2.  Move assignment, with
    [std::move(other.slot)], gives the same list and leaves the callback of
    connection 2 empty. *)
Theorem move_construction_leaves_callback_in_source :
  ∃ st',
    connection_move_ctor 5 5 2 scenario.linked3 = Ret st' ∧
    dll (nodes st') 0 [1; 5; 3] ∧
    is_linked 2 (nodes st') = Some false ∧
    conns st' !! 5 = Some (Connection (ptr 0) (Some 2)) ∧
    conns st' !! 2 = Some (Connection (ptr 0) (Some 2)) ∧
    ∃ st'',
      (st1 ← lift (connection_default_ctor 5 scenario.linked3);
       connection_move_assign signals.disconnect 5 5 2 st1) = Ret st'' ∧
      dll (nodes st'') 0 [1; 5; 3] ∧
      conns st'' !! 5 = Some (Connection (ptr 0) (Some 2)) ∧
      conns st'' !! 2 = Some (Connection (ptr 0) None).
Proof.
  eexists. split; [vm_compute; reflexivity|].
  split; [split; [repeat (apply NoDup_cons_2; [set_solver|]); apply NoDup_nil_2|];
          vm_compute; repeat split|].
  split; [vm_compute; reflexivity|]. split; [vm_compute; reflexivity|].
  split; [vm_compute; reflexivity|].
  eexists. split; [vm_compute; reflexivity|].
  split; [split; [repeat (apply NoDup_cons_2; [set_solver|]); apply NoDup_nil_2|];
          vm_compute; repeat split|].
  split; vm_compute; reflexivity.
Qed.

Section traversal.
Implicit Type h : gmap nat list_element.
Local Arguments forward : simpl never.
Local Arguments backward : simpl never.

Lemma forward_chain h f a l :
  chain h a l f → NoDup (l ++ [f]) →
  forward (S (length l)) h f (hd f l) = Some l.
Proof.
  revert a. induction l as [|x l IH]; intros a Hc Hnd.
  - unfold forward. simpl. by rewrite Nat.eqb_refl.
  - destruct Hc as [_ Hc]. apply NoDup_cons in Hnd as [Hx Hnd].
    change (forward (S (length (x :: l))) h f (hd f (x :: l))) with
      (if x =? f then Some []
       else n ← load_next h x; l' ← forward (S (length l)) h f n; Some (x :: l')).
    assert (x ≠ f) as Hne by set_solver. apply Nat.eqb_neq in Hne. rewrite Hne.
    rewrite (chain_first _ _ _ _ Hc). simpl.
    by rewrite (IH x Hc Hnd).
Qed.

Lemma backward_chain h f l z :
  chain h f l z → NoDup (f :: l) →
  backward (S (length l)) h f (List.last l f) = Some (rev l).
Proof.
  revert z. induction l as [|x l IH] using rev_ind; intros z Hc Hnd.
  - unfold backward. simpl. by rewrite Nat.eqb_refl.
  - apply chain_app in Hc as [Hc1 Hc2].
    rewrite last_last, rev_unit, length_app. simpl.
    rewrite Nat.add_1_r.
    change (backward (S (S (length l))) h f x) with
      (if x =? f then Some []
       else p ← load_prev h x; l' ← backward (S (length l)) h f p; Some (x :: l')).
    assert (x ≠ f) as Hne.
    { apply NoDup_cons in Hnd as [Hf _]. set_solver. }
    apply Nat.eqb_neq in Hne. rewrite Hne.
    rewrite (chain_last _ _ _ _ Hc1). simpl.
    rewrite (IH x Hc1); [done|].
    rewrite app_comm_cons in Hnd. by apply NoDup_app in Hnd as [? _].
Qed.

(** Both traversals of a well-formed list, and the local form of the
    invariant. *)
Lemma dll_traversals h f xs :
  dll h f xs →
  traverse_forward (S (length xs)) f h = Some xs ∧
  traverse_backward (S (length xs)) f h = Some (rev xs) ∧
  (∀ x, x ∈ f :: xs →
     ∃ n p, load_next h x = Some n ∧ load_prev h x = Some p ∧
            load_prev h n = Some x ∧ load_next h p = Some x) ∧
  (list.empty f h = Some true ↔ list.begin f h = Some (list.end_ f)) ∧
  (list.empty f h = Some true ↔ xs = []).
Proof.
  intros Hd. pose proof Hd as [Hnd Hc]. split; [|split; [|split; [|split]]].
  - unfold traverse_forward, list.begin. rewrite (dll_begin _ _ _ Hd). simpl.
    apply (forward_chain h f f); [done|]. by apply NoDup_rotate.
  - unfold traverse_backward, list.back. rewrite (dll_back _ _ _ Hd). simpl.
    by apply (backward_chain h f xs f).
  - intros x [->|Hx]%elem_of_cons.
    + exists (hd f xs), (List.last xs f).
      split; [by apply dll_begin|]. split; [by apply dll_back|].
      split; [by apply (chain_first_prev h f xs f)|by apply (chain_last_next h f xs f)].
    + apply list_elem_of_split in Hx as (l1 & l2 & ->).
      destruct (dll_neighbours _ _ _ _ _ Hd) as [Hp Hn].
      exists (hd f l2), (List.last l1 f). split; [done|]. split; [done|].
      apply chain_app in Hc as [Hc1 Hc2].
      split; [by apply (chain_first_prev h x l2 f)|by apply (chain_last_next h f l1 x)].
  - unfold list.empty, list.begin, list.end_. rewrite (dll_begin _ _ _ Hd). simpl.
    split; intros [= E]; f_equal; [by apply Nat.eqb_eq|by apply Nat.eqb_eq].
  - rewrite (dll_empty _ _ _ Hd). destruct xs; naive_solver.
Qed.
End traversal.

Section list_operations.
Implicit Type h : gmap nat list_element.

Lemma loads_dom h h' :
  (∀ a, is_Some (load_next h' a) ↔ is_Some (load_next h a)) → dom h' = dom h.
Proof.
  intros H. apply set_eq. intros a. rewrite !elem_of_dom.
  assert (∀ h0 : gmap nat list_element, is_Some (h0 !! a) ↔ is_Some (load_next h0 a)) as E.
  { intros h0. unfold load_next. destruct (h0 !! a); simpl; split; intros [? ?]; eauto; done. }
  by rewrite !E.
Qed.

Lemma inserted_dom h h' x p n :
  inserted h h' x p n → is_Some (h !! x) → is_Some (h !! p) → dom h' = dom h.
Proof.
  intros [Hn _] (?&?&Hx&_)%alloc_loads (?&?&Hp&_)%alloc_loads. apply loads_dom. intros a.
  rewrite Hn. repeat case_decide; simplify_eq; rewrite ?Hx, ?Hp; split; eauto.
Qed.

Lemma removed_dom h h' x p n :
  removed h h' x p n → is_Some (h !! x) → is_Some (h !! p) → dom h' = dom h.
Proof.
  intros [Hn _] (?&?&Hx&_)%alloc_loads (?&?&Hp&_)%alloc_loads. apply loads_dom. intros a.
  rewrite Hn. repeat case_decide; simplify_eq; rewrite ?Hx, ?Hp; split; eauto.
Qed.

Lemma dll_non_const_transform h f xs x :
  dll h f xs → x ∈ f :: xs → list.non_const_transform x h = Some x.
Proof.
  intros Hd Hx. destruct (dll_traversals _ _ _ Hd) as (_ & _ & Hloc & _).
  destruct (Hloc x Hx) as (n & p & Hn & Hp & Hnp & Hpn).
  unfold list.non_const_transform. rewrite Hp. simpl. done.
Qed.

Lemma insert_before_member pos x l1 l2 :
  pos ∉ l1 → insert_before pos x (l1 ++ pos :: l2) = l1 ++ x :: pos :: l2.
Proof.
  induction l1 as [|y l1 IH]; intros Hn; simpl.
  - by rewrite decide_True.
  - rewrite decide_False by set_solver. f_equal. apply IH. set_solver.
Qed.
Lemma insert_before_end pos x l : pos ∉ l → insert_before pos x l = l ++ [x].
Proof.
  induction l as [|y l IH]; intros Hn; simpl; [done|].
  rewrite decide_False by set_solver. f_equal. apply IH. set_solver.
Qed.
Lemma remove_member_split pos l1 l2 :
  pos ∉ l1 → remove_member pos (l1 ++ pos :: l2) = l1 ++ l2.
Proof.
  induction l1 as [|y l1 IH]; intros Hn; simpl.
  - by rewrite decide_True.
  - rewrite decide_False by set_solver. f_equal. apply IH. set_solver.
Qed.

Lemma dll_split_NoDup h f l1 x l2 : dll h f (l1 ++ x :: l2) → (x ∉ l1) ∧ (x ≠ f).
Proof.
  intros [Hnd _]. apply NoDup_cons in Hnd as [Hf Hnd].
  apply NoDup_app in Hnd as (_ & Hnd & _). split; [|set_solver].
  intros Hin. apply (Hnd x Hin). set_solver.
Qed.


Lemma splice_spliced h pos first last P F L :
  load_prev h pos = Some P → load_next h P = Some pos →
  load_prev h first = Some F → load_next h F = Some first →
  load_prev h last = Some L → load_next h L = Some last →
  pos ≠ first → pos ≠ last → first ≠ last →
  ∃ h', list.splice pos first last h = Some h' ∧ spliced h h' pos first last P F L.
Proof.
  intros HP HPn HF HFn HL HLn H1 H2 H3.
  assert (P ≠ F) by congruence. assert (P ≠ L) by congruence. assert (F ≠ L) by congruence.
  destruct (alloc_loads h pos) as (posn & ? & Hposn & ?); [by eapply load_prev_alloc|].
  destruct (alloc_loads h first) as (firstn & ? & Hfirstn & ?); [by eapply load_prev_alloc|].
  destruct (alloc_loads h last) as (lastn & ? & Hlastn & ?); [by eapply load_prev_alloc|].
  destruct (alloc_loads h P) as (? & Pp & ? & HPp); [by eapply load_next_alloc|].
  destruct (alloc_loads h F) as (? & Fp & ? & HFp); [by eapply load_next_alloc|].
  destruct (alloc_loads h L) as (? & Lp & ? & HLp); [by eapply load_next_alloc|].
  simplify_eq.
  unfold list.splice, list.non_const_transform, spliced.
  apply Nat.eqb_neq in H3 as H3'. rewrite H3'.
  eexists. split; [heap_solve|].
  split; intros a; heap_solve.
Qed.

Lemma spliced_dom h h' pos first last P F L :
  spliced h h' pos first last P F L →
  is_Some (h !! L) → is_Some (h !! F) → is_Some (h !! P) → dom h' = dom h.
Proof.
  intros [Hn _] (? & ? & HL & _)%alloc_loads (? & ? & HF & _)%alloc_loads
    (? & ? & HP & _)%alloc_loads.
  apply loads_dom. intros a. rewrite Hn.
  repeat case_decide; simplify_eq; by rewrite ?HL, ?HF, ?HP.
Qed.

(** A chain whose last link is redirected to [z']. *)
Lemma chain_retarget h h' l : ∀ a z z',
  chain h a l z →
  (∀ s, s ∈ a :: l → s ≠ List.last l a → load_next h' s = load_next h s) →
  (∀ t, t ∈ l → load_prev h' t = load_prev h t) →
  load_next h' (List.last l a) = Some z' → load_prev h' z' = Some (List.last l a) →
  NoDup (a :: l) →
  chain h' a l z'.
Proof.
  induction l as [|x l IH]; intros a z z' Hc Hn Hp Hl1 Hl2 Hnd.
  - done.
  - destruct Hc as [[Ha Hx] Hc]. rewrite last_cons in Hl1, Hl2.
    apply NoDup_cons in Hnd as [Hal Hnd].
    split.
    + split.
      * rewrite Hn; [done|set_solver|]. rewrite last_cons.
        pose proof (last_in l x). set_solver.
      * rewrite Hp; [done|set_solver].
    + eapply IH; try done.
      * intros s Hs Hne. apply Hn; [set_solver|]. by rewrite last_cons.
      * intros t Ht. apply Hp. set_solver.
Qed.

(** [splice] on the circle read from [first]: the range [first :: R] moves
    in front of [pos]. *)
Lemma splice_cycle h first R last M1 pos M2 :
  NoDup (first :: R ++ last :: M1 ++ pos :: M2) →
  chain h first (R ++ last :: M1 ++ pos :: M2) first →
  ∃ h', list.splice pos first last h = Some h' ∧
        chain h' first (R ++ pos :: M2 ++ last :: M1) first ∧ dom h' = dom h.
Proof.
  intros Hnd Hc.
  pose proof Hc as Hc0.
  apply chain_app in Hc as [HcR Hc]. apply chain_app in Hc as [Hc1 Hc2].
  set (L := List.last R first). set (P := List.last M1 last). set (F := List.last M2 pos).
  pose proof (last_in R first) as HLin. pose proof (last_in M1 last) as HPin.
  pose proof (last_in M2 pos) as HFin. fold L in HLin. fold P in HPin. fold F in HFin.
  change (first :: R ++ last :: M1 ++ pos :: M2)
    with ((first :: R) ++ (last :: M1) ++ (pos :: M2)) in Hnd.
  apply NoDup_app in Hnd as (HndR & HdR & Hnd).
  apply NoDup_app in Hnd as (Hnd1 & Hd1 & Hnd2).
  assert (∀ x, x ∈ first :: R → x ∉ last :: M1) as HdR1.
  { intros x Hx Hx'. apply (HdR x Hx). set_solver. }
  assert (∀ x, x ∈ first :: R → x ∉ pos :: M2) as HdR2.
  { intros x Hx Hx'. apply (HdR x Hx). set_solver. }
  destruct (splice_spliced h pos first last P F L) as (h' & Hs & Hn & Hp).
  - apply (chain_last _ _ _ _ Hc1).
  - apply (chain_last_next _ _ _ _ Hc1).
  - apply (chain_last _ _ _ _ Hc2).
  - apply (chain_last_next _ _ _ _ Hc2).
  - apply (chain_last _ _ _ _ HcR).
  - apply (chain_last_next _ _ _ _ HcR).
  - intros ->. apply (HdR2 first); set_solver.
  - intros ->. apply (Hd1 last); set_solver.
  - intros ->. apply (HdR1 last); set_solver.
  - assert (first ≠ last) by (intros ->; apply (HdR1 last); set_solver).
    assert (first ≠ pos) by (intros ->; apply (HdR2 pos); set_solver).
    assert (last ≠ pos) by (intros ->; apply (Hd1 pos); set_solver).
    assert (L ≠ F) by (intros E; apply (HdR2 L); [done|by rewrite E]).
    assert (L ≠ P) by (intros E; apply (HdR1 L); [done|by rewrite E]).
    assert (P ≠ F) by (intros E; apply (Hd1 P); [done|by rewrite E]).
    exists h'. split; [done|]. split.
    + apply chain_app. split; [|apply chain_app; split].
      * eapply chain_retarget; [exact HcR|..]; try done; try fold L; try fold F; try fold P.
        -- intros s Hs' Hne. rewrite Hn. rewrite decide_False by done.
           rewrite decide_False by (intros ->; by apply (HdR2 F)).
           rewrite decide_False by (intros ->; by apply (HdR1 P)). done.
        -- intros t Ht. rewrite Hp.
           rewrite decide_False by (intros ->; apply (HdR1 last); set_solver).
           rewrite decide_False by (intros ->; apply (HdR2 pos); set_solver).
           rewrite decide_False; [done|]. intros ->.
           apply NoDup_cons in HndR as [? _]. done.
        -- rewrite Hn. by rewrite decide_True.
        -- rewrite Hp. rewrite decide_False by done. by rewrite decide_True.
      * eapply chain_retarget; [exact Hc2|..]; try done; try fold L; try fold F; try fold P.
        -- intros s Hs' Hne. rewrite Hn.
           rewrite decide_False by (intros ->; by apply (HdR2 L)).
           rewrite decide_False by done.
           rewrite decide_False by (intros ->; by apply (Hd1 P)). done.
        -- intros t Ht. rewrite Hp.
           rewrite decide_False by (intros ->; apply (Hd1 last); set_solver).
           rewrite decide_False
             by (intros ->; apply NoDup_cons in Hnd2 as [? _]; done).
           rewrite decide_False; [done|]. intros ->. apply (HdR2 first); set_solver.
        -- rewrite Hn. rewrite decide_False by done. by rewrite decide_True.
        -- rewrite Hp. by rewrite decide_True.
      * eapply chain_retarget; [exact Hc1|..]; try done; try fold L; try fold F; try fold P.
        -- intros s Hs' Hne. rewrite Hn.
           rewrite decide_False by (intros ->; by apply (HdR1 L)).
           rewrite decide_False by (intros ->; by apply (Hd1 F)).
           rewrite decide_False by done. done.
        -- intros t Ht. rewrite Hp.
           rewrite decide_False
             by (intros ->; apply NoDup_cons in Hnd1 as [? _]; done).
           rewrite decide_False by (intros ->; apply (Hd1 pos); set_solver).
           rewrite decide_False; [done|]. intros ->. apply (HdR1 first); set_solver.
        -- rewrite Hn. rewrite decide_False by done. rewrite decide_False by done.
           by rewrite decide_True.
        -- rewrite Hp. rewrite decide_False by done. rewrite decide_False by done.
           by rewrite decide_True.
    + eapply spliced_dom; [by split|..]; eapply (chain_alloc _ _ _ _ _ Hc0).
      * clear -HLin. set_solver.
      * clear -HFin. set_solver.
      * clear -HPin. set_solver.
Qed.

Lemma split_at_Some a l : ∀ l1 l2,
  split_at a l = Some (l1, l2) → l = l1 ++ a :: l2 ∧ a ∉ l1.
Proof.
  induction l as [|y l IH]; intros l1 l2 H; simpl in H; [done|].
  case_decide.
  - simplify_eq. split; [done|set_solver].
  - destruct (split_at a l) as [[k1 k2]|]; [|done]. simplify_eq.
    destruct (IH _ _ eq_refl) as [-> ?]. split; [done|set_solver].
Qed.

(** A circle may be read from any of its nodes. *)
Lemma rotate_to_cycle h a0 l a c :
  NoDup (a0 :: l) → chain h a0 l a0 → rotate_to a (a0 :: l) = Some c →
  ∃ l', c = a :: l' ∧ NoDup (a :: l') ∧ chain h a l' a.
Proof.
  intros Hnd Hc Hr. unfold rotate_to in Hr.
  destruct (split_at a (a0 :: l)) as [[l1 l2]|] eqn:E; [|done]. simplify_eq.
  apply split_at_Some in E as [E _]. exists (l2 ++ l1). split; [done|].
  destruct l1 as [|b l1]; simpl in E; simplify_eq.
  - by rewrite app_nil_r.
  - apply chain_app in Hc as [Hc1 Hc2]. split.
    + rewrite app_comm_cons. by rewrite (Permutation_app_comm (a :: l2) (b :: l1)).
    + apply chain_app. by split.
Qed.

(** One operation, used as intended, acts on the heap as on the sequence. *)
Lemma run_op_model live f op h xs xs' :
  dll h f xs → dom h = live →
  model_op live f op xs = Some xs' →
  ∃ h', run_op f op h = Some h' ∧ dll h' f xs' ∧ dom h' = live.
Proof.
  intros Hd Hdom Hm. subst live.
  destruct op as [x|x| | |pos x|pos|pos first last]; simpl in *.
  - case_decide as Hc; [|done]. destruct Hc as [Hl Hx]. simplify_eq.
    apply elem_of_dom in Hl.
    destruct (dll_push_front h f xs x Hd Hx Hl) as (h' & -> & Hi & Hd').
    exists h'. split; [done|]. split; [done|].
    eapply inserted_dom; [done|done|]. eapply dll_alloc; [done|set_solver].
  - case_decide as Hc; [|done]. destruct Hc as [Hl Hx]. simplify_eq.
    apply elem_of_dom in Hl.
    destruct (dll_push_back h f xs x Hd Hx Hl) as (h' & -> & Hi & Hd').
    exists h'. split; [done|]. split; [done|].
    eapply inserted_dom; [done|done|]. eapply dll_alloc; [done|apply last_in].
  - destruct xs as [|y xs]; [done|]. simplify_eq.
    unfold list.pop_front. rewrite (dll_begin _ _ _ Hd). simpl.
    destruct (dll_unlink h f [] y xs' Hd) as (h' & -> & Hr & Hd').
    exists h'. split; [done|]. split; [done|].
    eapply removed_dom; [done|..]; eapply dll_alloc; try done; set_solver.
  - destruct xs as [|y xs _] using rev_ind; [done|].
    assert (xs' = xs) as ->.
    { destruct (xs ++ [y]) eqn:E; [by destruct xs|]. rewrite <-E in Hm.
      rewrite removelast_last in Hm. by simplify_eq. }
    unfold list.pop_back. rewrite (dll_back _ _ _ Hd), last_last. simpl.
    destruct (dll_unlink h f xs y [] Hd) as (h' & -> & Hr & Hd').
    rewrite app_nil_r in Hd'.
    exists h'. split; [done|]. split; [done|].
    eapply removed_dom; [done|..]; eapply dll_alloc; try done; [set_solver|].
    pose proof (last_in xs f). set_solver.
  - case_decide as Hc; [|done]. destruct Hc as (Hl & Hx & Hpos). simplify_eq.
    apply elem_of_dom in Hl.
    apply elem_of_cons in Hpos as [->|Hpos].
    + assert (f ∉ xs) as Hf. { destruct Hd as [Hnd _]. by apply NoDup_cons in Hnd as []. }
      rewrite insert_before_end by done.
      destruct (dll_insert h f xs [] x) as (h' & Hins & Hi & Hd');
        rewrite ?app_nil_r; try done.
      simpl in Hins. rewrite Hins. simpl. exists h'. split; [done|]. split; [done|].
      eapply inserted_dom; [done|done|]. eapply dll_alloc; [done|apply last_in].
    + apply list_elem_of_split in Hpos as (l1 & l2 & ->).
      destruct (dll_split_NoDup _ _ _ _ _ Hd) as [Hp1 Hpf].
      rewrite insert_before_member by done.
      destruct (dll_insert h f l1 (pos :: l2) x) as (h' & Hins & Hi & Hd'); try done.
      simpl in Hins. rewrite Hins. simpl. exists h'. split; [done|]. split; [done|].
      eapply inserted_dom; [done|done|]. eapply dll_alloc; [done|].
      pose proof (last_in l1 f). set_solver.
  - case_decide as Hpos; [|done]. simplify_eq.
    apply list_elem_of_split in Hpos as (l1 & l2 & ->).
    destruct (dll_split_NoDup _ _ _ _ _ Hd) as [Hp1 Hpf].
    rewrite remove_member_split by done.
    unfold list.erase. rewrite (dll_non_const_transform h f _ pos Hd) by set_solver.
    simpl. destruct (dll_neighbours _ _ _ _ _ Hd) as [Hp Hn]. rewrite Hn. simpl.
    destruct Hd as [Hnd Hc]. pose proof Hc as Hc'. apply chain_app in Hc' as [_ Hc2].
    rewrite (chain_first_prev _ _ _ _ Hc2). simpl.
    destruct (dll_unlink h f l1 pos l2 (conj Hnd Hc)) as (h' & -> & Hr & Hd').
    simpl. exists h'. split; [done|]. split; [done|].
    eapply removed_dom; [done|..]; eapply (dll_alloc h f); try done; [set_solver|].
    pose proof (last_in l1 f). set_solver.
  - unfold model_splice in Hm. case_decide as Hfl.
    { simplify_eq. unfold list.splice. rewrite Nat.eqb_refl. eauto. }
    destruct Hd as [Hnd Hc].
    destruct (rotate_to first (f :: xs)) as [c|] eqn:Ec; [|done]. simpl in Hm.
    destruct (rotate_to_cycle _ _ _ _ _ Hnd Hc Ec) as (l' & -> & Hnd' & Hc').
    destruct (split_at last (first :: l')) as [[R M]|] eqn:ER; [|done]. simpl in Hm.
    case_decide as HfR; [done|].
    destruct (split_at pos M) as [[M1 M2]|] eqn:EM; [|done]. simpl in Hm.
    apply split_at_Some in ER as [ER _]. apply split_at_Some in EM as [-> _].
    destruct R as [|r R]; simpl in ER; simplify_eq.
    destruct (splice_cycle h r R last M1 pos M2 Hnd' Hc') as (h' & -> & Hc2 & Hdom).
    rewrite <-app_comm_cons in Hm.
    destruct (rotate_to f (r :: R ++ pos :: M2 ++ last :: M1)) as [c|] eqn:Ec2; [|done].
    simpl in Hm. simplify_eq.
    assert (NoDup (r :: R ++ pos :: M2 ++ last :: M1)) as Hnd2.
    { change (pos :: M2 ++ last :: M1) with ((pos :: M2) ++ (last :: M1)).
      by rewrite (Permutation_app_comm (pos :: M2) (last :: M1)). }
    destruct (rotate_to_cycle _ _ _ _ _ Hnd2 Hc2 Ec2) as (l2 & -> & Hnd3 & Hc3).
    exists h'. split; [done|]. split; [|done]. by split.
Qed.

Lemma run_ops_model live f ops :
  ∀ h xs xs', dll h f xs → dom h = live →
    model_ops live f ops xs = Some xs' →
    ∃ h', run_ops f ops h = Some h' ∧ dll h' f xs' ∧ dom h' = live.
Proof.
  induction ops as [|op ops IH]; intros h xs xs' Hd Hdom Hm; simpl in *.
  - simplify_eq. eauto.
  - destruct (model_op live f op xs) as [xs1|] eqn:E; [|done]. simpl in Hm.
    destruct (run_op_model live f op h xs xs1 Hd Hdom E) as (h1 & -> & Hd1 & Hdom1).
    simpl. by eapply IH.
Qed.

(** Every sequence of operations used as intended leaves a list that both
    traversals read the same way, with [next] and [prev] inverse to each
    other on its nodes, and on which [empty()] and [begin() == end()]
    agree. *)
Lemma intended_operations_keep_the_chain live f ops h xs xs' :
  dll h f xs → dom h = live →
  model_ops live f ops xs = Some xs' →
  ∃ h', run_ops f ops h = Some h' ∧
        traverse_forward (S (length xs')) f h' = Some xs' ∧
        traverse_backward (S (length xs')) f h' = Some (rev xs') ∧
        (∀ x, x ∈ f :: xs' →
           ∃ n p, load_next h' x = Some n ∧ load_prev h' x = Some p ∧
                  load_prev h' n = Some x ∧ load_next h' p = Some x) ∧
        (list.empty f h' = Some true ↔ list.begin f h' = Some (list.end_ f)).
Proof.
  intros Hd Hdom Hm.
  destruct (run_ops_model live f ops h xs xs' Hd Hdom Hm) as (h' & Hr & Hd' & _).
  destruct (dll_traversals h' f xs' Hd') as (Hf & Hb & Hinv & He & _).
  by exists h'.
Qed.
End list_operations.

(** C8.  Specified: after any sequence of push, pop, insert, erase and
    splice operations the circular chain stays consistent: forward traversal
    visits the linked nodes in order, reverse traversal the same nodes in
    reverse, [node.next.prev == node] for every linked node.  The code, on
    the list with sentinel 0 that holds 1, 2, 3: [splice(pos, l, first, last)]
    with [pos] equal to [last] should leave the list as it is, the range
    sitting in front of [last] already.  With the range made of node 1
    alone, node 1 drops out of both traversals while it still counts as
    linked, and its successor 2 does not point back at it; with the whole
    list as the range, the list reads as empty while its three nodes are
    still linked. *)
Theorem splice_in_front_of_last_breaks_the_chain :
  dll (nodes scenario.linked3) 0 [1; 2; 3] ∧
  (∃ h', run_ops 0 [Splice 2 1 2] (nodes scenario.linked3) = Some h' ∧
         traverse_forward 4 0 h' = Some [2; 3] ∧
         traverse_backward 4 0 h' = Some [3; 2] ∧
         is_linked 1 h' = Some true ∧
         load_next h' 1 = Some 2 ∧ load_prev h' 2 = Some 0) ∧
  (∃ h', run_ops 0 [Splice 0 1 0] (nodes scenario.linked3) = Some h' ∧
         list.empty 0 h' = Some true ∧
         traverse_forward 4 0 h' = Some [] ∧
         traverse_backward 4 0 h' = Some [] ∧
         is_linked 1 h' = Some true ∧ is_linked 2 h' = Some true ∧
         is_linked 3 h' = Some true).
Proof.
  split; [apply linked3_dll|]. split.
  - eexists. split; [vm_compute; reflexivity|]. by vm_compute.
  - eexists. split; [vm_compute; reflexivity|]. by vm_compute.
Qed.

(** Callable 2 throws exception 9. *)
Lemma throwing_callback_stops_emission_and_pops_token_witness :
  signals.emit (λ f _, match f with 2 => [ThrowException 9] | _ => [] end) 10 0 0 7
    (State (nodes scenario.linked3) (conns scenario.linked3) ∅ (sigs scenario.linked3), []) =
  Ret (Thrown (user_exception 9),
       (State (nodes scenario.linked3) (conns scenario.linked3) ∅ (sigs scenario.linked3),
        [(1, 7); (2, 7)])).
Proof.
  apply (throwing_callback_stops_emission_and_pops_token
           (λ f _, match f with 2 => [ThrowException 9] | _ => [] end)
           (nodes scenario.linked3) (conns scenario.linked3) (sigs scenario.linked3) ∅ ∅
           0 [1] 2 [3] [1] 2 9 (ptr 0) None 0 7 10 []).
  - exact linked3_dll.
  - reflexivity.
  - reflexivity.
  - reflexivity.
  - repeat constructor; eexists; reflexivity.
  - repeat constructor.
  - reflexivity.
  - reflexivity.
  - simpl. lia.
Defined.

(** The signal of the list 1, 2, 3 is destroyed outside any emission. *)
Lemma signal_destructor_unlinks_remaining_connections_witness :
  ∃ st', signals.signal_dtor 10 0
           (State (nodes scenario.linked3) (conns scenario.linked3) ∅
                  (sigs scenario.linked3)) = Ret st' ∧
         sigs st' !! 0 = None ∧ nodes st' !! 0 = None ∧
         ∀ c, c ∈ [1; 2; 3] →
           is_linked c (nodes st') = Some false ∧
           conns st' !! c = Some (Connection nullptr None) ∧
           (∀ k, signals.disconnect k c st' = Ret st') ∧
           (∀ k, connection_dtor signals.disconnect k c st' =
                 Ret (State (delete c (nodes st')) (delete c (conns st'))
                            (toks st') (sigs st'))).
Proof.
  apply (signal_destructor_unlinks_remaining_connections
           (nodes scenario.linked3) (conns scenario.linked3) (sigs scenario.linked3) ∅ ∅
           0 [1; 2; 3] None [] 10).
  - exact linked3_dll.
  - reflexivity.
  - reflexivity.
  - reflexivity.
  - repeat constructor; eexists; reflexivity.
  - simpl. lia.
Defined.

(** ** The two versions of the header agree *)

Section consistency.
Implicit Type h : gmap nat list_element.

Lemma is_linked_true h c :
  is_linked c h = Some true ↔
  ∃ n p, load_next h c = Some n ∧ load_prev h c = Some p ∧ (n ≠ c ∨ p ≠ c).
Proof.
  unfold is_linked. split.
  - destruct (load_next h c) as [n|]; [|done]. destruct (load_prev h c) as [p|]; [|done].
    simpl. intros [= E]. exists n, p. split; [done|]. split; [done|].
    apply orb_true_iff in E as [E|E]; apply negb_true_iff, Nat.eqb_neq in E; eauto.
  - intros (n & p & -> & -> & Hne). simpl. f_equal. apply orb_true_iff.
    destruct Hne as [Hne|Hne]; [left|right]; by apply negb_true_iff, Nat.eqb_neq.
Qed.

Ltac cons_tac Hc :=
  let E := fresh "E" in
  split; intros E; simplify_eq; try done; try congruence;
  try (apply Hc; congruence); try (apply Hc in E; congruence).

Lemma consistent_fresh h c :
  consistent h → h !! c = None → consistent (list_element_ctor c h).
Proof.
  intros Hc Hn x y. unfold list_element_ctor. autorewrite with heap. simpl.
  assert (∀ z, load_next h z ≠ Some c) as H1.
  { intros z E%Hc. apply load_prev_alloc in E as [? ?]. congruence. }
  assert (∀ z, load_prev h z ≠ Some c) as H2.
  { intros z E%Hc. apply load_next_alloc in E as [? ?]. congruence. }
  repeat case_decide; simplify_eq; try done; cons_tac Hc.
Qed.

Lemma consistent_removed h h' x p n :
  consistent h → load_next h x = Some n → load_prev h x = Some p →
  removed h h' x p n → consistent h'.
Proof.
  intros Hc Hn Hp [Hrn Hrp] a b. rewrite Hrn, Hrp.
  pose proof (proj1 (Hc x n) Hn) as Hnp. pose proof (proj2 (Hc p x) Hp) as Hpn.
  repeat case_decide; simplify_eq; try done; cons_tac Hc.
Qed.

Lemma is_linked_cases h c :
  is_linked c h = Some true ∨
  (load_next h c = Some c ∧ load_prev h c = Some c) ∨
  h !! c = None.
Proof.
  destruct (h !! c) as [[n p]|] eqn:E; [|eauto].
  destruct (decide (n = c)) as [->|]; [destruct (decide (p = c)) as [->|]|].
  - right. left. unfold load_next, load_prev. by rewrite E.
  - left. apply is_linked_true. exists c, p. unfold load_next, load_prev. rewrite E. eauto.
  - left. apply is_linked_true. exists n, p. unfold load_next, load_prev. rewrite E. eauto.
Qed.

Lemma linked_mono h h' c :
  (h !! c = None → h' !! c = None) →
  (load_next h c = Some c → load_prev h c = Some c →
   load_next h' c = Some c ∧ load_prev h' c = Some c) →
  is_linked c h' = Some true → is_linked c h = Some true.
Proof.
  intros Hd Hs Hl. destruct (is_linked_cases h c) as [?|[[Hn Hp]|Hnone]]; [done|..].
  - destruct (Hs Hn Hp) as [Hn' Hp'].
    by rewrite (unlinked_is_linked _ _ Hn' Hp') in Hl.
  - apply Hd in Hnone. unfold is_linked, load_next in Hl. by rewrite Hnone in Hl.
Qed.

Lemma linked_mono_removed h h' x p n c :
  consistent h → load_next h x = Some n → load_prev h x = Some p →
  removed h h' x p n → c ≠ x →
  is_linked c h' = Some true → is_linked c h = Some true.
Proof.
  intros Hc Hn Hp [Hrn Hrp] Hne.
  pose proof (proj1 (Hc x n) Hn) as Hnp. pose proof (proj2 (Hc p x) Hp) as Hpn.
  apply linked_mono.
  - intros Hnone. apply load_next_None. rewrite Hrn.
    apply load_next_None in Hnone as Hnn. apply load_prev_None in Hnone as Hpp.
    repeat case_decide; simplify_eq; try done; congruence.
  - intros Hcn Hcp. rewrite Hrn, Hrp.
    repeat case_decide; simplify_eq; try done; congruence.
Qed.

Lemma consistent_inserted h h' x p n :
  consistent h → load_next h p = Some n →
  load_next h x = Some x → x ≠ p →
  inserted h h' x p n → consistent h'.
Proof.
  intros Hc Hn Hx Hne [Hin Hip] a b. rewrite Hin, Hip.
  pose proof (proj1 (Hc p n) Hn) as Hnp. pose proof (proj1 (Hc x x) Hx) as Hxp.
  assert (x ≠ n) as Hxn. { intros ->. congruence. }
  repeat case_decide; simplify_eq; try done; cons_tac Hc.
Qed.

Lemma linked_mono_inserted h h' x p n c :
  consistent h → load_next h p = Some n → (c = p → p ≠ n) →
  inserted h h' x p n → c ≠ x →
  is_linked c h' = Some true → is_linked c h = Some true.
Proof.
  intros Hc Hn Hpn' [Hin Hip] Hne.
  pose proof (proj1 (Hc p n) Hn) as Hnp.
  apply linked_mono.
  - intros Hnone. apply load_next_None. rewrite Hin.
    apply load_next_None in Hnone as Hnn. apply load_prev_None in Hnone as Hpp.
    repeat case_decide; simplify_eq; try done; congruence.
  - intros Hcn Hcp. rewrite Hin, Hip.
    repeat case_decide; simplify_eq; try done; try congruence.
    by destruct Hpn'.
Qed.

Lemma consistent_delete h x :
  consistent h → load_next h x = Some x → consistent (delete x h).
Proof.
  intros Hc Hx a b. autorewrite with heap.
  pose proof (proj1 (Hc x x) Hx) as Hxp.
  repeat case_decide; simplify_eq; try done; cons_tac Hc.
Qed.
End consistency.

Section simulation.
Implicit Type sA : state (iteration_token (option nat)).
Implicit Type sB : state (iteration_token bool).
Implicit Type h : gmap nat list_element.

Lemma rel_result_bind {A B A' B'} (R : A → B → Prop) (R' : A' → B' → Prop)
    (ra : result A) (rb : result B) (ka : A → result A') (kb : B → result B') :
  rel_result R ra rb →
  (∀ a b, R a b → rel_result R' (ka a) (kb b)) →
  rel_result R' (ra ≫= ka) (rb ≫= kb).
Proof. destruct ra, rb; simpl; try done. intros HR Hk. by apply Hk. Qed.

Lemma rel_result_lift {A} (R : A → A → Prop) (o : option A) :
  (∀ a, R a a) → rel_result R (lift o) (lift o).
Proof. destruct o; simpl; eauto. Qed.

Lemma rel_result_impl {A B} (R R' : A → B → Prop) ra rb :
  rel_result R ra rb → (∀ a b, R a b → R' a b) → rel_result R' ra rb.
Proof. destruct ra, rb; simpl; eauto. Qed.

Lemma token_kept_refl {X} (tks : gmap nat (iteration_token X)) t : token_kept tks tks t.
Proof. done. Qed.
Lemma token_kept_trans {X} (t1 t2 t3 : gmap nat (iteration_token X)) t :
  token_kept t1 t2 t → token_kept t2 t3 t → token_kept t1 t3 t.
Proof. unfold token_kept. congruence. Qed.

(** The loops over the token stack run in step. *)
Lemma for_tokens_sim fuel bodyA bodyB :
  (∀ a b, token_agree a b → option_Forall2 token_agree (bodyA a) (bodyB b)) →
  (∀ a a', bodyA a = Some a' → extra a' = extra a ∧ next_token a' = next_token a) →
  ∀ top (tA : gmap nat (iteration_token (option nat))) (tB : gmap nat (iteration_token bool)),
    (∀ t, option_Forall2 token_agree (tA !! t) (tB !! t)) →
    rel_result (λ tA' tB', (∀ t, option_Forall2 token_agree (tA' !! t) (tB' !! t)) ∧
                           ∀ t, token_kept tA tA' t)
      (for_tokens next_token fuel bodyA top tA)
      (for_tokens next_token fuel bodyB top tB).
Proof.
  intros Hbody Hkeep. induction fuel as [|fuel IH]; intros top tA tB Hag.
  - destruct top; simpl; [done|]. split; [done|]. intros t. apply token_kept_refl.
  - destruct top as [t|]; simpl; [|split; [done|intros; apply token_kept_refl]].
    pose proof (Hag t) as Ht.
    destruct (tA !! t) as [a|] eqn:EA, (tB !! t) as [b|] eqn:EB;
      inversion Ht as [? ? Hab|]; subst; [|done].
    pose proof (Hbody a b Hab) as Hb.
    destruct (bodyA a) as [a'|] eqn:Ea; inversion Hb as [? b' Hab' E1 E2|]; subst; [|done].
    destruct (Hkeep a a' Ea) as [Hex Hnx].
    assert (next_token b' = next_token a') as -> by (by destruct Hab' as (? & -> & _)).
    eapply rel_result_impl; [apply IH|].
    + intros t0. destruct (decide (t0 = t)) as [->|].
      * rewrite !lookup_insert_eq. by constructor.
      * rewrite !lookup_insert_ne by done. apply Hag.
    + intros tA' tB' [Hag' Hk]. split; [done|]. intros t0.
      eapply token_kept_trans; [|apply Hk]. unfold token_kept.
      destruct (decide (t0 = t)) as [->|].
      * rewrite lookup_insert_eq, EA. simpl. by rewrite Hex, Hnx.
      * by rewrite lookup_insert_ne.
Qed.

Lemma unlink_Some h h' x :
  consistent h → unlink x h = Some h' →
  ∃ n p, load_next h x = Some n ∧ load_prev h x = Some p ∧ removed h h' x p n.
Proof.
  intros Hc Hu.
  destruct (load_next h x) as [n|] eqn:En; [|by unfold unlink in Hu; rewrite En in Hu].
  destruct (load_prev h x) as [p|] eqn:Ep;
    [|by unfold unlink in Hu; rewrite En in Hu; simpl in Hu; rewrite Ep in Hu].
  destruct (unlink_removed h x n p En Ep) as (h'' & Hu' & Hr).
  - apply Hc in En. by eapply load_prev_alloc.
  - apply Hc in Ep. by eapply load_next_alloc.
  - exists n, p. by simplify_eq.
Qed.

Lemma removed_alloc h h' x p n a :
  removed h h' x p n → is_Some (h !! x) → is_Some (h !! p) →
  is_Some (h' !! a) ↔ is_Some (h !! a).
Proof.
  intros Hr Hx Hp. rewrite <-!elem_of_dom. by rewrite (removed_dom _ _ _ _ _ Hr Hx Hp).
Qed.
Lemma inserted_alloc h h' x p n a :
  inserted h h' x p n → is_Some (h !! x) → is_Some (h !! p) →
  is_Some (h' !! a) ↔ is_Some (h !! a).
Proof.
  intros Hr Hx Hp. rewrite <-!elem_of_dom. by rewrite (inserted_dom _ _ _ _ _ Hr Hx Hp).
Qed.

(** Connections outside [S] keep agreeing when no unlinked one of them
    becomes linked. *)
Lemma conns_agree_step h h' (cA cB : gmap nat connection) c :
  option_Forall2 (connection_agree h c) (cA !! c) (cB !! c) →
  (is_linked c h' = Some true → is_linked c h = Some true) →
  option_Forall2 (connection_agree h' c) (cA !! c) (cB !! c).
Proof.
  intros Hc Hm. destruct Hc as [a b [Hs Hl]|]; constructor.
  split; [done|]. intros E. by apply Hl, Hm.
Qed.

Lemma agree_unlinked sA sB h' c n p a b tA tB :
  agree sA sB →
  load_next (nodes sA) c = Some n → load_prev (nodes sA) c = Some p →
  removed (nodes sA) h' c p n →
  is_Some (conns sA !! c) →
  slot a = slot b →
  (∀ t, option_Forall2 token_agree (tA !! t) (tB !! t)) →
  agree (State h' (<[c := a]> (conns sA)) tA (sigs sA))
        (State h' (<[c := b]> (conns sB)) tB (sigs sB)).
Proof.
  intros [Hn Hs Ht Hcn Hcons Hsig Hconn] Hln Hlp Hr Hc Hslot Htok.
  assert (is_Some (nodes sA !! c)) as Hac by (by eapply load_next_alloc).
  assert (is_Some (nodes sA !! p)) as Hap.
  { apply Hcons in Hlp. by eapply load_next_alloc. }
  destruct (removed_self _ _ _ _ _ Hr) as [Hsn Hsp].
  split; simpl; try done.
  - intros c'. destruct (decide (c' = c)) as [->|Hne].
    + rewrite !lookup_insert_eq. constructor. split; [done|].
      rewrite (unlinked_is_linked _ _ Hsn Hsp). done.
    + rewrite !lookup_insert_ne by done. eapply conns_agree_step; [apply Hcn|].
      by eapply linked_mono_removed.
  - by eapply consistent_removed.
  - intros s Hs'. destruct (Hsig s Hs') as [Hsa Hsc]. split.
    + by eapply removed_alloc.
    + rewrite lookup_insert_ne; [done|]. intros ->. rewrite Hsc in Hc. by destruct Hc.
  - intros c' Hc'. eapply removed_alloc; try done.
    destruct (decide (c' = c)) as [->|Hne]; [done|].
    rewrite lookup_insert_ne in Hc' by done. by apply Hconn.
Qed.

Lemma disconnect_sim fuel c sA sB :
  agree sA sB →
  rel_result (λ sA' sB', agree sA' sB' ∧ ∀ t, token_kept (toks sA) (toks sA') t)
    (signals.disconnect fuel c sA) (alt.disconnect fuel c sB).
Proof.
  intros Hag. pose proof Hag as [Hn Hs Ht Hcn Hcons Hsig Hconn].
  unfold signals.disconnect, alt.disconnect. rewrite <-Hn.
  destruct (is_linked c (nodes sA)) as [[|]|] eqn:El; simpl; [|done|done].
  destruct (unlink c (nodes sA)) as [h'|] eqn:Eu; simpl; [|done].
  pose proof (Hcn c) as Hc.
  destruct (conns sA !! c) as [a|] eqn:Ea, (conns sB !! c) as [b|] eqn:Eb;
    inversion Hc as [? ? [Hslot Hsigeq]|]; subst; simpl; [|done].
  rewrite <-(Hsigeq El).
  unfold load_top_token. destruct (sig a) as [| |s]; simpl; try done.
  assert (sigs sB !! s = sigs sA !! s) as -> by (by rewrite Hs).
  destruct (sigs sA !! s) as [top|]; simpl; [|done].
  destruct (unlink_Some _ _ _ Hcons Eu) as (n & p & Hln & Hlp & Hr).
  eapply rel_result_bind; [apply for_tokens_sim; [| |apply Ht]|].
  - intros ta tb (Hcur & Hnx & Hex & Hd). rewrite <-Hcur.
    destruct (negb (current ta =? list.end_ s) && (current ta =? c)); [|by constructor].
    destruct (load_next h' (current ta)); simpl; constructor. done.
  - intros ta ta'.
    destruct (negb (current ta =? list.end_ s) && (current ta =? c)); [|by intros [= <-]].
    destruct (load_next h' (current ta)); simpl; [|done]. by intros [= <-].
  - intros tA' tB' [Htok Hk]. simpl. split; [|done].
    eapply agree_unlinked; eauto.
Qed.

Lemma insert_Some h pos x r :
  consistent h → list.insert pos x h = Some r →
  load_next h x = Some x → x ≠ pos →
  ∃ p h1, r = (x, h1) ∧ load_prev h pos = Some p ∧ load_next h p = Some pos ∧
          x ≠ p ∧ inserted h h1 x p pos.
Proof.
  intros Hc Hi Hx Hne.
  destruct (load_prev h pos) as [p|] eqn:Ep;
    [|by unfold list.insert, list.non_const_transform in Hi; rewrite Ep in Hi].
  pose proof (proj2 (Hc p pos) Ep) as Hpn.
  assert (x ≠ p) as Hxp. { intros ->. congruence. }
  destruct (insert_inserted h pos x p Ep Hpn) as (h1 & Hi' & Hins); try done.
  { by eapply load_next_alloc. }
  exists p, h1. by simplify_eq.
Qed.

Lemma push_front_Some h s x h1 :
  consistent h → list.push_front s x h = Some h1 →
  load_next h x = Some x → x ≠ s →
  ∃ n, load_next h s = Some n ∧ x ≠ n ∧ inserted h h1 x s n.
Proof.
  intros Hc Hi Hx Hne.
  destruct (load_next h s) as [n|] eqn:En;
    [|by unfold list.push_front in Hi; rewrite En in Hi].
  pose proof (proj1 (Hc s n) En) as Hnp.
  assert (x ≠ n) as Hxn. { intros ->. apply Hc in Hx. congruence. }
  destruct (push_front_inserted h s x n En) as (h1' & Hi' & Hins); try done.
  { by eapply load_prev_alloc. }
  { by eapply load_next_alloc. }
  exists n. by simplify_eq.
Qed.

(** A connection constructed in fresh storage. *)
Lemma agree_fresh sA sB c a b :
  agree sA sB → nodes sA !! c = None → slot a = slot b →
  agree (State (list_element_ctor c (nodes sA)) (<[c := a]> (conns sA)) (toks sA) (sigs sA))
        (State (list_element_ctor c (nodes sB)) (<[c := b]> (conns sB)) (toks sB) (sigs sB)).
Proof.
  intros [Hn Hs Ht Hcn Hcons Hsig Hconn] Hfresh Hslot.
  assert (load_next (list_element_ctor c (nodes sA)) c = Some c ∧
          load_prev (list_element_ctor c (nodes sA)) c = Some c) as [Hsn Hsp].
  { unfold list_element_ctor. split; heap_solve. }
  split; simpl; try done.
  - by rewrite Hn.
  - intros c'. destruct (decide (c' = c)) as [->|Hne].
    + rewrite !lookup_insert_eq. constructor. split; [done|].
      by rewrite (unlinked_is_linked _ _ Hsn Hsp).
    + rewrite !lookup_insert_ne by done. eapply conns_agree_step; [apply Hcn|].
      unfold is_linked, list_element_ctor. autorewrite with heap.
      by rewrite !decide_False by done.
  - by apply consistent_fresh.
  - intros s Hs'. destruct (Hsig s Hs') as [Hsa Hsc].
    assert (s ≠ c) by (intros ->; rewrite Hfresh in Hsa; by destruct Hsa).
    unfold list_element_ctor. rewrite !lookup_insert_ne by done. done.
  - intros c' Hc'. unfold list_element_ctor.
    destruct (decide (c' = c)) as [->|Hne]; [rewrite lookup_insert_eq; eauto|].
    rewrite lookup_insert_ne in Hc' by done. rewrite lookup_insert_ne by done.
    by apply Hconn.
Qed.

(** Agreement after a node [x] of a connection was linked between [p] and
    [n]. *)
Lemma agree_linked sA sB h' x p n :
  agree sA sB →
  load_next (nodes sA) p = Some n → load_next (nodes sA) x = Some x → x ≠ p →
  inserted (nodes sA) h' x p n →
  (∀ c, is_Some (conns sA !! c) → c = p → p ≠ n) →
  option_Forall2 (λ a b, sig a = sig b) (conns sA !! x) (conns sB !! x) →
  agree (State h' (conns sA) (toks sA) (sigs sA)) (State h' (conns sB) (toks sB) (sigs sB)).
Proof.
  intros [Hn Hs Ht Hcn Hcons Hsig Hconn] Hpn Hx Hxp Hins Hcp Hsx.
  assert (is_Some (nodes sA !! x)) as Hax by (by eapply load_next_alloc).
  assert (is_Some (nodes sA !! p)) as Hap by (by eapply load_next_alloc).
  split; simpl; try done.
  - intros c. destruct (decide (c = x)) as [->|Hne].
    + pose proof (Hcn x) as Hc.
      destruct (conns sA !! x) as [a|], (conns sB !! x) as [b|];
        inversion Hc as [? ? [Hslot _]|]; inversion Hsx; subst; constructor.
      done.
    + pose proof (Hcn c) as Hc.
      destruct (conns sA !! c) as [a|] eqn:Ea, (conns sB !! c) as [b|];
        inversion Hc as [? ? [Hslot Hl]|]; subst; constructor.
      split; [done|]. intros E. apply Hl.
      apply (linked_mono_inserted (nodes sA) h' x p n c Hcons Hpn); try done.
      intros ->. eapply Hcp; eauto.
  - by apply (consistent_inserted (nodes sA) h' x p n).
  - intros s Hs'. destruct (Hsig s Hs') as [Hsa Hsc]. split; [|done].
    by apply (inserted_alloc (nodes sA) h' x p n).
  - intros c Hc. apply (inserted_alloc (nodes sA) h' x p n); try done. by apply Hconn.
Qed.

Lemma agree_removed sA sB h' c n p tA tB :
  agree sA sB →
  load_next (nodes sA) c = Some n → load_prev (nodes sA) c = Some p →
  removed (nodes sA) h' c p n →
  is_Some (conns sA !! c) →
  (∀ t, option_Forall2 token_agree (tA !! t) (tB !! t)) →
  agree (State h' (conns sA) tA (sigs sA)) (State h' (conns sB) tB (sigs sB)).
Proof.
  intros Hag Hn Hp Hr [a Ha] Htok.
  pose proof (agree_conns _ _ Hag c) as Hc. rewrite Ha in Hc.
  destruct (conns sB !! c) as [b|] eqn:Eb; inversion Hc as [? ? [Hslot _]|]; subst.
  rewrite <-(insert_id (conns sA) c a), <-(insert_id (conns sB) c b) by done.
  eapply agree_unlinked; eauto.
Qed.

Lemma safe_move_sim fuel this other sA sB :
  agree sA sB →
  load_next (nodes sA) this = Some this →
  (is_linked other (nodes sA) = Some true →
   option_Forall2 (λ a b, sig a = sig b) (conns sA !! this) (conns sB !! this)) →
  rel_result (λ sA' sB', agree sA' sB' ∧ ∀ t, token_kept (toks sA) (toks sA') t)
    (safe_move fuel this other sA) (safe_move fuel this other sB).
Proof.
  intros Hag Hthis Hsig'. pose proof Hag as [Hn Hs Ht Hcn Hcons Hsig Hconn].
  unfold safe_move. rewrite <-Hn.
  destruct (is_linked other (nodes sA)) as [[|]|] eqn:El; simpl; [|done|done].
  specialize (Hsig' eq_refl).
  assert (this ≠ other) as Hne.
  { intros ->. apply is_linked_true in El as (n & p & Hn' & Hp' & Hor).
    apply Hcons in Hthis as Hp''. destruct Hor; congruence. }
  pose proof (Hcn other) as Ho.
  destruct (conns sA !! other) as [oa|] eqn:Eoa, (conns sB !! other) as [ob|] eqn:Eob;
    inversion Ho as [? ? [Hoslot Hosig]|]; subst; simpl; [|done].
  rewrite <-(Hosig El).
  destruct (conns sA !! this) as [ca|] eqn:Eca, (conns sB !! this) as [cb|] eqn:Ecb;
    inversion Hsig' as [? ? Hcsig|]; subst; simpl; [|done].
  rewrite <-Hcsig.
  destruct (connections_end (sig oa)) as [eo|]; simpl; [|done].
  destruct (connections_end (sig ca)) as [ec|] eqn:Eec; simpl; [|done].
  destruct (list.insert other this (nodes sA)) as [r|] eqn:Ei; simpl; [|done].
  destruct (insert_Some _ _ _ _ Hcons Ei Hthis Hne) as (p & h1 & -> & Hpo & Hpn & Hxp & Hins).
  simpl.
  assert (agree (State h1 (conns sA) (toks sA) (sigs sA))
                (State h1 (conns sB) (toks sB) (sigs sB))) as Hag1.
  { apply (agree_linked sA sB h1 this p other); try done.
    - intros c _ -> ->. apply is_linked_true in El as (n' & p' & Hn' & Hp' & Hor).
      apply Hcons in Hpo as Hno. destruct Hor; congruence.
    - rewrite Eca, Ecb. by constructor. }
  destruct (unlink other h1) as [h2|] eqn:Eu; simpl; [|done].
  destruct (unlink_Some _ _ _ (agree_consistent _ _ Hag1) Eu) as (n' & p' & Hln & Hlp & Hr).
  unfold load_top_token. destruct (sig ca) as [| |s]; simpl; try done.
  assert (sigs sB !! s = sigs sA !! s) as -> by (by rewrite Hs).
  destruct (sigs sA !! s) as [top|]; simpl; [|done].
  eapply rel_result_bind; [apply for_tokens_sim; [| |apply Ht]|].
  - intros ta tb (Hcur & Hnx & Hex & Hd). rewrite <-Hcur.
    destruct (negb _ && _); by constructor.
  - intros ta ta'. destruct (negb _ && _); by intros [= <-].
  - intros tA' tB' [Htok Hk]. simpl. split; [|done].
    apply (agree_removed _ _ h2 other n' p' tA' tB' Hag1); try done.
Qed.

Lemma conns_lookup_agree sA sB c :
  agree sA sB →
  (conns sA !! c = None ∧ conns sB !! c = None) ∨
  (∃ a b, conns sA !! c = Some a ∧ conns sB !! c = Some b ∧
          connection_agree (nodes sA) c a b).
Proof.
  intros Hag. pose proof (agree_conns _ _ Hag c) as Hc.
  destruct (conns sA !! c) as [a|], (conns sB !! c) as [b|]; inversion Hc; subst; eauto 10.
Qed.

Lemma list_ctor_eq h s : list.ctor s h = Some (list_element_ctor s h).
Proof.
  unfold list.ctor, list_element_ctor. simpl. heap_solve.
  f_equal. apply heap_ext; intros a; heap_solve.
Qed.

Lemma signal_ctor_sim s sA sB :
  agree sA sB →
  rel_result (stepped sA) (lift (signal_ctor s sA)) (lift (signal_ctor s sB)).
Proof.
  intros Hag. pose proof Hag as [Hn Hs Ht Hcn Hcons Hsig Hconn].
  unfold signal_ctor. rewrite <-Hn, <-Hs, !list_ctor_eq.
  destruct (nodes sA !! s) eqn:En; [done|].
  destruct (sigs sA !! s) eqn:Es; [done|]. simpl. split; [|done].
  assert (conns sA !! s = None) as Hcs.
  { destruct (conns sA !! s) eqn:E; [|done].
    destruct (Hconn s) as [? ?]; [eauto|congruence]. }
  split; simpl; try done.
  - intros c. pose proof (Hcn c) as Hc.
    destruct (conns sA !! c) as [a|] eqn:Ea, (conns sB !! c) as [b|];
      inversion Hc as [? ? [Hslot Hl]|]; subst; constructor.
    split; [done|]. intros E. apply Hl.
    assert (c ≠ s) by congruence.
    revert E. unfold is_linked, list_element_ctor. autorewrite with heap.
    by rewrite !decide_False by done.
  - by apply consistent_fresh.
  - intros s' Hs'. unfold list_element_ctor. destruct (decide (s' = s)) as [->|Hne].
    + rewrite lookup_insert_eq. eauto.
    + rewrite lookup_insert_ne in Hs' by done. rewrite lookup_insert_ne by done. eauto.
  - intros c Hc. unfold list_element_ctor.
    destruct (decide (c = s)) as [->|Hne]; [rewrite lookup_insert_eq; eauto|].
    rewrite lookup_insert_ne by done. by apply Hconn.
Qed.

Lemma fresh_lookup_agree sA sB c :
  agree sA sB →
  match nodes sA !! c, conns sA !! c with None, None => True | _, _ => False end ↔
  match nodes sB !! c, conns sB !! c with None, None => True | _, _ => False end.
Proof.
  intros Hag. rewrite <-(agree_nodes _ _ Hag).
  destruct (conns_lookup_agree sA sB c Hag) as [[-> ->]|(a & b & -> & -> & _)]; done.
Qed.

Lemma connection_default_ctor_sim c sA sB :
  agree sA sB →
  rel_result (stepped sA) (lift (connection_default_ctor c sA))
    (lift (connection_default_ctor c sB)).
Proof.
  intros Hag. unfold connection_default_ctor. rewrite <-(agree_nodes _ _ Hag).
  destruct (conns_lookup_agree sA sB c Hag) as [[-> ->]|(a & b & -> & -> & _)].
  - destruct (nodes sA !! c) eqn:En; [done|]. simpl. split; [|done].
    rewrite (agree_nodes _ _ Hag) at 2. by apply agree_fresh.
  - by destruct (nodes sA !! c).
Qed.

Lemma connect_sim c s f sA sB :
  agree sA sB → is_Some (sigs sA !! s) →
  rel_result (stepped sA) (lift (connect c s f sA)) (lift (connect c s f sB)).
Proof.
  intros Hag Hs. unfold connect. rewrite <-(agree_nodes _ _ Hag).
  destruct (conns_lookup_agree sA sB c Hag) as [[-> ->]|(a & b & -> & -> & _)];
    [|by destruct (nodes sA !! c)].
  destruct (nodes sA !! c) eqn:En; [done|].
  pose proof (agree_fresh sA sB c (Connection (ptr s) f) (Connection (ptr s) f) Hag En eq_refl)
    as Hag1.
  rewrite <-(agree_nodes _ _ Hag) in Hag1.
  destruct (list.push_front s c (list_element_ctor c (nodes sA))) as [h1|] eqn:Ep;
    simpl; [|done].
  split; [|done].
  assert (c ≠ s) as Hne.
  { intros ->. destruct (agree_signal _ _ Hag s Hs) as [[? ?] _]. congruence. }
  assert (load_next (list_element_ctor c (nodes sA)) c = Some c) as Hself.
  { unfold list_element_ctor. heap_solve. }
  destruct (push_front_Some _ _ _ _ (agree_consistent _ _ Hag1) Ep Hself Hne)
    as (n & Hsn & Hcn & Hins).
  apply (agree_linked _ _ h1 c s n Hag1); simpl; try done.
  - intros c' Hc' ->. exfalso. destruct (decide (s = c)) as [|Hsc]; [done|].
    rewrite lookup_insert_ne in Hc' by done.
    destruct (agree_signal _ _ Hag s Hs) as [_ Hnone]. rewrite Hnone in Hc'.
    by destruct Hc'.
  - rewrite !lookup_insert_eq. by constructor.
Qed.

Lemma stepped_trans sA sA1 sA2 sB2 :
  (∀ t, token_kept (toks sA) (toks sA1) t) → stepped sA1 sA2 sB2 → stepped sA sA2 sB2.
Proof.
  intros Hk [Hag Hk2]. split; [done|]. intros t.
  eapply token_kept_trans; [apply Hk|apply Hk2].
Qed.

Lemma connection_move_ctor_sim fuel this other sA sB :
  agree sA sB →
  rel_result (stepped sA) (connection_move_ctor fuel this other sA)
    (connection_move_ctor fuel this other sB).
Proof.
  intros Hag. unfold connection_move_ctor. rewrite <-(agree_nodes _ _ Hag).
  destruct (conns_lookup_agree sA sB this Hag) as [[-> ->]|(a & b & -> & -> & _)];
    [|by destruct (nodes sA !! this)].
  destruct (nodes sA !! this) eqn:En; [done|].
  destruct (conns_lookup_agree sA sB other Hag)
    as [[-> ->]|(oa & ob & Eoa & Eob & Hslot & Hsig)]; [done|].
  rewrite Eoa, Eob. simpl.
  pose proof (agree_fresh sA sB this (Connection (sig oa) (slot oa))
                (Connection (sig ob) (slot ob)) Hag En Hslot) as Hag1.
  rewrite <-(agree_nodes _ _ Hag) in Hag1.
  eapply rel_result_impl; [apply safe_move_sim; [apply Hag1|..]|].
  - simpl. unfold list_element_ctor. heap_solve.
  - simpl. intros El. rewrite !lookup_insert_eq. constructor. simpl. apply Hsig.
    assert (other ≠ this) as Hne.
    { intros ->. destruct (agree_connection _ _ Hag this) as [? ?]; [eauto|congruence]. }
    revert El. unfold is_linked, list_element_ctor. autorewrite with heap.
    by rewrite !decide_False by done.
  - intros sA' sB' [Hag' Hk]. split; [done|]. apply Hk.
Qed.

Lemma disconnect_unlinks fuel c sA sA' :
  consistent (nodes sA) →
  signals.disconnect fuel c sA = Ret sA' → load_next (nodes sA') c = Some c.
Proof.
  intros Hcons. unfold signals.disconnect.
  destruct (is_linked c (nodes sA)) as [[|]|] eqn:El; simpl; [| |done].
  - destruct (unlink c (nodes sA)) as [h'|] eqn:Eu; simpl; [|done].
    destruct (unlink_Some _ _ _ Hcons Eu) as (n & p & _ & _ & Hr).
    destruct (conns sA !! c); simpl; [|done].
    destruct (load_top_token _ _); simpl; [|done].
    destruct (connections_end _); simpl; [|done].
    destruct (for_tokens _ _ _ _ _); simpl; try done.
    intros [= <-]. simpl. by destruct (removed_self _ _ _ _ _ Hr).
  - intros [= <-]. unfold is_linked in El.
    destruct (load_next (nodes sA) c) as [n|] eqn:En; [|done].
    destruct (load_prev (nodes sA) c) as [p|] eqn:Ep; [|done].
    simpl in El. injection El as El. apply orb_false_iff in El as [El _].
    apply negb_false_iff, Nat.eqb_eq in El. by subst.
Qed.

Lemma connection_move_assign_sim fuel this other sA sB :
  agree sA sB →
  rel_result (stepped sA)
    (connection_move_assign signals.disconnect fuel this other sA)
    (connection_move_assign alt.disconnect fuel this other sB).
Proof.
  intros Hag. unfold connection_move_assign.
  destruct (this =? other) eqn:Ene; [by split|]. apply Nat.eqb_neq in Ene.
  pose proof (disconnect_sim fuel this sA sB Hag) as Hd.
  destruct (signals.disconnect fuel this sA) as [sA1| |] eqn:EdA,
           (alt.disconnect fuel this sB) as [sB1| |]; simpl in *; try done.
  destruct Hd as [Hag1 Hk1].
  pose proof (disconnect_unlinks _ _ _ _ (agree_consistent _ _ Hag) EdA) as Hself.
  destruct (conns_lookup_agree sA1 sB1 this Hag1)
    as [[-> ->]|(ca & cb & Eca & Ecb & Hcslot & Hcsig)]; [done|].
  rewrite Eca, Ecb. simpl.
  destruct (conns_lookup_agree sA1 sB1 other Hag1)
    as [[-> ->]|(oa & ob & Eoa & Eob & Hoslot & Hosig)]; [done|].
  rewrite Eoa, Eob. simpl.
  assert (agree (with_conns (<[other := Connection (sig oa) None]>
                               (<[this := Connection (sig oa) (slot oa)]> (conns sA1))) sA1)
                (with_conns (<[other := Connection (sig ob) None]>
                               (<[this := Connection (sig ob) (slot ob)]> (conns sB1))) sB1))
    as Hag2.
  { destruct Hag1 as [Hn Hs Ht Hcn Hcons Hsig Hconn]. split; simpl; try done.
    - intros c. destruct (decide (c = other)) as [->|Hco].
      + rewrite !lookup_insert_eq. constructor. by split.
      + rewrite !(lookup_insert_ne _ other) by done.
        destruct (decide (c = this)) as [->|Hct].
        * rewrite !lookup_insert_eq. constructor. split; [done|].
          intros El. apply is_linked_true in El as (n & p & Hn' & Hp' & Hor).
          apply Hcons in Hself as Hself'. destruct Hor; congruence.
        * rewrite !lookup_insert_ne by done. apply Hcn.
    - intros s Hs'. destruct (Hsig s Hs') as [Hsa Hsc]. split; [done|].
      rewrite !lookup_insert_ne; [done|..]; intros ->; congruence.
    - intros c Hc. apply Hconn.
      destruct (decide (c = other)) as [->|Hco]; [by rewrite Eoa|].
      rewrite lookup_insert_ne in Hc by done.
      destruct (decide (c = this)) as [->|Hct]; [eauto|].
      by rewrite lookup_insert_ne in Hc. }
  eapply rel_result_impl; [apply safe_move_sim; [apply Hag2|..]|].
  - done.
  - simpl. intros El. rewrite lookup_insert_ne by done. rewrite lookup_insert_eq.
    rewrite (lookup_insert_ne _ other) by done. rewrite lookup_insert_eq.
    constructor. simpl. by apply Hosig.
  - intros sA' sB' Hst. eapply stepped_trans; [apply Hk1|]. apply Hst.
Qed.

Lemma connection_dtor_sim fuel c sA sB :
  agree sA sB → is_Some (conns sA !! c) →
  rel_result (stepped sA)
    (connection_dtor signals.disconnect fuel c sA)
    (connection_dtor alt.disconnect fuel c sB).
Proof.
  intros Hag Hc. unfold connection_dtor.
  pose proof (disconnect_sim fuel c sA sB Hag) as Hd.
  destruct (signals.disconnect fuel c sA) as [sA1| |] eqn:EdA,
           (alt.disconnect fuel c sB) as [sB1| |]; simpl in *; try done.
  destruct Hd as [Hag1 Hk1].
  pose proof (disconnect_unlinks _ _ _ _ (agree_consistent _ _ Hag) EdA) as Hself.
  pose proof Hag1 as [Hn Hs Ht Hcn Hcons Hsig Hconn].
  apply Hcons in Hself as Hselfp.
  rewrite <-Hn. unfold list_element_dtor. rewrite (unlink_unlinked _ _ Hself Hselfp).
  simpl. split; [|done].
  split; simpl; try done.
  - intros c'. destruct (decide (c' = c)) as [->|Hne].
    + rewrite !lookup_delete_eq. constructor.
    + rewrite !lookup_delete_ne by done. eapply conns_agree_step; [apply Hcn|].
      unfold is_linked. autorewrite with heap. by rewrite !decide_False by done.
  - by apply consistent_delete.
  - intros s Hs'. destruct (Hsig s Hs') as [Hsa Hsc].
    assert (is_Some (conns sA1 !! c)) as Hc1.
    { clear -EdA Hc. unfold signals.disconnect in EdA.
      destruct (is_linked c (nodes sA)) as [[|]|]; simpl in *; [| |done].
      - destruct (unlink c (nodes sA)); simpl in *; [|done].
        destruct (conns sA !! c); simpl in *; [|done].
        destruct (load_top_token _ _); simpl in *; [|done].
        destruct (connections_end _); simpl in *; [|done].
        destruct (for_tokens _ _ _ _ _); simpl in *; try done.
        injection EdA as <-. simpl. rewrite lookup_insert_eq. eauto.
      - by injection EdA as <-. }
    assert (s ≠ c) by (intros ->; rewrite Hsc in Hc1; by destruct Hc1).
    rewrite !lookup_delete_ne by done. done.
  - intros c' Hc'. destruct (decide (c' = c)) as [->|Hne].
    + rewrite lookup_delete_eq in Hc'. by destruct Hc'.
    + rewrite lookup_delete_ne in Hc' by done. rewrite lookup_delete_ne by done.
      by apply Hconn.
Qed.

Lemma stepped_run depth sA tr rA rB :
  rel_result (stepped sA) rA rB →
  rel_result (run_agree depth sA) (on_state rA tr) (on_state rB tr).
Proof.
  destruct rA, rB; simpl; try done. intros [Hag Hk]. split; [done|]. split; [done|].
  split; [done|]. intros t _. apply Hk.
Qed.

Lemma run_agree_trans depth sA sA1 rA rB :
  (∀ t, t < depth → token_kept (toks sA) (toks sA1) t) →
  run_agree depth sA1 rA rB → run_agree depth sA rA rB.
Proof.
  intros Hk (H1 & H2 & H3 & H4). split; [done|]. split; [done|]. split; [done|].
  intros t Ht. eapply token_kept_trans; [by apply Hk|by apply H4].
Qed.

Section interpreter.
Variable body : nat → nat → list action.
Hypothesis body_ok : ∀ f arg, no_destruction (body f arg).
Variable invokeA : list action →
  state (iteration_token (option nat)) * list (nat * nat) →
  result (completion * (state (iteration_token (option nat)) * list (nat * nat))).
Variable invokeB : list action →
  state (iteration_token bool) * list (nat * nat) →
  result (completion * (state (iteration_token bool) * list (nat * nat))).
Variable depth : nat.
Hypothesis invoke_sim : ∀ acts sA sB tr,
  agree sA sB → no_destruction acts →
  rel_result (run_agree (S depth) sA) (invokeA acts (sA, tr)) (invokeB acts (sB, tr)).

Lemma emission_loop_sim s arg k :
  ∀ sA sB tr,
    agree sA sB →
    rel_result (λ rA rB, rB.2.1 = false ∧
                         run_agree (S depth) sA rA (rB.1, rB.2.2))
      (signals.emission_loop body invokeA k depth s arg (sA, tr))
      (alt.emission_loop body invokeB k depth s arg (sB, tr)).
Proof.
  induction k as [|k IH]; intros sA sB tr Hag; [done|].
  simpl. pose proof (agree_toks _ _ Hag depth) as Ht.
  destruct (toks sA !! depth) as [ta|] eqn:Eta, (toks sB !! depth) as [tb|] eqn:Etb;
    inversion Ht as [? ? (Hcur & Hnx & Hex & Hd)|]; subst; simpl; [|done].
  rewrite <-Hcur.
  destruct (current ta =? list.end_ s).
  { simpl. split; [done|]. split; [done|]. split; [done|]. split; [done|]. done. }
  rewrite <-(agree_nodes _ _ Hag).
  destruct (load_next (nodes sA) (current ta)) as [n|]; simpl; [|done].
  destruct (load_prev (nodes sA) n) as [pn|]; simpl; [|done].
  assert (agree (with_toks (<[depth := set_current n ta]> (toks sA)) sA)
                (with_toks (<[depth := set_current n tb]> (toks sB)) sB)) as Hag1.
  { destruct Hag as [Hn Hs Ht' Hcn Hcons Hsig Hconn]. split; simpl; try done.
    intros t. destruct (decide (t = depth)) as [->|].
    - rewrite !lookup_insert_eq. constructor. by split.
    - rewrite !lookup_insert_ne by done. apply Ht'. }
  assert (∀ t, token_kept (toks sA) (<[depth := set_current n ta]> (toks sA)) t) as Hk1.
  { intros t. unfold token_kept. destruct (decide (t = depth)) as [->|].
    - by rewrite lookup_insert_eq, Eta.
    - by rewrite lookup_insert_ne. }
  destruct (conns_lookup_agree _ _ (current ta) Hag)
    as [[Ea Eb]|(a & b & Ea & Eb & Hslot & _)]; simpl; rewrite Ea, Eb; simpl; [done|].
  rewrite <-Hslot. destruct (slot a) as [f|]; simpl.
  2:{ split; [done|]. split; [done|]. split; [done|]. split; [done|].
      intros t _. apply Hk1. }
  pose proof (invoke_sim (body f arg) _ _ (tr ++ [(f, arg)]) Hag1 (body_ok f arg)) as Hi.
  destruct (invokeA (body f arg) _) as [[cA [sA2 trA]]| |],
           (invokeB (body f arg) _) as [[cB [sB2 trB]]| |]; simpl in *; try done.
  destruct Hi as (Hc & Htr & Hag2 & Hk2). simpl in *. subst cB trB.
  destruct cA as [|e]; simpl.
  2:{ split; [done|]. split; [done|]. split; [done|]. split; [done|].
      intros t Hlt. eapply token_kept_trans; [apply Hk1|by apply Hk2]. }
  pose proof (agree_toks _ _ Hag2 depth) as Ht2.
  destruct (toks sA2 !! depth) as [ta2|] eqn:Eta2, (toks sB2 !! depth) as [tb2|] eqn:Etb2;
    inversion Ht2 as [? ? (Hcur2 & Hnx2 & [sx Hex2] & Hd2)|]; subst; simpl; [|done].
  rewrite Hex2, Hd2.
  eapply rel_result_impl; [apply (IH sA2 sB2 trA Hag2)|].
  intros rA rB (Hfl & Hrun). split; [done|].
  eapply run_agree_trans; [|apply Hrun].
  intros t Hlt. eapply token_kept_trans; [apply Hk1|by apply Hk2].
Qed.

Lemma call_operator_sim fuel s arg sA sB tr :
  agree sA sB →
  rel_result (run_agree depth sA)
    (signals.call_operator body invokeA fuel depth s arg (sA, tr))
    (alt.call_operator body invokeB fuel depth s arg (sB, tr)).
Proof.
  intros Hag. unfold signals.call_operator, alt.call_operator,
    signals.iteration_token_ctor, alt.iteration_token_ctor. simpl.
  rewrite <-(agree_nodes _ _ Hag), <-(agree_sigs _ _ Hag).
  destruct (list.begin s (nodes sA)) as [b|]; simpl; [|done].
  destruct (sigs sA !! s) as [top|] eqn:Es; simpl; [|done].
  set (sA1 := State (nodes sA) (conns sA)
                (<[depth := IterationToken b top (Some s)]> (toks sA))
                (<[s := Some depth]> (sigs sA))).
  set (sB1 := State (nodes sA) (conns sB)
                (<[depth := IterationToken b top false]> (toks sB))
                (<[s := Some depth]> (sigs sA))).
  assert (agree sA1 sB1) as Hag1.
  { destruct Hag as [Hn Hs Ht' Hcn Hcons Hsig Hconn]. split; simpl; try done.
    - intros t. destruct (decide (t = depth)) as [->|].
      + rewrite !lookup_insert_eq. constructor. split; [done|]. split; [done|]. eauto.
      + rewrite !lookup_insert_ne by done. apply Ht'.
    - intros s' Hs'. apply Hsig. destruct (decide (s' = s)) as [->|]; [eauto|].
      by rewrite lookup_insert_ne in Hs'. }
  pose proof (emission_loop_sim s arg fuel sA1 sB1 tr Hag1) as Hl.
  destruct (signals.emission_loop _ _ _ _ _ _ _) as [[cA [sA2 trA]]| |],
           (alt.emission_loop _ _ _ _ _ _ _) as [[cB [fl [sB2 trB]]]| |];
    simpl in *; try done.
  destruct Hl as (Hfl & Hc & Htr & Hag2 & Hk2). simpl in *. subst fl cB trB.
  pose proof (Hk2 depth ltac:(lia)) as Hkd. unfold token_kept in Hkd.
  unfold sA1 in Hkd. simpl in Hkd. rewrite lookup_insert_eq in Hkd. simpl in Hkd.
  unfold signals.iteration_token_dtor, alt.pop_token.
  pose proof (agree_toks _ _ Hag2 depth) as Ht2.
  destruct (toks sA2 !! depth) as [ta2|] eqn:Eta2, (toks sB2 !! depth) as [tb2|] eqn:Etb2;
    inversion Ht2 as [? ? (Hcur2 & Hnx2 & Hex2 & Hd2)|]; subst; simpl in *; [|done].
  injection Hkd as Hex Hnx. rewrite Hex. rewrite <-(agree_sigs _ _ Hag2).
  destruct (sigs sA2 !! s) as [top2|] eqn:Es2; simpl; [|done].
  split; [done|]. split; [done|]. simpl. rewrite <-Hnx2. split.
  - destruct Hag2 as [Hn Hs Ht' Hcn Hcons Hsig Hconn]. split; simpl; try done.
    + intros t. destruct (decide (t = depth)) as [->|].
      * rewrite !lookup_delete_eq. constructor.
      * rewrite !lookup_delete_ne by done. apply Ht'.
    + intros s' Hs'. apply Hsig. destruct (decide (s' = s)) as [->|]; [eauto|].
      by rewrite lookup_insert_ne in Hs'.
  - intros t Hlt. unfold token_kept. rewrite lookup_delete_ne by lia.
    pose proof (Hk2 t ltac:(lia)) as Hkt. unfold token_kept, sA1 in Hkt. simpl in Hkt.
    by rewrite lookup_insert_ne in Hkt by lia.
Qed.

Lemma perform_sim fuel a sA sB tr :
  agree sA sB → match a with DeleteSignal _ => False | _ => True end →
  rel_result (run_agree depth sA)
    (signals.perform body invokeA fuel depth a (sA, tr))
    (alt.perform body invokeB fuel depth a (sB, tr)).
Proof.
  intros Hag Ha. destruct a as [s|s|c s f|c|c o|c o|c|c|s arg|e]; simpl; try done.
  - apply stepped_run. by apply signal_ctor_sim.
  - rewrite <-(agree_sigs _ _ Hag). destruct (sigs sA !! s) eqn:Es; simpl; [|done].
    apply stepped_run. apply connect_sim; [done|]. rewrite Es. eauto.
  - apply stepped_run. by apply connection_default_ctor_sim.
  - destruct (conns_lookup_agree _ _ o Hag)
      as [[Ea Eb]|(a & b & Ea & Eb & _)]; rewrite Ea, Eb; simpl; [done|].
    apply stepped_run. by apply connection_move_ctor_sim.
  - destruct (conns_lookup_agree _ _ c Hag)
      as [[Ea Eb]|(a & b & Ea & Eb & _)]; rewrite Ea, Eb; simpl; [done|].
    destruct (conns_lookup_agree _ _ o Hag)
      as [[Eoa Eob]|(oa & ob & Eoa & Eob & _)]; rewrite Eoa, Eob; simpl; [done|].
    apply stepped_run. by apply connection_move_assign_sim.
  - destruct (conns_lookup_agree _ _ c Hag)
      as [[Ea Eb]|(a & b & Ea & Eb & _)]; rewrite Ea, Eb; simpl; [done|].
    apply stepped_run. by apply disconnect_sim.
  - destruct (conns_lookup_agree _ _ c Hag)
      as [[Ea Eb]|(a & b & Ea & Eb & _)]; rewrite Ea, Eb; simpl; [done|].
    apply stepped_run. apply connection_dtor_sim; [done|]. rewrite Ea. eauto.
  - rewrite <-(agree_sigs _ _ Hag). destruct (sigs sA !! s) eqn:Es; simpl; [|done].
    by apply call_operator_sim.
Qed.

Lemma run_list_sim fuel acts :
  ∀ sA sB tr,
    agree sA sB → no_destruction acts →
    rel_result (run_agree depth sA)
      (run_list (signals.perform body invokeA fuel depth) acts (sA, tr))
      (run_list (alt.perform body invokeB fuel depth) acts (sB, tr)).
Proof.
  induction acts as [|a acts IH]; intros sA sB tr Hag Hnd; simpl.
  - split; [done|]. split; [done|]. split; [done|]. done.
  - apply Forall_cons in Hnd as [Ha Hnd].
    pose proof (perform_sim fuel a sA sB tr Hag Ha) as Hp.
    destruct (signals.perform _ _ _ _ _ _) as [[cA [sA1 trA]]| |],
             (alt.perform _ _ _ _ _ _) as [[cB [sB1 trB]]| |]; simpl in *; try done.
    destruct Hp as (Hc & Htr & Hag1 & Hk1). simpl in *. subst cB trB.
    destruct cA; simpl.
    + eapply rel_result_impl; [by apply IH|].
      intros rA rB Hr. eapply run_agree_trans; [apply Hk1|apply Hr].
    + split; [done|]. split; [done|]. split; [done|]. done.
Qed.
End interpreter.

Lemma exec_sim body fuel :
  (∀ f arg, no_destruction (body f arg)) →
  ∀ depth acts sA sB tr,
    agree sA sB → no_destruction acts →
    rel_result (run_agree depth sA)
      (signals.exec body fuel depth acts (sA, tr))
      (alt.exec body fuel depth acts (sB, tr)).
Proof.
  intros Hbody. induction fuel as [|fuel IH]; intros depth acts sA sB tr Hag Hnd; [done|].
  rewrite signals_exec_S, alt_exec_S.
  apply run_list_sim; try done. intros. by apply IH.
Qed.
End simulation.

Lemma agree_empty : agree empty_state empty_state.
Proof.
  split; simpl.
  - done.
  - done.
  - intros t. rewrite !lookup_empty. constructor.
  - intros c. rewrite !lookup_empty. constructor.
  - intros x y. unfold load_next, load_prev. rewrite !lookup_empty. simpl.
    split; intros; discriminate.
  - intros s [? Hs]. by rewrite lookup_empty in Hs.
  - intros c [? Hc]. by rewrite lookup_empty in Hc.
Qed.

Lemma run_agree_same_outcome depth sA rA rB :
  rel_result (run_agree depth sA) rA rB → same_outcome rA rB.
Proof.
  destruct rA as [[cA [sA' trA]]| |], rB as [[cB [sB' trB]]| |]; simpl; try done.
  intros (Hc & Htr & Hag & _). simpl in *.
  destruct Hag as [Hn Hs Ht Hcn _ _ _].
  repeat split; try done.
  - intros c. destruct (Hcn c) as [a b [Hslot _]|]; simpl; [by rewrite Hslot|done].
  - intros t. destruct (Ht t) as [a b (Hcur & Hnx & _)|]; simpl; [by rewrite Hcur, Hnx|done].
Qed.

(** C9: for every program of connects, disconnects, moves, destructions of
    connections, emissions and throwing callbacks in which no signal is
    destroyed, the header signals.h and its alternate version come to the
    same outcome from states that agree: the same callbacks invoked with the
    same arguments in the same order, the same completion, and final states
    with the same lists, connections and token stack. *)
Theorem versions_agree_while_signal_is_not_destroyed
    (body : nat → nat → list action) (prog : list action) (fuel depth : nat)
    (sA : state (iteration_token (option nat))) (sB : state (iteration_token bool))
    (tr : list (nat * nat)) :
  (∀ f arg, no_destruction (body f arg)) →
  no_destruction prog →
  agree sA sB →
  same_outcome (signals.exec body fuel depth prog (sA, tr))
               (alt.exec body fuel depth prog (sB, tr)) ∧
  same_outcome (signals.exec body fuel 0 prog (empty_state, []))
               (alt.exec body fuel 0 prog (empty_state, [])).
Proof.
  intros Hbody Hprog Hag. split.
  - eapply run_agree_same_outcome. by apply exec_sim.
  - eapply run_agree_same_outcome. apply exec_sim; try done. apply agree_empty.
Qed.

(** Two emissions over three connections, the first callback
    disconnecting the second connection. *)
Lemma versions_agree_while_signal_is_not_destroyed_witness :
  same_outcome
    (signals.exec scenario.disconnect_next 10 0 (scenario.setup ++ [Emit 0 7; Emit 0 8])
       (empty_state, []))
    (alt.exec scenario.disconnect_next 10 0 (scenario.setup ++ [Emit 0 7; Emit 0 8])
       (empty_state, [])).
Proof.
  apply (versions_agree_while_signal_is_not_destroyed scenario.disconnect_next
           (scenario.setup ++ [Emit 0 7; Emit 0 8]) 10 0 empty_state empty_state []).
  - intros [|[|f]] arg; repeat constructor.
  - repeat constructor.
  - exact agree_empty.
Defined.

(** * Further properties of the intrusive list *)

Section list_more.
Implicit Type h : gmap nat list_element.

Lemma inserted_unique h h1 h2 x p n :
  inserted h h1 x p n → inserted h h2 x p n → h1 = h2.
Proof.
  intros [Hn1 Hp1] [Hn2 Hp2]. apply heap_ext; intros a.
  - by rewrite Hn1, Hn2.
  - by rewrite Hp1, Hp2.
Qed.

(** Unlinking what was just linked gives the heap back, when the node was
    a loop of its own before. *)
Lemma inserted_removed h h1 h2 x p n :
  inserted h h1 x p n → removed h1 h2 x p n →
  load_next h x = Some x → load_prev h x = Some x →
  load_next h p = Some n → load_prev h n = Some p →
  h2 = h.
Proof.
  intros [Hn1 Hp1] [Hn2 Hp2] Hx1 Hx2 Hpn Hnp. apply heap_ext; intros a.
  - rewrite Hn2, Hn1. repeat case_decide; simplify_eq; done.
  - rewrite Hp2, Hp1. repeat case_decide; simplify_eq; done.
Qed.

Lemma dll_elem_ne h f xs x : dll h f xs → x ∈ xs → x ≠ f.
Proof. intros [Hnd _] Hx ->. by apply NoDup_cons in Hnd as [? _]. Qed.

Lemma dll_link_back h f xs : dll h f xs →
  load_next h (List.last xs f) = Some f ∧ load_prev h (hd f xs) = Some f.
Proof.
  intros [_ Hc]. split; [by eapply chain_last_next|by eapply chain_first_prev].
Qed.
End list_more.

(** X1: unlinking a member of a list takes exactly that node out, the
    others keeping their order; the node is then not linked, and unlinking
    it once more changes nothing. *)
Theorem unlink_member_then_again (h : gmap nat list_element) (f : nat)
    (l1 : list nat) (x : nat) (l2 : list nat) :
  dll h f (l1 ++ x :: l2) →
  ∃ h', unlink x h = Some h' ∧ dll h' f (l1 ++ l2) ∧
        is_linked x h' = Some false ∧ unlink x h' = Some h' ∧
        (∀ a, a ≠ x → a ≠ List.last l1 f → a ≠ hd f l2 → h' !! a = h !! a).
Proof.
  intros Hd. destruct (dll_unlink _ _ _ _ _ Hd) as (h' & Hu & Hr & Hd').
  destruct (removed_self _ _ _ _ _ Hr) as [Hn Hp].
  exists h'. split_and!; try done.
  - by apply unlinked_is_linked.
  - by apply unlink_unlinked.
  - intros a ? ? ?. by eapply removed_frame.
Qed.

Lemma unlink_member_then_again_witness :
  ∃ h', unlink 2 (nodes scenario.linked3) = Some h' ∧ dll h' 0 ([1] ++ [3]) ∧
        is_linked 2 h' = Some false ∧ unlink 2 h' = Some h' ∧
        (∀ a, a ≠ 2 → a ≠ List.last [1] 0 → a ≠ hd 0 [3] →
              h' !! a = nodes scenario.linked3 !! a).
Proof.
  apply (unlink_member_then_again (nodes scenario.linked3) 0 [1] 2 [3]).
  exact linked3_dll.
Defined.

(** X2: on an empty list [pop_front], [pop_back], [erase(end())] and
    [clear] change nothing: the sentinel unlinks itself, which is a loop of
    its own already. *)
Theorem operations_on_empty_list (h : gmap nat list_element) (f fuel : nat) :
  dll h f [] →
  list.pop_front f h = Some h ∧ list.pop_back f h = Some h ∧
  list.erase (list.end_ f) h = Some (list.end_ f, h) ∧
  list.clear (S fuel) f h = Some (Some h).
Proof.
  intros Hd. destruct (dll_nil_self _ _ Hd) as [Hn Hp].
  pose proof (unlink_unlinked h f Hn Hp) as Hu.
  split_and!.
  - unfold list.pop_front. by rewrite Hn.
  - unfold list.pop_back. by rewrite Hp.
  - unfold list.erase, list.non_const_transform, list.end_.
    rewrite Hp. simpl. rewrite Hn. simpl. rewrite Hn. simpl. rewrite Hp. simpl.
    by rewrite Hu.
  - simpl. unfold list.empty. rewrite Hn. simpl. by rewrite Nat.eqb_refl.
Qed.

Lemma operations_on_empty_list_witness :
  list.pop_front 0 {[0 := ListElement 0 0]} = Some {[0 := ListElement 0 0]} ∧
  list.pop_back 0 {[0 := ListElement 0 0]} = Some {[0 := ListElement 0 0]} ∧
  list.erase (list.end_ 0) {[0 := ListElement 0 0]} =
    Some (list.end_ 0, {[0 := ListElement 0 0]}) ∧
  list.clear 1 0 {[0 := ListElement 0 0]} = Some (Some {[0 := ListElement 0 0]}).
Proof.
  apply (operations_on_empty_list {[0 := ListElement 0 0]} 0 0).
  split; [apply NoDup_singleton|]. by vm_compute.
Defined.

(** A live node 5 that is a loop of its own, beside the list 1, 2, 3. *)
Lemma linked3_and_5_dll :
  dll (<[5 := ListElement 5 5]> (nodes scenario.linked3)) 0 [1; 2; 3].
Proof.
  eapply dll_frame; [exact linked3_dll|]. intros a Ha.
  apply lookup_insert_ne. set_solver.
Defined.

(** X3: [push_back] puts an unlinked node last, where [back()] finds it, and
    [pop_back] right after gives the heap of before; the same holds of
    [push_front], [front()] and [pop_front] at the other end. *)
Theorem push_then_pop_restores (h : gmap nat list_element) (f : nat)
    (xs : list nat) (x : nat) :
  dll h f xs → x ∉ f :: xs →
  load_next h x = Some x → load_prev h x = Some x →
  (∃ h1, list.push_back f x h = Some h1 ∧ dll h1 f (xs ++ [x]) ∧
         list.back f h1 = Some x ∧ list.pop_back f h1 = Some h) ∧
  (∃ h1, list.push_front f x h = Some h1 ∧ dll h1 f (x :: xs) ∧
         list.front f h1 = Some x ∧ list.pop_front f h1 = Some h).
Proof.
  intros Hd Hx Hxn Hxp.
  assert (is_Some (h !! x)) as Hlive by (by eapply load_next_alloc).
  destruct (dll_link_back _ _ _ Hd) as [Hlast Hfirst].
  destruct Hd as [Hnd Hc]. pose proof (chain_last _ _ _ _ Hc) as Hfp.
  pose proof (chain_first _ _ _ _ Hc) as Hfn.
  split.
  - destruct (dll_push_back h f xs x (conj Hnd Hc) Hx Hlive) as (h1 & Hpush & Hi & Hd1).
    exists h1. split_and!; try done.
    + unfold list.back. rewrite (dll_back _ _ _ Hd1). by rewrite last_last.
    + unfold list.pop_back. rewrite (dll_back _ _ _ Hd1), last_last. simpl.
      destruct (dll_unlink h1 f xs x [] Hd1) as (h2 & -> & Hr & _).
      f_equal. by eapply inserted_removed.
  - destruct (dll_push_front h f xs x (conj Hnd Hc) Hx Hlive) as (h1 & Hpush & Hi & Hd1).
    exists h1. split_and!; try done.
    + unfold list.front. by rewrite (dll_begin _ _ _ Hd1).
    + unfold list.pop_front. rewrite (dll_begin _ _ _ Hd1). simpl.
      destruct (dll_unlink h1 f [] x xs Hd1) as (h2 & -> & Hr & _).
      f_equal. by eapply inserted_removed.
Qed.

Lemma push_then_pop_restores_witness :
  (∃ h1, list.push_back 0 5 (<[5 := ListElement 5 5]> (nodes scenario.linked3)) = Some h1 ∧
         dll h1 0 ([1; 2; 3] ++ [5]) ∧ list.back 0 h1 = Some 5 ∧
         list.pop_back 0 h1 = Some (<[5 := ListElement 5 5]> (nodes scenario.linked3))) ∧
  (∃ h1, list.push_front 0 5 (<[5 := ListElement 5 5]> (nodes scenario.linked3)) = Some h1 ∧
         dll h1 0 (5 :: [1; 2; 3]) ∧ list.front 0 h1 = Some 5 ∧
         list.pop_front 0 h1 = Some (<[5 := ListElement 5 5]> (nodes scenario.linked3))).
Proof.
  apply (push_then_pop_restores (<[5 := ListElement 5 5]> (nodes scenario.linked3))
           0 [1; 2; 3] 5).
  - exact linked3_and_5_dll.
  - set_solver.
  - reflexivity.
  - reflexivity.
Defined.

(** X4: on a list, [insert(begin(), x)] does to the heap what
    [push_front(x)] does, and [insert(end(), x)] what [push_back(x)] does;
    [insert] returns the iterator of the new node. *)
Theorem insert_at_ends_is_push (h : gmap nat list_element) (f : nat)
    (xs : list nat) (x : nat) (b : nat) :
  dll h f xs → x ∉ f :: xs → is_Some (h !! x) →
  list.begin f h = Some b →
  list.insert b x h = (λ h', (x, h')) <$> list.push_front f x h ∧
  list.insert (list.end_ f) x h = (λ h', (x, h')) <$> list.push_back f x h ∧
  is_Some (list.push_front f x h) ∧ is_Some (list.push_back f x h).
Proof.
  intros Hd Hx Hlive Hb. unfold list.begin in Hb.
  rewrite (dll_begin _ _ _ Hd) in Hb. simplify_eq.
  destruct (dll_push_front h f xs x Hd Hx Hlive) as (h1 & Hpf & Hi1 & _).
  destruct (dll_push_back h f xs x Hd Hx Hlive) as (h2 & Hpb & Hi2 & _).
  destruct (dll_insert h f [] xs x Hd Hx Hlive) as (h3 & Hins3 & Hi3 & _).
  destruct (dll_insert h f xs [] x) as (h4 & Hins4 & Hi4 & _);
    rewrite ?app_nil_r; try done.
  simpl in *. unfold list.end_. rewrite Hpf, Hpb, Hins3, Hins4. simpl.
  rewrite (inserted_unique _ _ _ _ _ _ Hi3 Hi1), (inserted_unique _ _ _ _ _ _ Hi4 Hi2).
  split_and!; eauto.
Qed.

Lemma insert_at_ends_is_push_witness :
  list.insert 1 5 (<[5 := ListElement 5 5]> (nodes scenario.linked3)) =
    (λ h', (5, h')) <$>
      list.push_front 0 5 (<[5 := ListElement 5 5]> (nodes scenario.linked3)) ∧
  list.insert (list.end_ 0) 5 (<[5 := ListElement 5 5]> (nodes scenario.linked3)) =
    (λ h', (5, h')) <$>
      list.push_back 0 5 (<[5 := ListElement 5 5]> (nodes scenario.linked3)) ∧
  is_Some (list.push_front 0 5 (<[5 := ListElement 5 5]> (nodes scenario.linked3))) ∧
  is_Some (list.push_back 0 5 (<[5 := ListElement 5 5]> (nodes scenario.linked3))).
Proof.
  apply (insert_at_ends_is_push (<[5 := ListElement 5 5]> (nodes scenario.linked3))
           0 [1; 2; 3] 5 1).
  - exact linked3_and_5_dll.
  - set_solver.
  - eexists. reflexivity.
  - reflexivity.
Defined.

(** X5: [insert(pos, x)] links [x] directly in front of [pos] and returns its
    iterator; [erase] of that iterator returns [pos] again and, [x] having
    been unlinked before, gives the heap of before. *)
Theorem insert_then_erase_restores (h : gmap nat list_element) (f : nat)
    (l1 l2 : list nat) (x : nat) :
  dll h f (l1 ++ l2) → x ∉ f :: l1 ++ l2 →
  load_next h x = Some x → load_prev h x = Some x →
  ∃ h1, list.insert (hd f l2) x h = Some (x, h1) ∧
        dll h1 f (l1 ++ x :: l2) ∧
        list.erase x h1 = Some (hd f l2, h).
Proof.
  intros Hd Hx Hxn Hxp.
  assert (is_Some (h !! x)) as Hlive by (by eapply load_next_alloc).
  destruct (dll_insert h f l1 l2 x Hd Hx Hlive) as (h1 & Hins & Hi & Hd1).
  exists h1. split_and!; try done.
  unfold list.erase. rewrite (dll_non_const_transform h1 f _ x Hd1) by set_solver.
  simpl. destruct (dll_neighbours _ _ _ _ _ Hd1) as [Hp Hn]. rewrite Hn. simpl.
  destruct Hd1 as [Hnd1 Hc1]. pose proof Hc1 as Hc1'. apply chain_app in Hc1' as [_ Hc2].
  rewrite (chain_first_prev _ _ _ _ Hc2). simpl.
  destruct (dll_unlink h1 f l1 x l2 (conj Hnd1 Hc1)) as (h2 & -> & Hr & _).
  simpl. do 2 f_equal. eapply inserted_removed; try done.
  - destruct Hd as [_ Hc]. destruct l2 as [|y l2].
    + rewrite app_nil_r in Hc. simpl. by eapply chain_last_next.
    + by destruct (chain_neighbours _ _ _ _ _ _ Hc) as [_ ?];
        apply chain_app in Hc as [Hc _]; simpl; eapply chain_last_next.
  - destruct Hd as [_ Hc]. destruct l2 as [|y l2].
    + rewrite app_nil_r in Hc. simpl. by eapply chain_last.
    + by destruct (chain_neighbours _ _ _ _ _ _ Hc) as [? _].
Qed.

Lemma insert_then_erase_restores_witness :
  ∃ h1, list.insert (hd 0 [2; 3]) 5 (<[5 := ListElement 5 5]> (nodes scenario.linked3)) =
          Some (5, h1) ∧
        dll h1 0 ([1] ++ 5 :: [2; 3]) ∧
        list.erase 5 h1 =
          Some (hd 0 [2; 3], <[5 := ListElement 5 5]> (nodes scenario.linked3)).
Proof.
  apply (insert_then_erase_restores (<[5 := ListElement 5 5]> (nodes scenario.linked3))
           0 [1] [2; 3] 5).
  - exact linked3_and_5_dll.
  - set_solver.
  - reflexivity.
  - reflexivity.
Defined.

(** X6: [erase(pos)] of a member takes exactly that node out, which is then
    not linked, and returns the iterator of its successor, [end()] when it was
    the last. *)
Theorem erase_member_returns_successor (h : gmap nat list_element) (f : nat)
    (l1 : list nat) (x : nat) (l2 : list nat) :
  dll h f (l1 ++ x :: l2) →
  ∃ h', list.erase x h = Some (hd (list.end_ f) l2, h') ∧
        dll h' f (l1 ++ l2) ∧ is_linked x h' = Some false ∧
        (∀ a, a ≠ x → a ≠ List.last l1 f → a ≠ hd f l2 → h' !! a = h !! a).
Proof.
  intros Hd.
  unfold list.erase. rewrite (dll_non_const_transform h f _ x Hd) by set_solver.
  simpl. destruct (dll_neighbours _ _ _ _ _ Hd) as [Hp Hn]. rewrite Hn. simpl.
  destruct Hd as [Hnd Hc]. pose proof Hc as Hc'. apply chain_app in Hc' as [_ Hc2].
  rewrite (chain_first_prev _ _ _ _ Hc2). simpl.
  destruct (dll_unlink h f l1 x l2 (conj Hnd Hc)) as (h' & -> & Hr & Hd').
  destruct (removed_self _ _ _ _ _ Hr) as [Hxn Hxp].
  exists h'. split_and!; try done.
  - by apply unlinked_is_linked.
  - intros a ? ? ?. by eapply removed_frame.
Qed.

Lemma erase_member_returns_successor_witness :
  ∃ h', list.erase 3 (nodes scenario.linked3) = Some (hd (list.end_ 0) [], h') ∧
        dll h' 0 ([1; 2] ++ []) ∧ is_linked 3 h' = Some false ∧
        (∀ a, a ≠ 3 → a ≠ List.last [1; 2] 0 → a ≠ hd 0 [] →
              h' !! a = nodes scenario.linked3 !! a).
Proof.
  apply (erase_member_returns_successor (nodes scenario.linked3) 0 [1; 2] 3 []).
  exact linked3_dll.
Defined.

(** X7: [clear()] on a list of [n] elements ends within [n + 1] turns of its
    loop with the list empty, every former member unlinked and every other
    node untouched; the destructor of the list does the same and then ends
    the lifetime of the sentinel. *)
Theorem clear_unlinks_every_member (h : gmap nat list_element) (f : nat)
    (cs : list nat) (fuel : nat) :
  dll h f cs → length cs < fuel →
  (∃ h', list.clear fuel f h = Some (Some h') ∧ dll h' f [] ∧
         list.empty f h' = Some true ∧
         (∀ c, c ∈ cs → is_linked c h' = Some false) ∧
         (∀ a, a ∉ f :: cs → h' !! a = h !! a)) ∧
  (∃ h', list.dtor fuel f h = Some (Some h') ∧ h' !! f = None ∧
         (∀ c, c ∈ cs → is_linked c h' = Some false) ∧
         (∀ a, a ∉ f :: cs → h' !! a = h !! a)).
Proof.
  intros Hd Hfuel.
  destruct (list_clear_spec f cs h fuel Hd Hfuel) as (h' & Hcl & Hd' & Hun & Hfr).
  destruct (dll_nil_self _ _ Hd') as [Hfn Hfp].
  split.
  - exists h'. split_and!; try done.
    + by rewrite (dll_empty _ _ _ Hd').
    + intros c Hc. destruct (Hun c Hc). by apply unlinked_is_linked.
  - exists (delete f h'). unfold list.dtor, list_element_dtor. rewrite Hcl. simpl.
    rewrite (unlink_unlinked h' f Hfn Hfp). simpl. split_and!; try done.
    + apply lookup_delete_eq.
    + intros c Hc. destruct (Hun c Hc) as [Hcn Hcp].
      pose proof (dll_elem_ne _ _ _ _ Hd Hc) as Hne.
      apply unlinked_is_linked; unfold load_next, load_prev in *;
        by rewrite lookup_delete_ne.
    + intros a Ha. rewrite lookup_delete_ne by set_solver. by apply Hfr.
Qed.

Lemma clear_unlinks_every_member_witness :
  (∃ h', list.clear 4 0 (nodes scenario.linked3) = Some (Some h') ∧ dll h' 0 [] ∧
         list.empty 0 h' = Some true ∧
         (∀ c, c ∈ [1; 2; 3] → is_linked c h' = Some false) ∧
         (∀ a, a ∉ 0 :: [1; 2; 3] → h' !! a = nodes scenario.linked3 !! a)) ∧
  (∃ h', list.dtor 4 0 (nodes scenario.linked3) = Some (Some h') ∧ h' !! 0 = None ∧
         (∀ c, c ∈ [1; 2; 3] → is_linked c h' = Some false) ∧
         (∀ a, a ∉ 0 :: [1; 2; 3] → h' !! a = nodes scenario.linked3 !! a)).
Proof.
  apply (clear_unlinks_every_member (nodes scenario.linked3) 0 [1; 2; 3] 4).
  - exact linked3_dll.
  - simpl. lia.
Defined.

(** X8: on a list the iterator steps are inverse to each other at every
    position, the sentinel included, and [it++] and [it--], which read the
    returned iterator back through the node they moved to, return the
    position they started from. *)
Theorem iterator_steps_are_inverse (h : gmap nat list_element) (f : nat)
    (xs : list nat) (it : nat) :
  dll h f xs → it ∈ f :: xs →
  ∃ n p, list.iterator_incr it h = Some n ∧ list.iterator_decr it h = Some p ∧
         n ∈ f :: xs ∧ p ∈ f :: xs ∧
         list.iterator_decr n h = Some it ∧ list.iterator_incr p h = Some it ∧
         list.iterator_post_incr it h = Some (n, it) ∧
         list.iterator_post_decr it h = Some (p, it).
Proof.
  intros Hd Hit.
  assert (∃ n p, load_next h it = Some n ∧ load_prev h it = Some p ∧
                 n ∈ f :: xs ∧ p ∈ f :: xs ∧
                 load_prev h n = Some it ∧ load_next h p = Some it)
    as (n & p & Hn & Hp & Hnin & Hpin & Hnp & Hpn).
  { apply elem_of_cons in Hit as [->|Hit].
    - destruct Hd as [Hnd Hc]. exists (hd f xs), (List.last xs f).
      split_and!.
      + by eapply chain_first.
      + by eapply chain_last.
      + pose proof (hd_in xs f). set_solver.
      + pose proof (last_in xs f). set_solver.
      + by eapply chain_first_prev.
      + by eapply chain_last_next.
    - apply list_elem_of_split in Hit as (l1 & l2 & ->).
      destruct (dll_neighbours _ _ _ _ _ Hd) as [Hp Hn].
      destruct Hd as [Hnd Hc]. apply chain_app in Hc as [Hc1 Hc2].
      exists (hd f l2), (List.last l1 f). split_and!; try done.
      + pose proof (hd_in l2 f). set_solver.
      + pose proof (last_in l1 f). set_solver.
      + by eapply chain_first_prev.
      + by eapply chain_last_next. }
  exists n, p.
  unfold list.iterator_incr, list.iterator_decr, list.iterator_post_incr,
    list.iterator_post_decr.
  rewrite Hn, Hp. simpl. rewrite Hnp, Hpn. done.
Qed.

Lemma iterator_steps_are_inverse_witness :
  ∃ n p, list.iterator_incr 3 (nodes scenario.linked3) = Some n ∧
         list.iterator_decr 3 (nodes scenario.linked3) = Some p ∧
         n ∈ 0 :: [1; 2; 3] ∧ p ∈ 0 :: [1; 2; 3] ∧
         list.iterator_decr n (nodes scenario.linked3) = Some 3 ∧
         list.iterator_incr p (nodes scenario.linked3) = Some 3 ∧
         list.iterator_post_incr 3 (nodes scenario.linked3) = Some (n, 3) ∧
         list.iterator_post_decr 3 (nodes scenario.linked3) = Some (p, 3).
Proof.
  apply (iterator_steps_are_inverse (nodes scenario.linked3) 0 [1; 2; 3] 3).
  - exact linked3_dll.
  - set_solver.
Defined.

Section swap.
Implicit Type h : gmap nat list_element.

(** [std::swap] of two [prev] fields, and of two [next] fields. *)
Lemma swap_prev_fields h u v a b :
  load_prev h u = Some a → load_prev h v = Some b →
  ∃ h1 h2, store_prev u b h = Some h1 ∧ store_prev v a h1 = Some h2 ∧
    (∀ x, load_next h2 x = load_next h x) ∧
    (∀ x, load_prev h2 x = if decide (x = v) then Some a
                           else if decide (x = u) then Some b else load_prev h x).
Proof.
  intros Hu Hv. eexists _, _. split; [heap_solve|]. split; [heap_solve|].
  split; intros x; heap_solve.
Qed.

Lemma swap_next_fields h u v a b :
  load_next h u = Some a → load_next h v = Some b →
  ∃ h1 h2, store_next u b h = Some h1 ∧ store_next v a h1 = Some h2 ∧
    (∀ x, load_prev h2 x = load_prev h x) ∧
    (∀ x, load_next h2 x = if decide (x = v) then Some a
                           else if decide (x = u) then Some b else load_next h x).
Proof.
  intros Hu Hv. eexists _, _. split; [heap_solve|]. split; [heap_solve|].
  split; intros x; heap_solve.
Qed.

#[local] Opaque store_prev store_next load_prev load_next.

Lemma swap_pointwise h A B a1 n1 a2 n2 :
  load_prev h A = Some a1 → load_next h A = Some n1 →
  load_next h a1 = Some A → load_prev h n1 = Some A →
  load_prev h B = Some a2 → load_next h B = Some n2 →
  load_next h a2 = Some B → load_prev h n2 = Some B →
  A ≠ B → a1 ≠ B → n1 ≠ B → a2 ≠ A → n2 ≠ A →
  a1 ≠ a2 → a1 ≠ n2 → n1 ≠ a2 → n1 ≠ n2 →
  (a1 = A ↔ n1 = A) → (a2 = B ↔ n2 = B) →
  ∃ h', list.swap A B h = Some h' ∧
    (∀ a, load_next h' a =
          if decide (a = A) then Some (if decide (n2 = B) then A else n2)
          else if decide (a = B) then Some (if decide (n1 = A) then B else n1)
          else if decide (a = a2) then Some A
          else if decide (a = a1) then Some B else load_next h a) ∧
    (∀ a, load_prev h' a =
          if decide (a = A) then Some (if decide (a2 = B) then A else a2)
          else if decide (a = B) then Some (if decide (a1 = A) then B else a1)
          else if decide (a = n2) then Some A
          else if decide (a = n1) then Some B else load_prev h a).
Proof.
  intros HAp HAn Ha1 Hn1 HBp HBn Ha2 Hn2 H H0 H1 H2 H3 H4 H5 H6 H7 HeA HeB.
  assert (a1 = A ∧ n1 = A ∨ a1 ≠ A ∧ n1 ≠ A) as HcA by (destruct (decide (a1 = A)); tauto).
  assert (a2 = B ∧ n2 = B ∨ a2 ≠ B ∧ n2 ≠ B) as HcB by (destruct (decide (a2 = B)); tauto).
  clear HeA HeB.
  unfold list.swap. rewrite HAp, HBp. simpl.
  destruct (swap_prev_fields h A B a1 a2 HAp HBp) as (? & h1 & Ea & Eb & Hn_1 & Hp_1).
  rewrite Ea. simpl. rewrite Eb. simpl. clear Ea Eb.
  assert (load_prev h1 A = Some a2) as E1.
  { rewrite Hp_1. by rewrite decide_False, decide_True. }
  assert (load_prev h1 B = Some a1) as E2.
  { rewrite Hp_1. by rewrite decide_True. }
  rewrite E1, E2. simpl. rewrite !Hn_1, Ha2, Ha1. simpl.
  destruct (swap_next_fields h1 a2 a1 B A) as (? & h2 & Ea & Eb & Hp_2 & Hn_2);
    [by rewrite Hn_1..|]. rewrite Ea. simpl. rewrite Eb. simpl. clear Ea Eb.
  set (c1 := if decide (a1 = A) then B else n1).
  set (c2 := if decide (a2 = B) then A else n2).
  assert (load_next h2 A = Some c1) as E3.
  { rewrite Hn_2, Hn_1. unfold c1. repeat (case_decide; simplify_eq; try done). }
  assert (load_next h2 B = Some c2) as E4.
  { rewrite Hn_2, Hn_1. unfold c2. repeat (case_decide; simplify_eq; try done). }
  rewrite E3, E4. simpl.
  destruct (swap_next_fields h2 A B c1 c2 E3 E4) as (? & h3 & Ea & Eb & Hp_3 & Hn_3).
  rewrite Ea. simpl. rewrite Eb. simpl. clear Ea Eb.
  assert (load_next h3 A = Some c2) as E5.
  { rewrite Hn_3. by rewrite decide_False, decide_True. }
  assert (load_next h3 B = Some c1) as E6.
  { rewrite Hn_3. by rewrite decide_True. }
  rewrite E5, E6. simpl.
  assert (load_prev h3 c2 = Some B) as E7.
  { rewrite Hp_3, Hp_2, Hp_1. unfold c2. clear -HcA HcB H H0 H1 H2 H3 H4 H5 H6 H7 Hn2 Hn1.
    destruct HcA as [[? ?]|[? ?]], HcB as [[? ?]|[? ?]]; simplify_eq;
      repeat (case_decide; simplify_eq; try done). }
  assert (load_prev h3 c1 = Some A) as E8.
  { rewrite Hp_3, Hp_2, Hp_1. unfold c1. clear -HcA HcB H H0 H1 H2 H3 H4 H5 H6 H7 Hn2 Hn1.
    destruct HcA as [[? ?]|[? ?]], HcB as [[? ?]|[? ?]]; simplify_eq;
      repeat (case_decide; simplify_eq; try done). }
  rewrite E7, E8. simpl.
  destruct (swap_prev_fields h3 c2 c1 B A E7 E8) as (? & h4 & Ea & Eb & Hn_4 & Hp_4).
  rewrite Ea. simpl. rewrite Eb. exists h4. split; [done|]. split; intros a.
  - rewrite Hn_4, Hn_3, Hn_2, Hn_1. unfold c1, c2.
    clear -HcA HcB H H0 H1 H2 H3 H4 H5 H6 H7.
    destruct HcA as [[? ?]|[? ?]], HcB as [[? ?]|[? ?]]; simplify_eq;
      repeat (case_decide; simplify_eq; try done).
  - rewrite Hp_4, Hp_3, Hp_2, Hp_1. unfold c1, c2.
    clear -HcA HcB H H0 H1 H2 H3 H4 H5 H6 H7.
    destruct HcA as [[? ?]|[? ?]], HcB as [[? ?]|[? ?]]; simplify_eq;
      repeat (case_decide; simplify_eq; try done).
Qed.

#[local] Transparent store_prev store_next load_prev load_next.
End swap.

Section swap_lists.
Implicit Type h : gmap nat list_element.

(** The chain of one sentinel, hung on another. *)
Lemma chain_rehang h h' A B ys :
  chain h B ys B → NoDup (B :: ys) →
  load_next h' A = Some (hd A ys) → load_prev h' A = Some (List.last ys A) →
  (∀ s, s ∈ ys → s ≠ List.last ys B → load_next h' s = load_next h s) →
  (∀ t, t ∈ ys → t ≠ hd B ys → load_prev h' t = load_prev h t) →
  (ys ≠ [] → load_next h' (List.last ys B) = Some A ∧
             load_prev h' (hd B ys) = Some A) →
  chain h' A ys A.
Proof.
  intros Hc Hnd HAn HAp Hn Hp Hends. destruct ys as [|y ys]; [done|].
  destruct Hc as [_ Hc]. destruct Hends as [Hl Hf]; [done|].
  rewrite last_cons in Hl, HAp. apply NoDup_cons in Hnd as [_ Hnd].
  split; [done|].
  eapply chain_retarget; [exact Hc|..]; try done.
  - intros s Hs Hne. apply Hn; [done|]. by rewrite last_cons.
  - intros t Ht. apply Hp; [set_solver|]. simpl. intros ->.
    by apply NoDup_cons in Hnd as [? _].
Qed.

Lemma dll_ends_empty h f xs :
  dll h f xs → List.last xs f = f ↔ hd f xs = f.
Proof.
  intros [Hnd _]. apply NoDup_cons in Hnd as [Hf _].
  destruct xs as [|x xs]; [done|]. simpl hd. rewrite last_cons.
  pose proof (last_in xs x). split; intros E; set_solver.
Qed.

(** [swap] on the sentinels of two lists exchanges what they hold. *)
Lemma swap_dll h A B xs ys :
  dll h A xs → dll h B ys → (∀ a, a ∈ A :: xs → a ∉ B :: ys) →
  ∃ h', list.swap A B h = Some h' ∧ dll h' A ys ∧ dll h' B xs ∧
        (∀ a, a ∉ A :: xs → a ∉ B :: ys → h' !! a = h !! a) ∧ dom h' = dom h.
Proof.
  intros HdA HdB Hdisj.
  pose proof (dll_ends_empty _ _ _ HdA) as HeA.
  pose proof (dll_ends_empty _ _ _ HdB) as HeB.
  pose proof HdA as [HndA HcA]. pose proof HdB as [HndB HcB].
  pose proof (last_in xs A) as Ha1. pose proof (last_in ys B) as Ha2.
  assert (hd A xs ∈ A :: xs) as Hn1.
  { destruct xs; [apply list_elem_of_here|apply list_elem_of_further, list_elem_of_here]. }
  assert (hd B ys ∈ B :: ys) as Hn2.
  { destruct ys; [apply list_elem_of_here|apply list_elem_of_further, list_elem_of_here]. }
  assert (∀ x y, x ∈ A :: xs → y ∈ B :: ys → x ≠ y) as Hne.
  { intros x y Hx Hy ->. by apply (Hdisj y). }
  assert (A ∈ A :: xs) as HAin by apply list_elem_of_here.
  assert (B ∈ B :: ys) as HBin by apply list_elem_of_here.
  assert (A ∉ xs) as HAxs by (by apply NoDup_cons in HndA as [? _]).
  assert (B ∉ ys) as HBys by (by apply NoDup_cons in HndB as [? _]).
  assert (∀ y, y ∈ ys → y ∈ B :: ys) as Hys by (intros; by apply list_elem_of_further).
  assert (∀ x, x ∈ xs → x ∈ A :: xs) as Hxs by (intros; by apply list_elem_of_further).
  destruct (swap_pointwise h A B (List.last xs A) (hd A xs) (List.last ys B) (hd B ys))
    as (h' & Hs & Hn & Hp).
  { by eapply chain_last. }
  { by eapply chain_first. }
  { by eapply chain_last_next. }
  { by eapply chain_first_prev. }
  { by eapply chain_last. }
  { by eapply chain_first. }
  { by eapply chain_last_next. }
  { by eapply chain_first_prev. }
  { by apply Hne. }
  { by apply Hne. }
  { by apply Hne. }
  { by apply not_eq_sym, Hne. }
  { by apply not_eq_sym, Hne. }
  { by apply Hne. }
  { by apply Hne. }
  { by apply Hne. }
  { by apply Hne. }
  { done. }
  { done. }
  exists h'. split; [done|].
  assert (ys ≠ [] → List.last ys B ≠ B ∧ hd B ys ≠ B) as HysB.
  { destruct ys as [|y ys]; [done|]. intros _. split.
    - intros E. rewrite last_cons in E. pose proof (last_in ys y) as Hl.
      rewrite E in Hl. by apply HBys.
    - simpl. intros ->. apply HBys, list_elem_of_here. }
  assert (xs ≠ [] → List.last xs A ≠ A ∧ hd A xs ≠ A) as HxsA.
  { destruct xs as [|x xs]; [done|]. intros _. split.
    - intros E. rewrite last_cons in E. pose proof (last_in xs x) as Hl.
      rewrite E in Hl. by apply HAxs.
    - simpl. intros ->. apply HAxs, list_elem_of_here. }
  split_and!.
  - split; [|eapply (chain_rehang h h' A B ys)]; try done.
    + apply NoDup_cons. split; [|by apply NoDup_cons in HndB as [_ ?]].
      intros Hin. apply (Hne A A HAin); [by apply Hys|done].
    + rewrite Hn, decide_True by done. f_equal.
      destruct ys as [|y ys]; [by rewrite decide_True|].
      rewrite decide_False; [done|]. by apply HysB.
    + rewrite Hp, decide_True by done. f_equal.
      destruct ys as [|y ys]; [by rewrite decide_True|].
      rewrite decide_False; [by rewrite !last_cons|]. by apply HysB.
    + intros s Hs' Hne'. rewrite Hn.
      rewrite decide_False by (apply not_eq_sym, Hne; [done|by apply Hys]).
      rewrite decide_False by (by intros ->).
      rewrite decide_False by done.
      rewrite decide_False; [done|]. apply not_eq_sym, Hne; [done|by apply Hys].
    + intros t Ht Hne'. rewrite Hp.
      rewrite decide_False by (apply not_eq_sym, Hne; [done|by apply Hys]).
      rewrite decide_False by (by intros ->).
      rewrite decide_False by done.
      rewrite decide_False; [done|]. apply not_eq_sym, Hne; [done|by apply Hys].
    + intros Hnil. destruct (HysB Hnil) as [HlB HhB]. split.
      * rewrite Hn. rewrite decide_False by (by apply not_eq_sym, Hne).
        rewrite decide_False by done. by rewrite decide_True.
      * rewrite Hp. rewrite decide_False by (by apply not_eq_sym, Hne).
        rewrite decide_False by done. by rewrite decide_True.
  - split; [|eapply (chain_rehang h h' B A xs)]; try done.
    + apply NoDup_cons. split; [|by apply NoDup_cons in HndA as [_ ?]].
      intros Hin. apply (Hne B B); [by apply Hxs|done|done].
    + rewrite Hn, decide_False, decide_True by (try done; by apply not_eq_sym, Hne).
      f_equal. destruct xs as [|x xs]; [by rewrite decide_True|].
      rewrite decide_False; [done|]. by apply HxsA.
    + rewrite Hp, decide_False, decide_True by (try done; by apply not_eq_sym, Hne).
      f_equal. destruct xs as [|x xs]; [by rewrite decide_True|].
      rewrite decide_False; [by rewrite !last_cons|]. by apply HxsA.
    + intros s Hs' Hne'. rewrite Hn.
      rewrite decide_False by (by intros ->).
      rewrite decide_False by (apply Hne; [by apply Hxs|done]).
      rewrite decide_False by (apply Hne; [by apply Hxs|done]).
      by rewrite decide_False.
    + intros t Ht Hne'. rewrite Hp.
      rewrite decide_False by (by intros ->).
      rewrite decide_False by (apply Hne; [by apply Hxs|done]).
      rewrite decide_False by (apply Hne; [by apply Hxs|done]).
      by rewrite decide_False.
    + intros Hnil. destruct (HxsA Hnil) as [HlA HhA]. split.
      * rewrite Hn. rewrite decide_False by done.
        rewrite decide_False by (by apply Hne).
        rewrite decide_False by (by apply Hne).
        by rewrite decide_True.
      * rewrite Hp. rewrite decide_False by done.
        rewrite decide_False by (by apply Hne).
        rewrite decide_False by (by apply Hne).
        by rewrite decide_True.
  - intros a HaA HaB. apply lookup_loads.
    + rewrite Hn. repeat (rewrite decide_False; [|by intros ->]). done.
    + rewrite Hp. repeat (rewrite decide_False; [|by intros ->]). done.
  - apply loads_dom. intros a. rewrite Hn.
    destruct (alloc_loads h A) as (? & ? & EA & _); [by eapply (dll_alloc h A xs)|].
    destruct (alloc_loads h B) as (? & ? & EB & _); [by eapply (dll_alloc h B ys)|].
    destruct (alloc_loads h (List.last ys B)) as (? & ? & E2 & _);
      [by eapply (dll_alloc h B ys)|].
    destruct (alloc_loads h (List.last xs A)) as (? & ? & E1 & _);
      [by eapply (dll_alloc h A xs)|].
    repeat case_decide; simplify_eq; rewrite ?EA, ?EB, ?E1, ?E2; split; eauto.
Qed.
End swap_lists.

Section list_moves.
Implicit Type h : gmap nat list_element.

Lemma clear_empty h f fuel : dll h f [] → list.clear (S fuel) f h = Some (Some h).
Proof. intros Hd. simpl. by rewrite (dll_empty _ _ _ Hd). Qed.

Lemma ctor_fresh h f xs g :
  dll h f xs → h !! g = None →
  ∃ h', list.ctor g h = Some h' ∧ dll h' g [] ∧ dll h' f xs ∧
        (∀ a, a ≠ g → h' !! a = h !! a).
Proof.
  intros Hd Hg. pose proof (dll_fresh _ _ _ _ Hd Hg) as Hfresh.
  unfold list.ctor, list_element_ctor. simpl. eexists. split; [heap_solve|].
  assert (∀ a, a ≠ g →
    upd_prev g g (upd_next g g (<[g := ListElement g g]> h)) !! a = h !! a) as Hfr.
  { intros a Ha. apply lookup_loads; heap_solve. }
  split_and!; [| |done].
  - split; [apply NoDup_singleton|]. split; heap_solve.
  - eapply dll_frame; [done|]. intros a Ha. apply Hfr. by intros ->.
Qed.
End list_moves.

(** Two lists in one heap: 1, 2, 3 on the sentinel 0, and 11 on the sentinel
    10. *)
Lemma two_lists_dll :
  dll (<[10 := ListElement 11 11]> (<[11 := ListElement 10 10]> (nodes scenario.linked3)))
      0 [1; 2; 3] ∧
  dll (<[10 := ListElement 11 11]> (<[11 := ListElement 10 10]> (nodes scenario.linked3)))
      10 [11].
Proof.
  split.
  - eapply dll_frame; [exact linked3_dll|]. intros a Ha.
    rewrite !lookup_insert_ne; [done|set_solver..].
  - split; [repeat (apply NoDup_cons_2; [set_solver|]); apply NoDup_nil_2|].
    vm_compute. repeat split.
Defined.

(** X9: [swap] on the sentinels of two lists exchanges what the lists hold,
    each sequence in its order, also when one or both are empty; no other
    node is touched. *)
Theorem swap_exchanges_contents (h : gmap nat list_element) (a b : nat)
    (xs ys : list nat) :
  dll h a xs → dll h b ys → (∀ x, x ∈ a :: xs → x ∉ b :: ys) →
  ∃ h', list.swap a b h = Some h' ∧ dll h' a ys ∧ dll h' b xs ∧
        (∀ x, x ∉ a :: xs → x ∉ b :: ys → h' !! x = h !! x).
Proof.
  intros Ha Hb Hdisj.
  destruct (swap_dll h a b xs ys Ha Hb Hdisj) as (h' & Hs & Hda & Hdb & Hfr & _).
  by exists h'.
Qed.

Lemma swap_exchanges_contents_witness :
  ∃ h', list.swap 0 10
          (<[10 := ListElement 11 11]> (<[11 := ListElement 10 10]> (nodes scenario.linked3)))
        = Some h' ∧ dll h' 0 [11] ∧ dll h' 10 [1; 2; 3] ∧
        (∀ x, x ∉ 0 :: [1; 2; 3] → x ∉ 10 :: [11] →
              h' !! x = (<[10 := ListElement 11 11]>
                           (<[11 := ListElement 10 10]> (nodes scenario.linked3))) !! x).
Proof.
  apply (swap_exchanges_contents
           (<[10 := ListElement 11 11]> (<[11 := ListElement 10 10]> (nodes scenario.linked3)))
           0 10 [1; 2; 3] [11]).
  - exact (proj1 two_lists_dll).
  - exact (proj2 two_lists_dll).
  - set_solver.
Defined.

(** X10: the move constructor of a list leaves the new list with the
    elements of the old one, in their order, and the old one empty. *)
Theorem list_move_constructor_takes_elements (h : gmap nat list_element)
    (this other : nat) (ys : list nat) (fuel : nat) :
  dll h other ys → h !! this = None → 0 < fuel →
  ∃ h', list.move_ctor fuel this other h = Some (Some h') ∧
        dll h' this ys ∧ dll h' other [] ∧
        (∀ x, x ∉ this :: other :: ys → h' !! x = h !! x).
Proof.
  intros Hd Hfresh Hfuel. destruct fuel as [|fuel]; [lia|].
  pose proof (dll_fresh _ _ _ _ Hd Hfresh) as Hnin.
  destruct (ctor_fresh h other ys this Hd Hfresh) as (h0 & Hctor & Hd0 & Hd0' & Hfr0).
  destruct (swap_dll h0 this other [] ys Hd0 Hd0') as (h1 & Hs & Hd1 & Hd1' & Hfr1 & _).
  { intros x ->%list_elem_of_singleton. done. }
  exists h1. unfold list.move_ctor. rewrite Hfresh, Hctor. simpl. rewrite Hs. simpl.
  rewrite (dll_empty _ _ _ Hd1'). split_and!; try done.
  intros x Hx. rewrite Hfr1 by set_solver. apply Hfr0. set_solver.
Qed.

Lemma list_move_constructor_takes_elements_witness :
  ∃ h', list.move_ctor 1 7 0 (nodes scenario.linked3) = Some (Some h') ∧
        dll h' 7 [1; 2; 3] ∧ dll h' 0 [] ∧
        (∀ x, x ∉ 7 :: 0 :: [1; 2; 3] → h' !! x = nodes scenario.linked3 !! x).
Proof.
  apply (list_move_constructor_takes_elements (nodes scenario.linked3) 7 0 [1; 2; 3] 1).
  - exact linked3_dll.
  - reflexivity.
  - lia.
Defined.

(** X11: move assignment gives the list the elements of the other one, in
    their order, leaves the other one empty and every element the list held
    before unlinked; assigning a list to itself changes nothing. *)
Theorem list_move_assignment_replaces_elements (h : gmap nat list_element)
    (this other : nat) (xs ys : list nat) (fuel : nat) :
  dll h this xs → dll h other ys → (∀ x, x ∈ this :: xs → x ∉ other :: ys) →
  length xs < fuel →
  (∃ h', list.move_assign fuel this other h = Some (Some h') ∧
         dll h' this ys ∧ dll h' other [] ∧
         (∀ x, x ∈ xs → is_linked x h' = Some false) ∧
         (∀ x, x ∉ this :: xs → x ∉ other :: ys → h' !! x = h !! x)) ∧
  list.move_assign fuel this this h = Some (Some h).
Proof.
  intros Hd1 Hd2 Hdisj Hfuel. split.
  - assert (this ≠ other) as Hne%Nat.eqb_neq by (intros ->; apply (Hdisj other); set_solver).
    destruct (swap_dll h this other xs ys Hd1 Hd2 Hdisj) as (h1 & Hs & Hda & Hdb & Hfr & _).
    destruct (list_clear_spec other xs h1 fuel Hdb Hfuel) as (h2 & Hcl & Hd' & Hun & Hfr2).
    exists h2. unfold list.move_assign. rewrite Hne, Hs. simpl. rewrite Hcl.
    split_and!; try done.
    + eapply dll_frame; [done|]. intros x Hx. apply Hfr2.
      pose proof Hd1 as [[Hthis _]%NoDup_cons _].
      pose proof Hd2 as [[Hother _]%NoDup_cons _].
      apply Nat.eqb_neq in Hne.
      intros Hin. apply elem_of_cons in Hx as [->|Hx].
      * apply elem_of_cons in Hin as [?|?]; done.
      * apply elem_of_cons in Hin as [->|Hin]; [done|].
        apply (Hdisj x); set_solver.
    + intros x Hx. destruct (Hun x Hx). by apply unlinked_is_linked.
    + intros x Hx1 Hx2. rewrite Hfr2 by set_solver. by apply Hfr.
  - unfold list.move_assign. by rewrite Nat.eqb_refl.
Qed.

Lemma list_move_assignment_replaces_elements_witness :
  (∃ h', list.move_assign 2 10 0
           (<[10 := ListElement 11 11]> (<[11 := ListElement 10 10]> (nodes scenario.linked3)))
         = Some (Some h') ∧
         dll h' 10 [1; 2; 3] ∧ dll h' 0 [] ∧
         (∀ x, x ∈ [11] → is_linked x h' = Some false) ∧
         (∀ x, x ∉ 10 :: [11] → x ∉ 0 :: [1; 2; 3] →
               h' !! x = (<[10 := ListElement 11 11]>
                            (<[11 := ListElement 10 10]> (nodes scenario.linked3))) !! x)) ∧
  list.move_assign 2 10 10
    (<[10 := ListElement 11 11]> (<[11 := ListElement 10 10]> (nodes scenario.linked3))) =
  Some (Some (<[10 := ListElement 11 11]>
                (<[11 := ListElement 10 10]> (nodes scenario.linked3)))).
Proof.
  apply (list_move_assignment_replaces_elements
           (<[10 := ListElement 11 11]> (<[11 := ListElement 10 10]> (nodes scenario.linked3)))
           10 0 [11] [1; 2; 3] 2).
  - exact (proj2 two_lists_dll).
  - exact (proj1 two_lists_dll).
  - set_solver.
  - simpl. lia.
Defined.

Section splice_between_lists.
Implicit Type h : gmap nat list_element.

(** A chain cut in front of a position, the end of the chain when nothing
    follows. *)
Lemma chain_split_hd h a l1 l2 z :
  chain h a (l1 ++ l2) z ↔
  chain h a l1 (hd z l2) ∧
  (l2 = [] ∨ ∃ l2', l2 = hd z l2 :: l2' ∧ chain h (hd z l2) l2' z).
Proof.
  destruct l2 as [|y l2]; simpl.
  - rewrite app_nil_r. naive_solver.
  - rewrite chain_app. naive_solver.
Qed.

Lemma hd_elem (l : list nat) z : hd z l ∈ z :: l.
Proof. destruct l; [apply list_elem_of_here|apply list_elem_of_further, list_elem_of_here]. Qed.

Lemma splice_lists h f l1 l2 g k1 first R k2 :
  dll h f (l1 ++ l2) → dll h g (k1 ++ first :: R ++ k2) →
  (∀ x, x ∈ f :: l1 ++ l2 → x ∉ g :: k1 ++ first :: R ++ k2) →
  ∃ h', list.splice (hd f l2) first (hd g k2) h = Some h' ∧
        dll h' f (l1 ++ first :: R ++ l2) ∧ dll h' g (k1 ++ k2) ∧
        (∀ a, a ∉ f :: l1 ++ l2 → a ∉ g :: k1 ++ first :: R ++ k2 → h' !! a = h !! a).
Proof.
  intros [Hndf Hcf] [Hndg Hcg] Hdisj.
  set (pos := hd f l2). set (last := hd g k2).
  set (P := List.last l1 f). set (F := List.last k1 g). set (L := List.last R first).
  apply chain_split_hd in Hcf as [Hc1 Hc3]. fold pos in Hc1, Hc3.
  apply chain_app in Hcg as [Hck1 Hcg].
  apply chain_split_hd in Hcg as [HcR Hck2]. fold last in HcR, Hck2.
  (* where the six nodes lie *)
  assert (pos ∈ f :: l1 ++ l2) as Hpos.
  { pose proof (hd_elem l2 f) as H. fold pos in H. clear -H. set_solver. }
  assert (P ∈ f :: l1 ++ l2) as HP.
  { pose proof (last_in l1 f) as H. fold P in H. clear -H. set_solver. }
  assert (last ∈ g :: k1 ++ first :: R ++ k2) as Hlast.
  { pose proof (hd_elem k2 g) as H. fold last in H. clear -H. set_solver. }
  assert (F ∈ g :: k1) as HF by apply last_in.
  assert (L ∈ first :: R) as HL by apply last_in.
  assert (∀ x y, x ∈ f :: l1 ++ l2 → y ∈ g :: k1 ++ first :: R ++ k2 → x ≠ y) as Hne.
  { intros x y Hx Hy ->. by apply (Hdisj y). }
  assert (first ∈ g :: k1 ++ first :: R ++ k2) as Hfirst by (clear; set_solver).
  assert (NoDup (g :: k1) ∧ NoDup (first :: R) ∧ NoDup k2 ∧
          (∀ x, x ∈ g :: k1 → x ∉ first :: R) ∧
          (∀ x, x ∈ g :: k1 → x ∉ k2) ∧ (∀ x, x ∈ first :: R → x ∉ k2))
    as (Hndk1 & HndR & Hndk2 & Hk1R & Hk1k2 & HRk2).
  { clear -Hndg.
    change (g :: k1 ++ first :: R ++ k2) with ((g :: k1) ++ (first :: R) ++ k2) in Hndg.
    apply NoDup_app in Hndg as (? & Hd1 & Hndg).
    apply NoDup_app in Hndg as (? & Hd2 & ?).
    split_and!; try done.
    - intros x Hx Hx'. apply (Hd1 x Hx). set_solver.
    - intros x Hx Hx'. apply (Hd1 x Hx). set_solver. }
  assert (last ∉ first :: R) as HlastR.
  { intros Hin. destruct Hck2 as [->|(k2' & E & _)].
    - unfold last in Hin. simpl in Hin. by apply (Hk1R g); [apply list_elem_of_here|].
    - apply (HRk2 _ Hin). rewrite E. apply list_elem_of_here. }
  destruct (splice_spliced h pos first last P F L) as (h' & Hs & Hn & Hp).
  { by eapply chain_last. }
  { by eapply chain_last_next. }
  { by eapply chain_last. }
  { by eapply chain_last_next. }
  { by eapply chain_last. }
  { by eapply chain_last_next. }
  { by apply Hne. }
  { by apply Hne. }
  { intros E. apply HlastR. rewrite <-E. apply list_elem_of_here. }
  exists h'. split; [done|].
  (* the nodes whose fields change *)
  assert (∀ x, x ∈ f :: l1 ++ l2 → x ≠ L ∧ x ≠ F ∧ x ≠ first ∧ x ≠ last) as Hf_ne.
  { intros x Hx. split_and!; apply Hne; try done.
    - clear -HL. set_solver.
    - clear -HF. set_solver. }
  assert (∀ x, x ∈ g :: k1 ++ first :: R ++ k2 → x ≠ P ∧ x ≠ pos) as Hg_ne.
  { intros x Hx. split; apply not_eq_sym, Hne; done. }
  assert (∀ x, x ∈ l2 → x ≠ P) as HPl2.
  { intros x Hx E. pose proof (last_in l1 f) as Hl. fold P in Hl. rewrite <-E in Hl.
    clear -Hndf Hx Hl. rewrite app_comm_cons in Hndf.
    apply NoDup_app in Hndf as (_ & Hd & _). by apply (Hd x). }
  assert (NoDup (f :: l1)) as Hndl1.
  { clear -Hndf. rewrite app_comm_cons in Hndf. by apply NoDup_app in Hndf as [? _]. }
  split_and!.
  - split.
    + (* no node twice *)
      clear -Hndf HndR Hdisj.
      assert (f :: l1 ++ first :: R ++ l2 ≡ₚ (first :: R) ++ (f :: l1 ++ l2)) as ->.
      { change (first :: R ++ l2) with ((first :: R) ++ l2).
        rewrite (app_assoc l1), (Permutation_app_comm l1), <-app_assoc.
        by rewrite <-Permutation_middle. }
      apply NoDup_app. split_and!; [done| |done].
      intros x Hx Hin. apply (Hdisj x Hin). set_solver.
    + apply chain_app. split.
      * eapply chain_retarget; [exact Hc1|..]; try done; fold P.
        -- intros s Hs' HsP. rewrite Hn.
           destruct (Hf_ne s) as (? & ? & ? & ?); [clear -Hs'; set_solver|].
           by rewrite !decide_False.
        -- intros t Ht. rewrite Hp.
           destruct (Hf_ne t) as (? & ? & ? & ?); [clear -Ht; set_solver|].
           rewrite decide_False by done. rewrite decide_False; [by rewrite decide_False|].
           intros ->. destruct Hc3 as [->|(l2' & E & _)].
           ++ unfold pos in Ht. simpl in Ht. apply NoDup_cons in Hndl1 as [? _]. done.
           ++ rewrite E in Hndf. clear -Hndf Ht.
              apply NoDup_cons in Hndf as [_ Hndf].
              apply NoDup_app in Hndf as (_ & Hd & _). apply (Hd _ Ht). set_solver.
        -- rewrite Hn. destruct (Hf_ne P HP) as (? & ? & ? & ?).
           rewrite !decide_False by done. by rewrite decide_True.
        -- rewrite Hp. rewrite decide_False by (intros E; apply HlastR; rewrite <-E;
             apply list_elem_of_here).
           rewrite decide_False by (by apply not_eq_sym, Hne).
           by rewrite decide_True.
      * apply chain_split_hd. fold pos. split.
        -- eapply chain_retarget; [exact HcR|..]; try done; fold L.
           ++ intros s Hs' HsL. rewrite Hn. rewrite decide_False by done.
              rewrite decide_False by (intros ->; by apply (Hk1R F)).
              rewrite decide_False; [done|]. intros ->.
              apply (Hne P P); [done| |done]. clear -Hs'. set_solver.
           ++ intros t Ht. rewrite Hp.
              rewrite decide_False by (intros ->; apply HlastR; by apply list_elem_of_further).
              rewrite decide_False.
              2:{ intros ->. apply (Hne pos pos); [done| |done]. clear -Ht. set_solver. }
              rewrite decide_False; [done|]. intros ->.
              apply NoDup_cons in HndR as [? _]. done.
           ++ rewrite Hn. by rewrite decide_True.
           ++ rewrite Hp. destruct (Hf_ne pos Hpos) as (? & ? & ? & ?).
              rewrite decide_False by done. by rewrite decide_True.
        -- destruct Hc3 as [->|(l2' & E & Hc3)]; [by left|right].
           exists l2'. split; [done|].
           eapply chain_frame; [exact Hc3|..].
           ++ intros s Hs'. rewrite Hn.
              assert (s ∈ f :: l1 ++ l2) as Hin by (rewrite E; clear -Hs'; set_solver).
              destruct (Hf_ne s Hin) as (? & ? & ? & ?).
              rewrite !decide_False; try done.
              apply HPl2. by rewrite E.
           ++ intros t Ht. rewrite Hp.
              assert (t ∈ f :: l1 ++ l2) as Hin by (rewrite E; clear -Ht; set_solver).
              destruct (Hf_ne t Hin) as (? & ? & ? & ?).
              rewrite decide_False by done. rewrite decide_False; [by rewrite decide_False|].
              intros ->. rewrite E in Hndf. clear -Hndf Ht.
              apply NoDup_cons in Hndf as [Hf Hndf].
              apply NoDup_app in Hndf as (_ & _ & Hndf).
              apply NoDup_cons in Hndf as [? _]. set_solver.
  - split.
    + clear -Hndg.
      change (g :: k1 ++ first :: R ++ k2) with ((g :: k1) ++ (first :: R) ++ k2) in Hndg.
      apply NoDup_app in Hndg as (? & Hd1 & Hndg).
      apply NoDup_app in Hndg as (? & Hd2 & ?).
      change (g :: k1 ++ k2) with ((g :: k1) ++ k2).
      apply NoDup_app. split_and!; try done.
      intros x Hx Hx'. apply (Hd1 x Hx). set_solver.
    + apply chain_split_hd. fold last. split.
      * eapply chain_retarget; [exact Hck1|..]; try done; fold F.
        -- intros s Hs' HsF. rewrite Hn.
           rewrite decide_False by (intros ->; by apply (Hk1R L)).
           rewrite decide_False by done.
           rewrite decide_False; [done|]. intros ->.
           apply (Hne P P); [done| |done]. clear -Hs'. set_solver.
        -- intros t Ht. rewrite Hp.
           rewrite decide_False.
           2:{ intros ->. apply (Hk1k2 last); [by apply list_elem_of_further|].
               destruct Hck2 as [->|(k2' & E & _)].
               - exfalso. unfold last in Ht. simpl in Ht.
                 apply NoDup_cons in Hndk1 as [? _]. done.
               - rewrite E. apply list_elem_of_here. }
           rewrite decide_False.
           2:{ intros ->. apply (Hne pos pos); [done| |done]. clear -Ht. set_solver. }
           rewrite decide_False; [done|]. intros ->.
           apply (Hk1R first); [by apply list_elem_of_further|apply list_elem_of_here].
        -- rewrite Hn.
           rewrite decide_False by (intros E; apply (Hk1R F HF); by rewrite E).
           by rewrite decide_True.
        -- rewrite Hp. by rewrite decide_True.
      * destruct Hck2 as [->|(k2' & E & Hck2)]; [by left|right].
        exists k2'. split; [done|].
        assert (∀ x, x ∈ last :: k2' → x ∈ k2) as Hk2in by (intros x Hx; by rewrite E).
        eapply chain_frame; [exact Hck2|..].
        -- intros s Hs'. rewrite Hn.
           rewrite decide_False by (intros ->; by apply (HRk2 L HL), Hk2in).
           rewrite decide_False by (intros ->; by apply (Hk1k2 F HF), Hk2in).
           rewrite decide_False; [done|]. intros ->.
           apply (Hne P P); [done| |done]. apply Hk2in in Hs'. clear -Hs'. set_solver.
        -- intros t Ht. rewrite Hp.
           rewrite decide_False.
           2:{ intros ->. rewrite E in Hndk2. apply NoDup_cons in Hndk2 as [Hl _].
               apply elem_of_app in Ht as [Ht|Ht]; [done|].
               apply list_elem_of_singleton in Ht.
               apply (Hk1k2 g); [apply list_elem_of_here|]. rewrite <-Ht.
               apply Hk2in, list_elem_of_here. }
           rewrite decide_False.
           2:{ intros ->. apply (Hne pos pos); [done| |done].
               apply elem_of_app in Ht as [Ht|Ht].
               - assert (pos ∈ k2) by (apply Hk2in; by apply list_elem_of_further).
                 clear -H. set_solver.
               - apply list_elem_of_singleton in Ht. rewrite Ht. apply list_elem_of_here. }
           rewrite decide_False; [done|]. intros ->.
           apply elem_of_app in Ht as [Ht|Ht].
           ++ apply (HRk2 first); [apply list_elem_of_here|].
              apply Hk2in. by apply list_elem_of_further.
           ++ apply list_elem_of_singleton in Ht.
              apply (Hk1R g); [apply list_elem_of_here|]. rewrite <-Ht.
              apply list_elem_of_here.
  - intros a Haf Hag. apply lookup_loads.
    + rewrite Hn. rewrite decide_False.
      2:{ intros ->. apply Hag. clear -HL. set_solver. }
      rewrite decide_False.
      2:{ intros ->. apply Hag. clear -HF. set_solver. }
      rewrite decide_False; [done|]. by intros ->.
    + rewrite Hp. rewrite decide_False by (by intros ->).
      rewrite decide_False by (by intros ->).
      rewrite decide_False; [done|]. by intros ->.
Qed.
End splice_between_lists.

Section splice_within_list.
Implicit Type h : gmap nat list_element.

(** A list read as a circle from one of its members. *)
Lemma dll_cycle h f l1 x l2 :
  dll h f (l1 ++ x :: l2) ↔ NoDup (x :: l2 ++ f :: l1) ∧ chain h x (l2 ++ f :: l1) x.
Proof.
  unfold dll. rewrite !chain_app.
  assert (x :: l2 ++ f :: l1 ≡ₚ f :: l1 ++ x :: l2) as ->; [|naive_solver].
  change (x :: l2 ++ f :: l1) with ((x :: l2) ++ (f :: l1)).
  by rewrite (Permutation_app_comm (x :: l2)).
Qed.

(** [splice] in front of a position behind the range: the range from
    [first] up to [last] moves back, in front of the head of [l3], which is
    [end()] when [l3] is empty. *)
Lemma splice_backwards h f l0 first R last M1 l3 :
  dll h f (l0 ++ first :: R ++ last :: M1 ++ l3) →
  ∃ h', list.splice (hd f l3) first last h = Some h' ∧
        dll h' f (l0 ++ last :: M1 ++ first :: R ++ l3) ∧ dom h' = dom h.
Proof.
  intros Hd. apply dll_cycle in Hd as [Hnd Hc].
  destruct l3 as [|pos l3]; simpl.
  - rewrite app_nil_r in *. rewrite <-?app_assoc, <-?app_comm_cons in Hnd, Hc.
    destruct (splice_cycle h first R last M1 f l0 Hnd Hc) as (h' & Hs & Hc' & Hdom).
    exists h'. split; [done|]. split; [|done].
    rewrite app_comm_cons, app_assoc. apply dll_cycle.
    rewrite <-?app_assoc, <-?app_comm_cons. split; [|done].
    assert (f :: l0 ++ last :: M1 ≡ₚ last :: M1 ++ f :: l0) as ->; [|done].
    apply (Permutation_app_comm (f :: l0) (last :: M1)).
  - rewrite <-?app_assoc, <-?app_comm_cons in Hnd, Hc.
    rewrite <-?app_assoc, <-?app_comm_cons in Hnd, Hc.
    destruct (splice_cycle h first R last M1 pos (l3 ++ f :: l0) Hnd Hc)
      as (h' & Hs & Hc' & Hdom).
    exists h'. split; [done|]. split; [|done].
    rewrite app_comm_cons, app_assoc. apply dll_cycle.
    rewrite <-?app_assoc, <-?app_comm_cons in *. rewrite <-?app_assoc in *.
    split; [|done].
    assert (pos :: l3 ++ f :: l0 ++ last :: M1 ≡ₚ last :: M1 ++ pos :: l3 ++ f :: l0)
      as ->; [|done].
    change (pos :: l3 ++ f :: l0 ++ last :: M1)
      with ((pos :: l3) ++ (f :: l0) ++ (last :: M1)).
    rewrite app_assoc. by rewrite (Permutation_app_comm _ (last :: M1)).
Qed.

(** [splice] in front of a position ahead of the range: the range from
    [first] up to the head of [l3], which is [end()] when [l3] is empty,
    moves forward, in front of [pos]. *)
Lemma splice_forwards h f l0 pos M2 first R l3 :
  dll h f (l0 ++ pos :: M2 ++ first :: R ++ l3) →
  ∃ h', list.splice pos first (hd f l3) h = Some h' ∧
        dll h' f (l0 ++ first :: R ++ pos :: M2 ++ l3) ∧ dom h' = dom h.
Proof.
  intros Hd. rewrite app_comm_cons, app_assoc in Hd.
  apply dll_cycle in Hd as [Hnd Hc].
  destruct l3 as [|last l3]; simpl.
  - rewrite app_nil_r in *. rewrite <-?app_assoc, <-?app_comm_cons in Hnd, Hc.
    destruct (splice_cycle h first R f l0 pos M2 Hnd Hc) as (h' & Hs & Hc' & Hdom).
    exists h'. split; [done|]. split; [|done].
    apply dll_cycle. rewrite <-?app_assoc, <-?app_comm_cons. split; [|done].
    assert (pos :: M2 ++ f :: l0 ≡ₚ f :: l0 ++ pos :: M2) as ->; [|done].
    apply (Permutation_app_comm (pos :: M2) (f :: l0)).
  - rewrite <-?app_assoc, <-?app_comm_cons in Hnd, Hc.
    rewrite <-?app_assoc, <-?app_comm_cons in Hnd, Hc.
    destruct (splice_cycle h first R last (l3 ++ f :: l0) pos M2)
      as (h' & Hs & Hc' & Hdom).
    { by rewrite <-?app_assoc, <-?app_comm_cons. }
    { by rewrite <-?app_assoc, <-?app_comm_cons. }
    exists h'. split; [done|]. split; [|done].
    apply dll_cycle.
    rewrite <-?app_assoc, <-?app_comm_cons in *. rewrite <-?app_assoc in *.
    split; [|done].
    assert (pos :: M2 ++ last :: l3 ++ f :: l0 ≡ₚ last :: l3 ++ f :: l0 ++ pos :: M2)
      as ->; [|done].
    change (last :: l3 ++ f :: l0 ++ pos :: M2)
      with ((last :: l3) ++ (f :: l0) ++ (pos :: M2)).
    rewrite app_assoc. by rewrite (Permutation_app_comm _ (pos :: M2)).
Qed.
End splice_within_list.

(** X12: [splice(pos, other, first, last)] between two lists takes the
    range from [first] up to [last] out of the other list and links it, in
    its order, in front of [pos]; what else the two lists hold keeps its
    order, and no further node is touched.  [pos] and [last] may be the
    [end()] of their lists. *)
Theorem splice_moves_range_between_lists (h : gmap nat list_element)
    (f : nat) (l1 l2 : list nat) (g : nat) (k1 : list nat) (first : nat)
    (R k2 : list nat) :
  dll h f (l1 ++ l2) → dll h g (k1 ++ first :: R ++ k2) →
  (∀ x, x ∈ f :: l1 ++ l2 → x ∉ g :: k1 ++ first :: R ++ k2) →
  ∃ h', list.splice (hd (list.end_ f) l2) first (hd (list.end_ g) k2) h = Some h' ∧
        dll h' f (l1 ++ first :: R ++ l2) ∧ dll h' g (k1 ++ k2) ∧
        (∀ a, a ∉ f :: l1 ++ l2 → a ∉ g :: k1 ++ first :: R ++ k2 → h' !! a = h !! a).
Proof. apply splice_lists. Qed.

Lemma splice_moves_range_between_lists_witness :
  ∃ h', list.splice (hd (list.end_ 10) [11]) 2 (hd (list.end_ 0) [3])
          (<[10 := ListElement 11 11]> (<[11 := ListElement 10 10]> (nodes scenario.linked3)))
        = Some h' ∧
        dll h' 10 ([] ++ 2 :: [] ++ [11]) ∧ dll h' 0 ([1] ++ [3]) ∧
        (∀ a, a ∉ 10 :: [] ++ [11] → a ∉ 0 :: [1] ++ 2 :: [] ++ [3] →
              h' !! a = (<[10 := ListElement 11 11]>
                           (<[11 := ListElement 10 10]> (nodes scenario.linked3))) !! a).
Proof.
  apply (splice_moves_range_between_lists
           (<[10 := ListElement 11 11]> (<[11 := ListElement 10 10]> (nodes scenario.linked3)))
           10 [] [11] 0 [1] 2 [] [3]).
  - exact (proj2 two_lists_dll).
  - exact (proj1 two_lists_dll).
  - set_solver.
Defined.

(** X13: within one list, [splice] in front of a position behind the range
    moves the range from [first] up to [last] back, in front of that
    position, [end()] included; the rest keeps its order. *)
Theorem splice_moves_range_back (h : gmap nat list_element) (f : nat)
    (l0 : list nat) (first : nat) (R : list nat) (last : nat) (M l3 : list nat) :
  dll h f (l0 ++ first :: R ++ last :: M ++ l3) →
  ∃ h', list.splice (hd (list.end_ f) l3) first last h = Some h' ∧
        dll h' f (l0 ++ last :: M ++ first :: R ++ l3).
Proof.
  intros Hd. destruct (splice_backwards _ _ _ _ _ _ _ _ Hd) as (h' & Hs & Hd' & _).
  by exists h'.
Qed.

Lemma splice_moves_range_back_witness :
  ∃ h', list.splice (hd (list.end_ 0) []) 1 2 (nodes scenario.linked3) = Some h' ∧
        dll h' 0 ([] ++ 2 :: [3] ++ 1 :: [] ++ []).
Proof.
  apply (splice_moves_range_back (nodes scenario.linked3) 0 [] 1 [] 2 [3] []).
  exact linked3_dll.
Defined.

(** X14: within one list, [splice] in front of a position ahead of the
    range moves the range from [first] up to [last], which may be [end()],
    forward, in front of that position; the rest keeps its order. *)
Theorem splice_moves_range_forward (h : gmap nat list_element) (f : nat)
    (l0 : list nat) (pos : nat) (M : list nat) (first : nat) (R l3 : list nat) :
  dll h f (l0 ++ pos :: M ++ first :: R ++ l3) →
  ∃ h', list.splice pos first (hd (list.end_ f) l3) h = Some h' ∧
        dll h' f (l0 ++ first :: R ++ pos :: M ++ l3).
Proof.
  intros Hd. destruct (splice_forwards _ _ _ _ _ _ _ _ Hd) as (h' & Hs & Hd' & _).
  by exists h'.
Qed.

Lemma splice_moves_range_forward_witness :
  ∃ h', list.splice 1 3 (hd (list.end_ 0) []) (nodes scenario.linked3) = Some h' ∧
        dll h' 0 ([] ++ 3 :: [] ++ 1 :: [2] ++ []).
Proof.
  apply (splice_moves_range_forward (nodes scenario.linked3) 0 [] 1 [2] 3 [] []).
  exact linked3_dll.
Defined.

(** * Further properties of signals and connections *)

Section connection_lifetime.
Implicit Type st : state (iteration_token (option nat)).

Lemma disconnect_linked_twice fuel st sg l1 c l2 f top tl :
  dll (nodes st) sg (l1 ++ c :: l2) →
  conns st !! c = Some (Connection (ptr sg) f) →
  sigs st !! sg = Some top →
  token_chain (toks st) top tl → length tl ≤ fuel →
  ∃ h', signals.disconnect fuel c st =
          Ret (State h' (<[c := Connection nullptr None]> (conns st)) (toks st) (sigs st)) ∧
        removed (nodes st) h' c (List.last l1 sg) (hd sg l2) ∧
        dll h' sg (l1 ++ l2) ∧
        load_next h' c = Some c ∧ load_prev h' c = Some c.
Proof.
  intros Hd Hc Hs Htc Hlen.
  destruct (disconnect_linked fuel st sg l1 c l2 f top tl Hd Hc Hs Htc Hlen)
    as (h' & Hdis & Hr & Hd').
  destruct (removed_self _ _ _ _ _ Hr). by exists h'.
Qed.
End connection_lifetime.

(** X15: [disconnect()] of a linked connection takes exactly that
    connection out of the list of its signal, empties its callback and
    resets its signal pointer; the other connections, the token stack and
    every cursor stay as they are.  A second [disconnect()] changes
    nothing. *)
Theorem disconnect_takes_connection_out
    (st : state (iteration_token (option nat))) (sg : nat) (l1 : list nat) (c : nat)
    (l2 : list nat) (f : option nat) (top : option nat) (tl : list nat) (fuel : nat) :
  dll (nodes st) sg (l1 ++ c :: l2) →
  conns st !! c = Some (Connection (ptr sg) f) →
  sigs st !! sg = Some top →
  token_chain (toks st) top tl → length tl ≤ fuel →
  ∃ st', signals.disconnect fuel c st = Ret st' ∧
         dll (nodes st') sg (l1 ++ l2) ∧
         is_linked c (nodes st') = Some false ∧
         conns st' = <[c := Connection nullptr None]> (conns st) ∧
         toks st' = toks st ∧ sigs st' = sigs st ∧
         signals.disconnect fuel c st' = Ret st'.
Proof.
  intros Hd Hc Hs Htc Hlen.
  destruct (disconnect_linked_twice fuel st sg l1 c l2 f top tl Hd Hc Hs Htc Hlen)
    as (h' & Hdis & Hr & Hd' & Hn & Hp).
  eexists. split; [exact Hdis|]. simpl. split_and!; try done.
  - by apply unlinked_is_linked.
  - by apply signals_disconnect_unlinked.
Qed.

Lemma disconnect_takes_connection_out_witness :
  ∃ st', signals.disconnect 0 2 scenario.linked3 = Ret st' ∧
         dll (nodes st') 0 ([1] ++ [3]) ∧
         is_linked 2 (nodes st') = Some false ∧
         conns st' = <[2 := Connection nullptr None]> (conns scenario.linked3) ∧
         toks st' = toks scenario.linked3 ∧ sigs st' = sigs scenario.linked3 ∧
         signals.disconnect 0 2 st' = Ret st'.
Proof.
  apply (disconnect_takes_connection_out scenario.linked3 0 [1] 2 [3] (Some 2) None [] 0).
  - exact linked3_dll.
  - reflexivity.
  - reflexivity.
  - reflexivity.
  - simpl. lia.
Defined.

(** X16: [connect] links a new connection at the front of the list of the
    signal, and the destructor of that connection right after gives the
    store of before: the connection leaves the list and nothing of it stays
    behind. *)
Theorem connect_then_destroy_restores
    (st : state (iteration_token (option nat))) (sg : nat) (cs : list nat) (c : nat)
    (f : option nat) (top : option nat) (tl : list nat) (fuel : nat) :
  dll (nodes st) sg cs →
  nodes st !! c = None → conns st !! c = None →
  sigs st !! sg = Some top →
  token_chain (toks st) top tl → length tl ≤ fuel →
  ∃ st1, connect c sg f st = Some st1 ∧
         dll (nodes st1) sg (c :: cs) ∧
         conns st1 !! c = Some (Connection (ptr sg) f) ∧
         connection_dtor signals.disconnect fuel c st1 = Ret st.
Proof.
  intros Hd Hn Hc Hs Htc Hlen.
  pose proof (dll_fresh _ _ _ _ Hd Hn) as Hfresh.
  assert (dll (list_element_ctor c (nodes st)) sg cs) as Hd0.
  { eapply dll_frame; [done|]. intros a Ha. unfold list_element_ctor.
    rewrite lookup_insert_ne; [done|]. by intros ->. }
  destruct (dll_push_front (list_element_ctor c (nodes st)) sg cs c Hd0 Hfresh)
    as (h1 & Hpf & Hi & Hd1).
  { unfold list_element_ctor. rewrite lookup_insert_eq. eauto. }
  exists (State h1 (<[c := Connection (ptr sg) f]> (conns st)) (toks st) (sigs st)).
  unfold connect. rewrite Hn, Hc, Hpf. simpl. split_and!; try done.
  { by rewrite lookup_insert_eq. }
  destruct (disconnect_linked_twice fuel
              (State h1 (<[c := Connection (ptr sg) f]> (conns st)) (toks st) (sigs st))
              sg [] c cs f top tl) as (h2 & Hdis & Hr & Hd2 & Hcn & Hcp); simpl; try done.
  { by rewrite lookup_insert_eq. }
  unfold connection_dtor. rewrite Hdis. simpl.
  unfold list_element_dtor. rewrite (unlink_unlinked h2 c Hcn Hcp). simpl.
  assert (h2 = list_element_ctor c (nodes st)) as ->.
  { eapply inserted_removed; try done; unfold list_element_ctor.
    - by rewrite load_next_insert, decide_True.
    - by rewrite load_prev_insert, decide_True.
    - destruct Hd0 as [_ Hc0]. by eapply chain_first.
    - destruct Hd0 as [_ Hc0]. by eapply chain_first_prev. }
  unfold list_element_ctor. rewrite delete_insert_eq, insert_insert_eq, delete_insert_eq.
  rewrite !delete_id by done. by destruct st.
Qed.

Lemma connect_then_destroy_restores_witness :
  ∃ st1, connect 5 0 (Some 5) scenario.linked3 = Some st1 ∧
         dll (nodes st1) 0 (5 :: [1; 2; 3]) ∧
         conns st1 !! 5 = Some (Connection (ptr 0) (Some 5)) ∧
         connection_dtor signals.disconnect 0 5 st1 = Ret scenario.linked3.
Proof.
  apply (connect_then_destroy_restores scenario.linked3 0 [1; 2; 3] 5 (Some 5) None [] 0).
  - exact linked3_dll.
  - reflexivity.
  - reflexivity.
  - reflexivity.
  - reflexivity.
  - simpl. lia.
Defined.

Section emission_steps.
Variable body : nat → nat → list action.
Implicit Type st : state (iteration_token (option nat)).

(** One turn of the loop of [operator()] at a connection that holds a
    callback: the cursor moves on, then the callback runs. *)
Lemma emission_loop_step invoke st t sg top arg l1 c l2 p f tr fuel :
  dll (nodes st) sg (l1 ++ c :: l2) →
  conns st !! c = Some (Connection p (Some f)) →
  signals.emission_loop body invoke (S fuel) t sg arg (during st t sg top c, tr) =
  andthen (invoke (body f arg) (during st t sg top (hd sg l2), tr ++ [(f, arg)]))
    (λ cfg, tok ← lift (toks cfg.1 !! t);
            match extra tok with
            | None => Ret (Normal, cfg)
            | Some _ => signals.emission_loop body invoke fuel t sg arg cfg
            end).
Proof.
  intros Hd Hc.
  destruct (dll_neighbours _ _ _ _ _ Hd) as [Hp Hn].
  assert (c ≠ sg) as Hne%Nat.eqb_neq by (eapply dll_elem_ne; [done|set_solver]).
  assert (is_Some (load_prev (nodes st) (hd sg l2))) as [pp Hpp].
  { destruct (alloc_loads (nodes st) (hd sg l2)) as (?&?&?&?); [|eauto].
    eapply dll_alloc; [done|]. pose proof (hd_in l2 sg). set_solver. }
  simpl. rewrite lookup_insert_eq. simpl. unfold list.end_.
  rewrite Hne, Hn. simpl. rewrite Hpp. simpl. rewrite Hc. simpl.
  by rewrite insert_insert_eq.
Qed.

(** The same turn at a connection whose callback is empty. *)
Lemma emission_loop_empty_slot invoke st t sg top arg l1 c l2 p tr fuel :
  dll (nodes st) sg (l1 ++ c :: l2) →
  conns st !! c = Some (Connection p None) →
  signals.emission_loop body invoke (S fuel) t sg arg (during st t sg top c, tr) =
  Ret (Thrown bad_function_call, (during st t sg top (hd sg l2), tr)).
Proof.
  intros Hd Hc.
  destruct (dll_neighbours _ _ _ _ _ Hd) as [Hp Hn].
  assert (c ≠ sg) as Hne%Nat.eqb_neq by (eapply dll_elem_ne; [done|set_solver]).
  assert (is_Some (load_prev (nodes st) (hd sg l2))) as [pp Hpp].
  { destruct (alloc_loads (nodes st) (hd sg l2)) as (?&?&?&?); [|eauto].
    eapply dll_alloc; [done|]. pose proof (hd_in l2 sg). set_solver. }
  simpl. rewrite lookup_insert_eq. simpl. unfold list.end_.
  rewrite Hne, Hn. simpl. rewrite Hpp. simpl. rewrite Hc. simpl.
  by rewrite insert_insert_eq.
Qed.

Lemma alt_emission_loop_empty_slot invoke (st : state (iteration_token bool))
    t sg top arg l1 c l2 p tr fuel :
  dll (nodes st) sg (l1 ++ c :: l2) →
  conns st !! c = Some (Connection p None) →
  alt.emission_loop body invoke (S fuel) t sg arg (alt_during st t sg top c, tr) =
  Ret (Thrown bad_function_call, (false, (alt_during st t sg top (hd sg l2), tr))).
Proof.
  intros Hd Hc.
  destruct (dll_neighbours _ _ _ _ _ Hd) as [Hp Hn].
  assert (c ≠ sg) as Hne%Nat.eqb_neq by (eapply dll_elem_ne; [done|set_solver]).
  assert (is_Some (load_prev (nodes st) (hd sg l2))) as [pp Hpp].
  { destruct (alloc_loads (nodes st) (hd sg l2)) as (?&?&?&?); [|eauto].
    eapply dll_alloc; [done|]. pose proof (hd_in l2 sg). set_solver. }
  simpl. rewrite lookup_insert_eq. simpl. unfold list.end_.
  rewrite Hne, Hn. simpl. rewrite Hpp. simpl. rewrite Hc. simpl.
  by rewrite insert_insert_eq.
Qed.

Lemma alt_emission_loop_step invoke (st : state (iteration_token bool))
    t sg top arg l1 c l2 p f tr fuel :
  dll (nodes st) sg (l1 ++ c :: l2) →
  conns st !! c = Some (Connection p (Some f)) →
  alt.emission_loop body invoke (S fuel) t sg arg (alt_during st t sg top c, tr) =
  (r ← invoke (body f arg) (alt_during st t sg top (hd sg l2), tr ++ [(f, arg)]);
   match r.1 with
   | Thrown e => Ret (Thrown e, (false, r.2))
   | Normal =>
       tok ← lift (toks r.2.1 !! t);
       if extra tok : bool then Ret (Normal, (true, r.2))
       else alt.emission_loop body invoke fuel t sg arg r.2
   end).
Proof.
  intros Hd Hc.
  destruct (dll_neighbours _ _ _ _ _ Hd) as [Hp Hn].
  assert (c ≠ sg) as Hne%Nat.eqb_neq by (eapply dll_elem_ne; [done|set_solver]).
  assert (is_Some (load_prev (nodes st) (hd sg l2))) as [pp Hpp].
  { destruct (alloc_loads (nodes st) (hd sg l2)) as (?&?&?&?); [|eauto].
    eapply dll_alloc; [done|]. pose proof (hd_in l2 sg). set_solver. }
  simpl. rewrite lookup_insert_eq. simpl. unfold list.end_.
  rewrite Hne, Hn. simpl. rewrite Hpp. simpl. rewrite Hc. simpl.
  by rewrite insert_insert_eq.
Qed.

(** The emission up to the connection [c]: the callbacks in front of it do
    nothing. *)
Lemma emit_up_to st depth sg top arg l1 c l2 f1 tr fuel k :
  dll (nodes st) sg (l1 ++ c :: l2) →
  sigs st !! sg = Some top →
  callbacks st l1 f1 → Forall (λ f, body f arg = []) f1 →
  fuel = length l1 + k → 0 < fuel →
  signals.emit body fuel depth sg arg (st, tr) =
  (r ← signals.emission_loop body (signals.exec body fuel (S depth)) k depth sg arg
         (during st depth sg top c, tr ++ ((λ f, (f, arg)) <$> f1));
   st ← lift (signals.iteration_token_dtor depth r.2.1);
   Ret (r.1, (st, r.2.2))).
Proof.
  intros Hd Hs Hcb Hpure Hk Hfuel. unfold signals.emit.
  rewrite (signals_call_operator_eq _ _ _ _ _ _ _ _ top (l1 ++ c :: l2)) by done.
  assert (hd sg (l1 ++ c :: l2) = hd sg (l1 ++ [c] ++ l2)) as -> by done.
  assert (∀ cfg, signals.exec body fuel (S depth) [] cfg = Ret (Normal, cfg)) as Hnil.
  { intros cfg. destruct fuel; [lia|]. by rewrite signals_exec_S. }
  rewrite Hk at 2.
  rewrite (emission_loop_skip body (signals.exec body fuel (S depth)) st depth sg top
             arg l1 Hnil [] ([c] ++ l2) f1 tr k); done.
Qed.

(** The rest of an emission over connections whose callbacks do nothing,
    and the way out of [operator()]. *)
Lemma emit_finish st depth sg top arg l1 l2 f2 tr k (invoke_fuel : nat) :
  dll (nodes st) sg (l1 ++ l2) →
  sigs st !! sg = Some top → toks st !! depth = None →
  callbacks st l2 f2 → Forall (λ f, body f arg = []) f2 →
  length l2 < k →
  (r ← signals.emission_loop body (signals.exec body (S invoke_fuel) (S depth)) k depth
         sg arg (during st depth sg top (hd sg l2), tr);
   st ← lift (signals.iteration_token_dtor depth r.2.1);
   Ret (r.1, (st, r.2.2))) =
  Ret (Normal, (st, tr ++ ((λ f, (f, arg)) <$> f2))).
Proof.
  intros Hd Hs Ht Hcb Hpure Hk.
  rewrite (emission_loop_pure body (signals.exec body (S invoke_fuel) (S depth))
             st depth sg top arg l2
             ltac:(by intros; rewrite signals_exec_S) l1 f2 tr k); try done.
  simpl. by rewrite during_done.
Qed.
End emission_steps.

(** X17: a connection whose callback is empty, as after [connect] with an
    empty [std::function], makes the emission end in [bad_function_call]
    when its turn comes: the callbacks in front of it have run, those behind
    it do not, and the store is the one of before the call, the token off
    the stack.  Both versions of the header behave so. *)
Theorem empty_callback_ends_emission
    (body : nat → nat → list action)
    (h : gmap nat list_element) (cm : gmap nat connection) (sm : gmap nat (option nat))
    (tks : gmap nat (iteration_token (option nat))) (tks' : gmap nat (iteration_token bool))
    (sg : nat) (l1 : list nat) (c : nat) (l2 : list nat) (f1 : list nat)
    (p : pointer) (top : option nat) (depth arg fuel : nat) (tr : list (nat * nat)) :
  dll h sg (l1 ++ c :: l2) →
  sm !! sg = Some top →
  tks !! depth = None → tks' !! depth = None →
  callbacks (State h cm tks sm) l1 f1 →
  Forall (λ f, body f arg = []) f1 →
  cm !! c = Some (Connection p None) →
  length l1 + 2 < fuel →
  signals.emit body fuel depth sg arg (State h cm tks sm, tr) =
    Ret (Thrown bad_function_call,
         (State h cm tks sm, tr ++ ((λ f, (f, arg)) <$> f1))) ∧
  alt.emit body fuel depth sg arg (State h cm tks' sm, tr) =
    Ret (Thrown bad_function_call,
         (State h cm tks' sm, tr ++ ((λ f, (f, arg)) <$> f1))).
Proof.
  intros Hd Hs Ht Ht' Hcb Hpure Hc Hfuel.
  assert (∃ k, fuel = length l1 + S k) as [k Hk] by (exists (fuel - length l1 - 1); lia).
  split.
  - rewrite (emit_up_to body (State h cm tks sm) depth sg top arg l1 c l2 f1 tr fuel (S k));
      try done; [|lia].
    rewrite (emission_loop_empty_slot body _ _ _ _ _ _ l1 c l2 p) by done.
    simpl. by rewrite during_done.
  - unfold alt.emit.
    rewrite (alt_call_operator_eq _ _ _ _ _ _ _ _ top (l1 ++ c :: l2)) by done.
    assert (hd sg (l1 ++ c :: l2) = hd sg (l1 ++ [c] ++ l2)) as -> by done.
    assert (∀ cfg, alt.exec body fuel (S depth) [] cfg = Ret (Normal, cfg)) as Hnil.
    { intros cfg. destruct fuel; [lia|]. by rewrite alt_exec_S. }
    rewrite Hk at 2.
    rewrite (alt_emission_loop_skip body (alt.exec body fuel (S depth))
               (State h cm tks' sm) depth sg top arg l1 Hnil
               [] ([c] ++ l2) f1 tr (S k)); try done.
    rewrite (alt_emission_loop_empty_slot body _ (State h cm tks' sm) _ _ _ _ l1 c l2 p)
      by done.
    cbn [mbind result_bind bind fst snd].
    pose proof (alt_during_done (State h cm tks' sm) depth sg top (hd sg l2) Ht' Hs) as Hdone.
    destruct (lift (alt.pop_token depth sg
                (alt_during (State h cm tks' sm) depth sg top (hd sg l2)))) as [st'| |];
      simpl in Hdone; [|done..]. simpl. by simplify_eq.
Qed.

Lemma empty_callback_ends_emission_witness :
  signals.emit scenario.quiet 10 0 0 7
    (State (nodes scenario.linked3)
           (<[2 := Connection (ptr 0) None]> (conns scenario.linked3)) ∅
           (sigs scenario.linked3), []) =
    Ret (Thrown bad_function_call,
         (State (nodes scenario.linked3)
                (<[2 := Connection (ptr 0) None]> (conns scenario.linked3)) ∅
                (sigs scenario.linked3), [] ++ ((λ f, (f, 7)) <$> [1]))) ∧
  alt.emit scenario.quiet 10 0 0 7
    (State (nodes scenario.linked3)
           (<[2 := Connection (ptr 0) None]> (conns scenario.linked3)) ∅
           (sigs scenario.linked3), []) =
    Ret (Thrown bad_function_call,
         (State (nodes scenario.linked3)
                (<[2 := Connection (ptr 0) None]> (conns scenario.linked3)) ∅
                (sigs scenario.linked3), [] ++ ((λ f, (f, 7)) <$> [1]))).
Proof.
  apply (empty_callback_ends_emission scenario.quiet
           (nodes scenario.linked3) (<[2 := Connection (ptr 0) None]> (conns scenario.linked3))
           (sigs scenario.linked3) ∅ ∅ 0 [1] 2 [3] [1] (ptr 0) None 0 7 10 []).
  - exact linked3_dll.
  - reflexivity.
  - reflexivity.
  - reflexivity.
  - repeat constructor; eexists; reflexivity.
  - repeat constructor.
  - reflexivity.
  - simpl. lia.
Defined.

Section nested.
Variable body : nat → nat → list action.
Implicit Type st : state (iteration_token (option nat)).

(** An emission in which no callback does anything. *)
Lemma emit_quiet st depth sg top arg cs fs tr fuel :
  dll (nodes st) sg cs →
  sigs st !! sg = Some top → toks st !! depth = None →
  callbacks st cs fs → Forall (λ f, body f arg = []) fs →
  length cs + 1 < fuel →
  signals.emit body fuel depth sg arg (st, tr) =
  Ret (Normal, (st, tr ++ ((λ f, (f, arg)) <$> fs))).
Proof.
  intros Hd Hs Ht Hcb Hpure Hfuel. destruct fuel as [|n]; [lia|].
  unfold signals.emit.
  rewrite (signals_call_operator_eq _ _ _ _ _ _ _ _ top cs) by done.
  apply (emit_finish body st depth sg top arg [] cs fs tr (S n) n); try done. lia.
Qed.

Lemma callbacks_during st t sg top cur cs fs :
  callbacks st cs fs → callbacks (during st t sg top cur) cs fs.
Proof. done. Qed.
End nested.

(** X18: an emission may be started from inside a callback of the same
    signal.  The inner emission gets a token of its own on top of the stack,
    invokes every linked callback, and takes its token off again; the outer
    emission then goes on with the connections it has not visited yet, and
    the store at the end is the one of before. *)
Theorem emission_from_inside_a_callback
    (body : nat → nat → list action) (st : state (iteration_token (option nat)))
    (sg : nat) (l1 : list nat) (c : nat) (l2 : list nat) (f1 : list nat) (f : nat)
    (f2 : list nat) (p : pointer) (top : option nat) (depth a b fuel : nat)
    (tr : list (nat * nat)) :
  dll (nodes st) sg (l1 ++ c :: l2) →
  sigs st !! sg = Some top →
  toks st !! depth = None → toks st !! S depth = None →
  callbacks st l1 f1 → conns st !! c = Some (Connection p (Some f)) →
  callbacks st l2 f2 →
  Forall (λ g, body g a = []) (f1 ++ f2) →
  body f a = [Emit sg b] →
  Forall (λ g, body g b = []) (f1 ++ f :: f2) →
  length (l1 ++ c :: l2) + 3 < fuel →
  signals.emit body fuel depth sg a (st, tr) =
  Ret (Normal,
       (st, tr ++ ((λ g, (g, a)) <$> f1) ++ [(f, a)] ++
                  ((λ g, (g, b)) <$> (f1 ++ f :: f2)) ++ ((λ g, (g, a)) <$> f2))).
Proof.
  intros Hd Hs Ht Ht' Hcb1 Hc Hcb2 Hpa Hb Hpb Hfuel.
  rewrite length_app in Hfuel. simpl in Hfuel.
  apply Forall_app in Hpa as [Hpa1 Hpa2].
  assert (∃ k, fuel = length l1 + S k ∧ length l2 < k) as (k & Hk & Hk2).
  { exists (fuel - length l1 - 1). lia. }
  rewrite (emit_up_to body st depth sg top a l1 c l2 f1 tr fuel (S k)); try done; [|lia].
  rewrite (emission_loop_step body _ st depth sg top a l1 c l2 p f) by done.
  rewrite Hb. destruct fuel as [|n]; [lia|].
  rewrite signals_exec_S. simpl run_list.
  rewrite lookup_insert_eq.
  cbn [lift mbind result_bind bind].
  change (signals.call_operator body (signals.exec body n (S (S depth))) n (S depth) sg b)
    with (signals.emit body n (S depth) sg b).
  rewrite (emit_quiet body (during st depth sg top (hd sg l2)) (S depth) sg (Some depth) b
             (l1 ++ c :: l2) (f1 ++ f :: f2)); try done.
  - cbn [andthen fst snd toks during]. rewrite lookup_insert_eq.
    cbn [lift mbind result_bind bind extra].
    change (State (nodes st) (conns st) (<[depth := _]> (toks st)) (<[sg := _]> (sigs st)))
      with (during st depth sg top (hd sg l2)).
    rewrite (emit_finish body st depth sg top a (l1 ++ [c]) l2 f2 _ k n); try done.
    + by rewrite <-!app_assoc.
    + by rewrite <-app_assoc.
  - by cbn; rewrite lookup_insert_eq.
  - cbn. rewrite lookup_insert_ne by lia. done.
  - apply Forall2_app; [done|]. constructor; [eauto|done].
  - rewrite length_app. simpl. lia.
Qed.

Lemma emission_from_inside_a_callback_witness :
  signals.emit (λ g x, match g, x with 2, 7 => [Emit 0 8] | _, _ => [] end) 10 0 0 7
    (scenario.linked3, []) =
  Ret (Normal,
       (scenario.linked3,
        [] ++ ((λ g, (g, 7)) <$> [1]) ++ [(2, 7)] ++
              ((λ g, (g, 8)) <$> ([1] ++ 2 :: [3])) ++ ((λ g, (g, 7)) <$> [3]))).
Proof.
  apply (emission_from_inside_a_callback
           (λ g x, match g, x with 2, 7 => [Emit 0 8] | _, _ => [] end)
           scenario.linked3 0 [1] 2 [3] [1] 2 [3] (ptr 0) None 0 7 8 10 []).
  - exact linked3_dll.
  - reflexivity.
  - reflexivity.
  - reflexivity.
  - repeat constructor; eexists; reflexivity.
  - reflexivity.
  - repeat constructor; eexists; reflexivity.
  - repeat constructor.
  - reflexivity.
  - repeat constructor.
  - simpl. lia.
Defined.

Section destroyed_in_callback.

(** [~signal()] run from a callback of the only emission under way, whose
    cursor is not at the end. *)
Lemma signal_dtor_during (st : state (iteration_token (option nat))) t sg cur cs fuel :
  dll (nodes st) sg cs → cur ≠ sg →
  toks st !! t = None →
  Forall (λ c, is_Some (conns st !! c)) cs →
  length cs + 1 < fuel →
  ∃ h' cm',
    signals.signal_dtor fuel sg (during st t sg None cur) =
      Ret (State h' cm' (<[t := IterationToken cur None None]> (toks st))
                 (delete sg (sigs st))) ∧
    h' !! sg = None ∧
    (∀ c, c ∈ cs → is_linked c h' = Some false ∧
                   cm' !! c = Some (Connection nullptr None)) ∧
    (∀ a, a ∉ sg :: cs → h' !! a = nodes st !! a ∧ cm' !! a = conns st !! a).
Proof.
  intros Hd Hcur Ht Hall Hfuel.
  unfold signals.signal_dtor, during. simpl. rewrite lookup_insert_eq. simpl.
  destruct (for_tokens_map fuel
              (λ tok : iteration_token (option nat),
                 if negb (current tok =? list.end_ sg)
                 then Some (set_extra None tok) else Some tok)
              (λ tok, if negb (current tok =? list.end_ sg)
                      then set_extra None tok else tok)
              (Some t) (<[t := IterationToken cur None (Some sg)]> (toks st)) [t])
    as (tks1 & -> & Htks).
  { simpl. split; [done|]. eexists. by rewrite lookup_insert_eq. }
  { simpl. lia. }
  { intros tok. by destruct (negb _). }
  { intros tok. by destruct (negb _). }
  assert (tks1 = <[t := IterationToken cur None None]> (toks st)) as ->.
  { apply map_eq. intros t'. rewrite Htks. destruct (decide (t' = t)) as [->|Hne].
    - rewrite decide_True by set_solver. rewrite !lookup_insert_eq. simpl.
      unfold list.end_. apply Nat.eqb_neq in Hcur. by rewrite Hcur.
    - rewrite decide_False by set_solver. by rewrite !lookup_insert_ne. }
  simpl.
  destruct (clear_connections_spec sg cs
              (State (nodes st) (conns st) (<[t := IterationToken cur None None]> (toks st))
                     (<[sg := Some t]> (sigs st))) fuel)
    as (h1 & cm1 & Hcc & Hd1 & Hself & Hfr); simpl; [done|done|lia|].
  unfold with_toks. simpl. rewrite Hcc. simpl.
  destruct (signal_members_dtor_spec
              (State h1 cm1 (<[t := IterationToken cur None None]> (toks st))
                     (<[sg := Some t]> (sigs st))) sg [] fuel)
    as (h2 & -> & Hsg2 & _ & Hfr2); simpl; [done|lia|].
  exists h2, cm1. rewrite delete_insert_eq. split; [done|]. split; [done|].
  assert (sg ∉ cs) as Hsg.
  { destruct Hd as [Hnd _]. by apply NoDup_cons in Hnd as [? _]. }
  split.
  - intros c Hc. destruct (Hself c Hc) as (Hn & Hp & Hcm). split; [|done].
    apply unlinked_is_linked; unfold load_next, load_prev in *;
      rewrite Hfr2; try done; set_solver.
  - intros a Ha. destruct (Hfr a Ha) as [Hh Hcm]. split; [|done].
    rewrite Hfr2; [done|set_solver].
Qed.

Lemma alt_signal_dtor_during (st : state (iteration_token bool)) t sg cur cs fuel :
  dll (nodes st) sg cs → cur ≠ sg →
  toks st !! t = None →
  length cs + 1 < fuel →
  ∃ h',
    alt.signal_dtor fuel sg (alt_during st t sg None cur) =
      Ret (State h' (conns st) (<[t := IterationToken cur None true]> (toks st))
                 (delete sg (sigs st))) ∧
    h' !! sg = None ∧
    (∀ c, c ∈ cs → is_linked c h' = Some false) ∧
    (∀ a, a ∉ sg :: cs → h' !! a = nodes st !! a).
Proof.
  intros Hd Hcur Ht Hfuel.
  unfold alt.signal_dtor, alt_during. simpl. rewrite lookup_insert_eq. simpl.
  destruct (for_tokens_map fuel
              (λ tok : iteration_token bool,
                 if negb (current tok =? list.end_ sg)
                 then Some (set_extra true tok) else Some tok)
              (λ tok, if negb (current tok =? list.end_ sg)
                      then set_extra true tok else tok)
              (Some t) (<[t := IterationToken cur None false]> (toks st)) [t])
    as (tks1 & -> & Htks).
  { simpl. split; [done|]. eexists. by rewrite lookup_insert_eq. }
  { simpl. lia. }
  { intros tok. by destruct (negb _). }
  { intros tok. by destruct (negb _). }
  assert (tks1 = <[t := IterationToken cur None true]> (toks st)) as ->.
  { apply map_eq. intros t'. rewrite Htks. destruct (decide (t' = t)) as [->|Hne].
    - rewrite decide_True by set_solver. rewrite !lookup_insert_eq. simpl.
      unfold list.end_. apply Nat.eqb_neq in Hcur. by rewrite Hcur.
    - rewrite decide_False by set_solver. by rewrite !lookup_insert_ne. }
  simpl. unfold with_toks. simpl.
  destruct (signal_members_dtor_spec
              (State (nodes st) (conns st) (<[t := IterationToken cur None true]> (toks st))
                     (<[sg := Some t]> (sigs st))) sg cs fuel)
    as (h2 & -> & Hsg2 & Hself & Hfr2); simpl; [done|lia|].
  exists h2. rewrite delete_insert_eq. split; [done|]. split; [done|].
  split; [|done].
  intros c Hc. destruct (Hself c Hc). by apply unlinked_is_linked.
Qed.
End destroyed_in_callback.

(** X19: when a callback other than the one of the last connection
    destroys the signal, the emission, the only one under way, ends right
    after that callback and returns normally: no callback behind it runs, the
    token is gone without a store into the destroyed signal, and every
    connection is left unlinked.  Both versions of the header behave so;
    signals.h also clears the callbacks of the connections. *)
Theorem signal_destroyed_before_last_callback
    (body : nat → nat → list action)
    (h : gmap nat list_element) (cm : gmap nat connection) (sm : gmap nat (option nat))
    (tks : gmap nat (iteration_token (option nat))) (tks' : gmap nat (iteration_token bool))
    (sg : nat) (l1 : list nat) (c n : nat) (l2 : list nat) (f1 : list nat) (f : nat)
    (p : pointer) (depth arg fuel : nat) (tr : list (nat * nat)) :
  dll h sg (l1 ++ c :: n :: l2) →
  sm !! sg = Some None →
  tks !! depth = None → tks' !! depth = None →
  callbacks (State h cm tks sm) l1 f1 →
  Forall (λ g, body g arg = []) f1 →
  cm !! c = Some (Connection p (Some f)) →
  Forall (λ c', is_Some (cm !! c')) (n :: l2) →
  body f arg = [DeleteSignal sg] →
  length (l1 ++ c :: n :: l2) + 3 < fuel →
  (∃ h' cm',
     signals.emit body fuel depth sg arg (State h cm tks sm, tr) =
       Ret (Normal, (State h' cm' tks (delete sg sm),
                     tr ++ ((λ g, (g, arg)) <$> f1) ++ [(f, arg)])) ∧
     h' !! sg = None ∧
     ∀ c', c' ∈ l1 ++ c :: n :: l2 →
       is_linked c' h' = Some false ∧ cm' !! c' = Some (Connection nullptr None)) ∧
  (∃ h',
     alt.emit body fuel depth sg arg (State h cm tks' sm, tr) =
       Ret (Normal, (State h' cm tks' (delete sg sm),
                     tr ++ ((λ g, (g, arg)) <$> f1) ++ [(f, arg)])) ∧
     h' !! sg = None ∧
     ∀ c', c' ∈ l1 ++ c :: n :: l2 → is_linked c' h' = Some false).
Proof.
  intros Hd Hs Ht Ht' Hcb Hpure Hc Hall Hb Hfuel.
  assert (n ≠ sg) as Hn.
  { eapply dll_elem_ne; [done|]. set_solver. }
  assert (Forall (λ c', is_Some (cm !! c')) (l1 ++ c :: n :: l2)) as Hall'.
  { apply Forall_app. split; [|constructor; [eauto|done]].
    clear -Hcb. induction Hcb as [|? ? ? ? (q & Hq)]; constructor; [eauto|done]. }
  rewrite length_app in Hfuel. simpl in Hfuel.
  assert (∃ k, fuel = length l1 + S k) as [k Hk] by (exists (fuel - length l1 - 1); lia).
  destruct fuel as [|m]; [lia|].
  split.
  - destruct (signal_dtor_during (State h cm tks sm) depth sg n (l1 ++ c :: n :: l2) m)
      as (h' & cm' & Hdtor & Hsg & Hun & _); simpl; try done.
    { rewrite length_app. simpl. lia. }
    exists h', cm'. split; [|done].
    rewrite (emit_up_to body (State h cm tks sm) depth sg None arg l1 c (n :: l2) f1 tr
               (S m) (S k)); try done; [|lia].
    rewrite (emission_loop_step body _ _ depth sg None arg l1 c (n :: l2) p f) by done.
    rewrite Hb, signals_exec_S. simpl run_list. rewrite lookup_insert_eq.
    cbn [lift mbind result_bind bind hd]. rewrite Hdtor.
    cbn [on_state andthen mbind result_bind bind fst snd toks].
    rewrite lookup_insert_eq. cbn [lift mbind result_bind bind extra fst snd].
    unfold signals.iteration_token_dtor. cbn [toks]. rewrite lookup_insert_eq.
    cbn [mbind option_bind extra lift result_bind bind nodes conns sigs fst snd].
    rewrite delete_insert_eq, delete_id by done. by rewrite <-app_assoc.
  - destruct (alt_signal_dtor_during (State h cm tks' sm) depth sg n (l1 ++ c :: n :: l2) m)
      as (h' & Hdtor & Hsg & Hun & _); simpl; try done.
    { rewrite length_app. simpl. lia. }
    exists h'. split; [|done].
    unfold alt.emit.
    rewrite (alt_call_operator_eq _ _ _ _ _ _ _ _ None (l1 ++ c :: n :: l2)) by done.
    assert (hd sg (l1 ++ c :: n :: l2) = hd sg (l1 ++ [c] ++ n :: l2)) as -> by done.
    assert (∀ cfg, alt.exec body (S m) (S depth) [] cfg = Ret (Normal, cfg)) as Hnil.
    { intros cfg. by rewrite alt_exec_S. }
    rewrite Hk at 2.
    rewrite (alt_emission_loop_skip body (alt.exec body (S m) (S depth))
               (State h cm tks' sm) depth sg None arg l1 Hnil
               [] ([c] ++ n :: l2) f1 tr (S k)); try done.
    rewrite (alt_emission_loop_step body _ (State h cm tks' sm) depth sg None arg
               l1 c (n :: l2) p f) by done.
    rewrite Hb, alt_exec_S. simpl run_list. rewrite lookup_insert_eq.
    cbn [lift mbind result_bind bind hd].
    rewrite Hdtor.
    cbn [on_state andthen mbind result_bind bind fst snd toks].
    rewrite lookup_insert_eq. cbn [lift mbind result_bind bind extra fst snd].
    cbn [with_toks toks nodes conns sigs].
    rewrite delete_insert_eq, delete_id by done. by rewrite <-app_assoc.
Qed.


Lemma signal_destroyed_before_last_callback_witness :
  (∃ h' cm',
     signals.emit scenario.destroy_in_middle 10 0 0 7
       (State (nodes scenario.linked3) (conns scenario.linked3) ∅ (sigs scenario.linked3), [])
     = Ret (Normal, (State h' cm' ∅ (delete 0 (sigs scenario.linked3)),
                     [] ++ ((λ g, (g, 7)) <$> [1]) ++ [(2, 7)])) ∧
     h' !! 0 = None ∧
     ∀ c', c' ∈ [1] ++ 2 :: 3 :: [] →
       is_linked c' h' = Some false ∧ cm' !! c' = Some (Connection nullptr None)) ∧
  (∃ h',
     alt.emit scenario.destroy_in_middle 10 0 0 7
       (State (nodes scenario.linked3) (conns scenario.linked3) ∅ (sigs scenario.linked3), [])
     = Ret (Normal, (State h' (conns scenario.linked3) ∅ (delete 0 (sigs scenario.linked3)),
                     [] ++ ((λ g, (g, 7)) <$> [1]) ++ [(2, 7)])) ∧
     h' !! 0 = None ∧
     ∀ c', c' ∈ [1] ++ 2 :: 3 :: [] → is_linked c' h' = Some false).
Proof.
  apply (signal_destroyed_before_last_callback scenario.destroy_in_middle
           (nodes scenario.linked3) (conns scenario.linked3) (sigs scenario.linked3) ∅ ∅
           0 [1] 2 3 [] [1] 2 (ptr 0) 0 7 10 []).
  - exact linked3_dll.
  - reflexivity.
  - reflexivity.
  - reflexivity.
  - repeat constructor; eexists; reflexivity.
  - repeat constructor.
  - reflexivity.
  - repeat constructor; eexists; reflexivity.
  - reflexivity.
  - simpl. lia.
Defined.

Section mutation_in_callback.
Implicit Type st : state (iteration_token (option nat)).

Lemma callbacks_conns {T U} (st : state T) (st' : state U) cs fs :
  callbacks st cs fs → (∀ c, c ∈ cs → conns st' !! c = conns st !! c) →
  callbacks st' cs fs.
Proof.
  unfold callbacks. intros H Hc. induction H as [|c f cs fs (p & Hp) H IH]; [constructor|].
  constructor; [|apply IH; intros; apply Hc; set_solver].
  exists p. rewrite Hc; [done|set_solver].
Qed.

Lemma token_chain_during st t sg top cur tl :
  token_chain (toks st) top tl → toks st !! t = None →
  token_chain (toks (during st t sg top cur)) (Some t) (t :: tl).
Proof.
  intros Htc Ht. simpl. split; [done|]. eexists. rewrite lookup_insert_eq.
  split; [done|]. simpl. eapply token_chain_frame; [done|].
  intros t0 tok0 Hin Ht0. exists tok0. rewrite lookup_insert_ne; [done|].
  intros ->. congruence.
Qed.
End mutation_in_callback.

(** X20: a callback may connect a new connection to the signal that is
    being emitted.  The new connection is linked at the front of the list,
    behind the cursor, so its callback is not invoked in the emission under
    way, which goes on to visit each of the other connections once. *)
Theorem connect_from_inside_a_callback
    (body : nat → nat → list action) (st : state (iteration_token (option nat)))
    (sg : nat) (l1 : list nat) (c : nat) (l2 : list nat) (f1 : list nat) (f : nat)
    (f2 : list nat) (p : pointer) (nw : nat) (g : option nat) (top : option nat)
    (depth arg fuel : nat) (tr : list (nat * nat)) :
  dll (nodes st) sg (l1 ++ c :: l2) →
  sigs st !! sg = Some top → toks st !! depth = None →
  callbacks st l1 f1 → conns st !! c = Some (Connection p (Some f)) →
  callbacks st l2 f2 →
  Forall (λ x, body x arg = []) (f1 ++ f2) →
  body f arg = [Connect nw sg g] →
  nodes st !! nw = None → conns st !! nw = None →
  length (l1 ++ c :: l2) + 3 < fuel →
  ∃ h', signals.emit body fuel depth sg arg (st, tr) =
          Ret (Normal,
               (State h' (<[nw := Connection (ptr sg) g]> (conns st)) (toks st) (sigs st),
                tr ++ ((λ x, (x, arg)) <$> (f1 ++ f :: f2)))) ∧
        dll h' sg (nw :: l1 ++ c :: l2).
Proof.
  intros Hd Hs Ht Hcb1 Hc Hcb2 Hpure Hb Hnw Hnwc Hfuel.
  rewrite length_app in Hfuel. simpl in Hfuel.
  apply Forall_app in Hpure as [Hp1 Hp2].
  assert (∃ k, fuel = length l1 + S k ∧ length l2 < k) as (k & Hk & Hk2).
  { exists (fuel - length l1 - 1). lia. }
  destruct (connect_front (during st depth sg top (hd sg l2)) sg (l1 ++ c :: l2) nw g)
    as (h' & Hcon & Hd'); try done.
  exists h'. split; [|done].
  rewrite (emit_up_to body st depth sg top arg l1 c l2 f1 tr fuel (S k)); try done; [|lia].
  rewrite (emission_loop_step body _ st depth sg top arg l1 c l2 p f) by done.
  rewrite Hb. destruct fuel as [|n]; [lia|].
  rewrite signals_exec_S. simpl run_list. rewrite lookup_insert_eq.
  cbn [lift mbind result_bind bind]. rewrite Hcon.
  cbn [lift on_state andthen mbind result_bind bind fst snd toks conns sigs nodes during].
  rewrite lookup_insert_eq. cbn [lift mbind result_bind bind extra].
  change (State h' (<[nw := Connection (ptr sg) g]> (conns st))
                (<[depth := IterationToken (hd sg l2) top (Some sg)]> (toks st))
                (<[sg := Some depth]> (sigs st)))
    with (during (State h' (<[nw := Connection (ptr sg) g]> (conns st)) (toks st) (sigs st))
            depth sg top (hd sg l2)).
  rewrite (emit_finish body
             (State h' (<[nw := Connection (ptr sg) g]> (conns st)) (toks st) (sigs st))
             depth sg top arg (nw :: l1 ++ [c]) l2 f2 _ k n); try done.
  - rewrite fmap_app, fmap_cons. by rewrite <-!app_assoc.
  - simpl. by rewrite <-app_assoc.
  - eapply callbacks_conns; [exact Hcb2|]. intros c' Hc'. simpl.
    rewrite lookup_insert_ne; [done|]. intros ->.
    pose proof (dll_fresh _ _ _ _ Hd Hnw). set_solver.
Qed.

Lemma connect_from_inside_a_callback_witness :
  ∃ h', signals.emit (λ x _, match x with 2 => [Connect 5 0 (Some 5)] | _ => [] end)
          10 0 0 7 (scenario.linked3, []) =
          Ret (Normal,
               (State h' (<[5 := Connection (ptr 0) (Some 5)]> (conns scenario.linked3))
                      (toks scenario.linked3) (sigs scenario.linked3),
                [] ++ ((λ x, (x, 7)) <$> ([1] ++ 2 :: [3])))) ∧
        dll h' 0 (5 :: [1] ++ 2 :: [3]).
Proof.
  apply (connect_from_inside_a_callback
           (λ x _, match x with 2 => [Connect 5 0 (Some 5)] | _ => [] end)
           scenario.linked3 0 [1] 2 [3] [1] 2 [3] (ptr 0) 5 (Some 5) None 0 7 10 []).
  - exact linked3_dll.
  - reflexivity.
  - reflexivity.
  - repeat constructor; eexists; reflexivity.
  - reflexivity.
  - repeat constructor; eexists; reflexivity.
  - repeat constructor.
  - reflexivity.
  - reflexivity.
  - reflexivity.
  - simpl. lia.
Defined.

(** X21: a callback may disconnect a connection further down the list than
    the next one in line.  The cursors do not point at it, so the emission
    under way goes on undisturbed: it invokes every other connection once,
    in order, and never the disconnected one. *)
Theorem disconnect_later_connection_from_callback
    (body : nat → nat → list action) (st : state (iteration_token (option nat)))
    (sg : nat) (l1 : list nat) (c n : nat) (m1 : list nat) (d : nat) (m2 : list nat)
    (f1 : list nat) (f : nat) (fa fb : list nat) (p : pointer) (sd : option nat)
    (top : option nat) (tl : list nat) (depth arg fuel : nat) (tr : list (nat * nat)) :
  dll (nodes st) sg (l1 ++ c :: n :: m1 ++ d :: m2) →
  sigs st !! sg = Some top →
  token_chain (toks st) top tl → toks st !! depth = None →
  callbacks st l1 f1 → conns st !! c = Some (Connection p (Some f)) →
  callbacks st (n :: m1) fa → conns st !! d = Some (Connection (ptr sg) sd) →
  callbacks st m2 fb →
  Forall (λ x, body x arg = []) (f1 ++ fa ++ fb) →
  body f arg = [Disconnect d] →
  length (l1 ++ c :: n :: m1 ++ d :: m2) + length tl + 3 < fuel →
  ∃ h', signals.emit body fuel depth sg arg (st, tr) =
          Ret (Normal,
               (State h' (<[d := Connection nullptr None]> (conns st)) (toks st) (sigs st),
                tr ++ ((λ x, (x, arg)) <$> (f1 ++ f :: fa ++ fb)))) ∧
        dll h' sg (l1 ++ c :: n :: m1 ++ m2) ∧
        is_linked d h' = Some false.
Proof.
  intros Hd Hs Htc Ht Hcb1 Hc Hcba Hcd Hcbb Hpure Hb Hfuel.
  rewrite !length_app in Hfuel. simpl in Hfuel. rewrite !length_app in Hfuel.
  simpl in Hfuel.
  apply Forall_app in Hpure as [Hp1 Hpab].
  assert (∃ k, fuel = length l1 + S k ∧ length (n :: m1 ++ m2) < k) as (k & Hk & Hk2).
  { exists (fuel - length l1 - 1). simpl. rewrite length_app. lia. }
  destruct fuel as [|n0]; [lia|].
  assert (dll (nodes st) sg ((l1 ++ c :: n :: m1) ++ d :: m2)) as Hd2.
  { by rewrite <-app_assoc. }
  destruct (disconnect_linked_twice n0 (during st depth sg top n) sg
              (l1 ++ c :: n :: m1) d m2 sd (Some depth) (depth :: tl))
    as (h' & Hdis & Hr & Hd' & Hdn & Hdp); try done.
  { simpl. by rewrite lookup_insert_eq. }
  { by apply token_chain_during. }
  { simpl. lia. }
  rewrite <-app_assoc in Hd'. simpl in Hd'.
  exists h'. split_and!; [|done|by apply unlinked_is_linked].
  rewrite (emit_up_to body st depth sg top arg l1 c (n :: m1 ++ d :: m2) f1 tr (S n0) (S k));
    try done; [|lia].
  rewrite (emission_loop_step body _ st depth sg top arg l1 c (n :: m1 ++ d :: m2) p f)
    by done.
  rewrite Hb, signals_exec_S. simpl run_list. cbn [hd conns during].
  rewrite Hcd. cbn [lift mbind result_bind bind]. rewrite Hdis.
  cbn [lift on_state andthen mbind result_bind bind fst snd toks conns sigs nodes during].
  rewrite lookup_insert_eq. cbn [lift mbind result_bind bind extra].
  change (State h' (<[d := Connection nullptr None]> (conns st))
                (<[depth := IterationToken n top (Some sg)]> (toks st))
                (<[sg := Some depth]> (sigs st)))
    with (during (State h' (<[d := Connection nullptr None]> (conns st)) (toks st) (sigs st))
            depth sg top (hd sg (n :: m1 ++ m2))).
  assert (d ∉ n :: m1 ++ m2) as Hdnot.
  { destruct Hd as [Hnd _]. clear -Hnd. apply NoDup_cons in Hnd as [_ Hnd].
    apply NoDup_app in Hnd as (_ & _ & Hnd). apply NoDup_cons in Hnd as [_ Hnd].
    rewrite app_comm_cons in Hnd. apply NoDup_app in Hnd as (_ & Hdis & Hnd).
    apply NoDup_cons in Hnd as [Hd2 _]. intros Hin.
    rewrite app_comm_cons in Hin. apply elem_of_app in Hin as [Hin|Hin]; [|done].
    apply (Hdis d Hin). apply list_elem_of_here. }
  rewrite (emit_finish body
             (State h' (<[d := Connection nullptr None]> (conns st)) (toks st) (sigs st))
             depth sg top arg (l1 ++ [c]) (n :: m1 ++ m2) (fa ++ fb) _ k n0); try done.
  - rewrite !fmap_app, fmap_cons, fmap_app. by rewrite <-!app_assoc.
  - simpl. by rewrite <-app_assoc.
  - eapply callbacks_conns.
    + rewrite app_comm_cons. apply Forall2_app; [exact Hcba|exact Hcbb].
    + intros c' Hc'. simpl. rewrite lookup_insert_ne; [done|]. by intros ->.
Qed.

Lemma linked4_dll : dll (nodes scenario.linked4) 0 [1; 2; 3; 4].
Proof.
  split; [repeat (apply NoDup_cons_2; [set_solver|]); apply NoDup_nil_2|].
  vm_compute. repeat split.
Defined.

Lemma disconnect_later_connection_from_callback_witness :
  ∃ h', signals.emit (λ x _, match x with 1 => [Disconnect 3] | _ => [] end) 12 0 0 7
          (scenario.linked4, []) =
          Ret (Normal,
               (State h' (<[3 := Connection nullptr None]> (conns scenario.linked4))
                      (toks scenario.linked4) (sigs scenario.linked4),
                [] ++ ((λ x, (x, 7)) <$> ([] ++ 1 :: [2] ++ [4])))) ∧
        dll h' 0 ([] ++ 1 :: 2 :: [] ++ [4]) ∧
        is_linked 3 h' = Some false.
Proof.
  apply (disconnect_later_connection_from_callback
           (λ x _, match x with 1 => [Disconnect 3] | _ => [] end)
           scenario.linked4
           0 [] 1 2 [] 3 [4] [] 1 [2] [4] (ptr 0) (Some 3) None [] 0 7 12 []).
  - exact linked4_dll.
  - reflexivity.
  - reflexivity.
  - reflexivity.
  - constructor.
  - reflexivity.
  - repeat constructor; eexists; reflexivity.
  - reflexivity.
  - repeat constructor; eexists; reflexivity.
  - repeat constructor.
  - reflexivity.
  - simpl. lia.
Defined.

(** X22: a callback may disconnect a connection that the emission under way
    has visited already.  The emission goes on undisturbed and invokes each
    of the connections behind the cursor once; the disconnected connection
    is out of the list afterwards. *)
Theorem disconnect_earlier_connection_from_callback
    (body : nat → nat → list action) (st : state (iteration_token (option nat)))
    (sg : nat) (k1 : list nat) (d : nat) (k2 : list nat) (c : nat) (l2 : list nat)
    (f1 : list nat) (f : nat) (f2 : list nat) (p : pointer) (sd : option nat)
    (top : option nat) (tl : list nat) (depth arg fuel : nat) (tr : list (nat * nat)) :
  dll (nodes st) sg (k1 ++ d :: k2 ++ c :: l2) →
  sigs st !! sg = Some top →
  token_chain (toks st) top tl → toks st !! depth = None →
  callbacks st (k1 ++ d :: k2) f1 → conns st !! d = Some (Connection (ptr sg) sd) →
  conns st !! c = Some (Connection p (Some f)) →
  callbacks st l2 f2 →
  Forall (λ x, body x arg = []) (f1 ++ f2) →
  body f arg = [Disconnect d] →
  length (k1 ++ d :: k2 ++ c :: l2) + length tl + 3 < fuel →
  ∃ h', signals.emit body fuel depth sg arg (st, tr) =
          Ret (Normal,
               (State h' (<[d := Connection nullptr None]> (conns st)) (toks st) (sigs st),
                tr ++ ((λ x, (x, arg)) <$> (f1 ++ f :: f2)))) ∧
        dll h' sg (k1 ++ k2 ++ c :: l2) ∧
        is_linked d h' = Some false.
Proof.
  intros Hd Hs Htc Ht Hcb1 Hcd Hc Hcb2 Hpure Hb Hfuel.
  rewrite !length_app in Hfuel. simpl in Hfuel. rewrite !length_app in Hfuel.
  simpl in Hfuel.
  apply Forall_app in Hpure as [Hp1 Hp2].
  assert (∃ k, fuel = length (k1 ++ d :: k2) + S k ∧ length l2 < k) as (k & Hk & Hk2).
  { exists (fuel - length (k1 ++ d :: k2) - 1). rewrite length_app. simpl. lia. }
  destruct fuel as [|n0]; [lia|].
  assert (dll (nodes st) sg ((k1 ++ d :: k2) ++ c :: l2)) as Hd2.
  { by rewrite <-app_assoc. }
  destruct (disconnect_linked_twice n0 (during st depth sg top (hd sg l2)) sg
              k1 d (k2 ++ c :: l2) sd (Some depth) (depth :: tl))
    as (h' & Hdis & Hr & Hd' & Hdn & Hdp); try done.
  { simpl. by rewrite lookup_insert_eq. }
  { by apply token_chain_during. }
  { simpl. lia. }
  exists h'. split_and!; [|done|by apply unlinked_is_linked].
  rewrite (emit_up_to body st depth sg top arg (k1 ++ d :: k2) c l2 f1 tr (S n0) (S k));
    try done; [|lia].
  rewrite (emission_loop_step body _ st depth sg top arg (k1 ++ d :: k2) c l2 p f) by done.
  rewrite Hb, signals_exec_S. simpl run_list. cbn [conns during].
  rewrite Hcd. cbn [lift mbind result_bind bind]. rewrite Hdis.
  cbn [lift on_state andthen mbind result_bind bind fst snd toks conns sigs nodes during].
  rewrite lookup_insert_eq. cbn [lift mbind result_bind bind extra].
  change (State h' (<[d := Connection nullptr None]> (conns st))
                (<[depth := IterationToken (hd sg l2) top (Some sg)]> (toks st))
                (<[sg := Some depth]> (sigs st)))
    with (during (State h' (<[d := Connection nullptr None]> (conns st)) (toks st) (sigs st))
            depth sg top (hd sg l2)).
  assert (d ∉ l2) as Hdnot.
  { destruct Hd as [Hnd _]. clear -Hnd. apply NoDup_cons in Hnd as [_ Hnd].
    apply NoDup_app in Hnd as (_ & _ & Hnd). apply NoDup_cons in Hnd as [Hd2 _].
    intros Hin. apply Hd2. set_solver. }
  rewrite (emit_finish body
             (State h' (<[d := Connection nullptr None]> (conns st)) (toks st) (sigs st))
             depth sg top arg (k1 ++ k2 ++ [c]) l2 f2 _ k n0); try done.
  - rewrite !fmap_app, fmap_cons. by rewrite <-!app_assoc.
  - simpl. by rewrite <-!app_assoc.
  - eapply callbacks_conns; [exact Hcb2|].
    intros c' Hc'. simpl. rewrite lookup_insert_ne; [done|]. by intros ->.
Qed.

Lemma disconnect_earlier_connection_from_callback_witness :
  ∃ h', signals.emit (λ x _, match x with 3 => [Disconnect 1] | _ => [] end) 12 0 0 7
          (scenario.linked4, []) =
          Ret (Normal,
               (State h' (<[1 := Connection nullptr None]> (conns scenario.linked4))
                      (toks scenario.linked4) (sigs scenario.linked4),
                [] ++ ((λ x, (x, 7)) <$> ([1; 2] ++ 3 :: [4])))) ∧
        dll h' 0 ([] ++ [2] ++ 3 :: [4]) ∧
        is_linked 1 h' = Some false.
Proof.
  apply (disconnect_earlier_connection_from_callback
           (λ x _, match x with 3 => [Disconnect 1] | _ => [] end)
           scenario.linked4
           0 [] 1 [2] 3 [4] [1; 2] 3 [4] (ptr 0) (Some 1) None [] 0 7 12 []).
  - exact linked4_dll.
  - reflexivity.
  - reflexivity.
  - reflexivity.
  - repeat constructor; eexists; reflexivity.
  - reflexivity.
  - reflexivity.
  - repeat constructor; eexists; reflexivity.
  - repeat constructor.
  - reflexivity.
  - simpl. lia.
Defined.

(** X23: move construction from a linked connection puts the new connection
    at the place of the old one, between the same neighbours, gives it the
    signal pointer and the callback of the old one, leaves the old one
    unlinked, and turns every cursor of the token stack that pointed at the
    old connection to the new one; the other cursors stay.  Moving from a
    connection that is not linked gives a connection that is not linked. *)
Theorem move_construction_takes_position
    (st : state (iteration_token (option nat))) (sg : nat) (l1 : list nat) (o : nat)
    (l2 : list nat) (this : nat) (so : option nat) (top : option nat) (tl : list nat)
    (fuel : nat) :
  dll (nodes st) sg (l1 ++ o :: l2) →
  nodes st !! this = None → conns st !! this = None →
  conns st !! o = Some (Connection (ptr sg) so) →
  sigs st !! sg = Some top →
  token_chain (toks st) top tl → length tl ≤ fuel →
  (∃ st', connection_move_ctor fuel this o st = Ret st' ∧
          dll (nodes st') sg (l1 ++ this :: l2) ∧
          is_linked o (nodes st') = Some false ∧
          conns st' = <[this := Connection (ptr sg) so]> (conns st) ∧
          sigs st' = sigs st ∧
          (∀ t, toks st' !! t = if decide (t ∈ tl) then repoint this o <$> toks st !! t
                                else toks st !! t)) ∧
  (∀ st0 : state (iteration_token (option nat)),
     load_next (nodes st0) o = Some o → load_prev (nodes st0) o = Some o →
     nodes st0 !! this = None → conns st0 !! this = None → is_Some (conns st0 !! o) →
     ∃ st', connection_move_ctor fuel this o st0 = Ret st' ∧
            is_linked this (nodes st') = Some false ∧
            is_linked o (nodes st') = Some false).
Proof.
  intros Hd Hn Hc Ho Hs Htc Hlen. split.
  - destruct (move_construct_linked fuel st sg l1 o l2 this so top tl)
      as (h' & tks' & Hm & Hd' & Hl & Htk); try done.
    eexists. split; [exact Hm|]. done.
  - intros st0 Hon Hop Hn0 Hc0 [x Hx].
    by eapply move_construct_unlinked.
Qed.

Lemma move_construction_takes_position_witness :
  (∃ st', connection_move_ctor 0 5 2 scenario.linked3 = Ret st' ∧
          dll (nodes st') 0 ([1] ++ 5 :: [3]) ∧
          is_linked 2 (nodes st') = Some false ∧
          conns st' = <[5 := Connection (ptr 0) (Some 2)]> (conns scenario.linked3) ∧
          sigs st' = sigs scenario.linked3 ∧
          (∀ t, toks st' !! t =
                if decide (t ∈ []) then repoint 5 2 <$> toks scenario.linked3 !! t
                else toks scenario.linked3 !! t)) ∧
  (∀ st0 : state (iteration_token (option nat)),
     load_next (nodes st0) 2 = Some 2 → load_prev (nodes st0) 2 = Some 2 →
     nodes st0 !! 5 = None → conns st0 !! 5 = None → is_Some (conns st0 !! 2) →
     ∃ st', connection_move_ctor 0 5 2 st0 = Ret st' ∧
            is_linked 5 (nodes st') = Some false ∧
            is_linked 2 (nodes st') = Some false).
Proof.
  apply (move_construction_takes_position scenario.linked3 0 [1] 2 [3] 5 (Some 2) None [] 0).
  - exact linked3_dll.
  - reflexivity.
  - reflexivity.
  - reflexivity.
  - reflexivity.
  - reflexivity.
  - simpl. lia.
Defined.

(** X24: move assignment to a connection that is not linked puts it at the
    place of the source, gives it the signal pointer and the callback of the
    source, leaves the source unlinked with an empty callback, and turns
    every cursor that pointed at the source to the destination. *)
Theorem move_assignment_takes_position
    (st : state (iteration_token (option nat))) (sg : nat) (l1 : list nat) (o : nat)
    (l2 : list nat) (this : nat) (so : option nat) (x : connection) (top : option nat)
    (tl : list nat) (fuel : nat) :
  dll (nodes st) sg (l1 ++ o :: l2) →
  load_next (nodes st) this = Some this → load_prev (nodes st) this = Some this →
  conns st !! this = Some x →
  conns st !! o = Some (Connection (ptr sg) so) →
  sigs st !! sg = Some top →
  token_chain (toks st) top tl → length tl ≤ fuel →
  ∃ st', connection_move_assign signals.disconnect fuel this o st = Ret st' ∧
         dll (nodes st') sg (l1 ++ this :: l2) ∧
         is_linked o (nodes st') = Some false ∧
         conns st' = <[o := Connection (ptr sg) None]>
                       (<[this := Connection (ptr sg) so]> (conns st)) ∧
         sigs st' = sigs st ∧
         (∀ t, toks st' !! t = if decide (t ∈ tl) then repoint this o <$> toks st !! t
                               else toks st !! t).
Proof.
  intros Hd Hn Hp Hx Ho Hs Htc Hlen.
  destruct (move_assign_linked fuel st sg l1 o l2 this so x top tl)
    as (h' & tks' & Hm & Hd' & Hl & Htk); try done.
  eexists. split; [exact Hm|]. done.
Qed.

Lemma move_assignment_takes_position_witness :
  ∃ st', connection_move_assign signals.disconnect 0 5 2 scenario.linked3_and_5 = Ret st' ∧
         dll (nodes st') 0 ([1] ++ 5 :: [3]) ∧
         is_linked 2 (nodes st') = Some false ∧
         conns st' = <[2 := Connection (ptr 0) None]>
                       (<[5 := Connection (ptr 0) (Some 2)]>
                          (conns scenario.linked3_and_5)) ∧
         sigs st' = sigs scenario.linked3_and_5 ∧
         (∀ t, toks st' !! t =
               if decide (t ∈ []) then repoint 5 2 <$> toks scenario.linked3_and_5 !! t
               else toks scenario.linked3_and_5 !! t).
Proof.
  apply (move_assignment_takes_position scenario.linked3_and_5
           0 [1] 2 [3] 5 (Some 2) (Connection indeterminate None) None [] 0).
  - exact linked3_and_5_dll.
  - reflexivity.
  - reflexivity.
  - reflexivity.
  - reflexivity.
  - reflexivity.
  - reflexivity.
  - simpl. lia.
Defined.

(** X25: a callback may move the connection that is next in line to a new
    connection object.  The cursor of the emission under way is turned to
    the new object, so the emission goes on there: the callback that was
    moved is invoked once, through the new connection, and then the rest of
    the list; the cursors of the emissions further down the stack are turned
    as well when they pointed at the old object. *)
Theorem move_next_connection_from_callback
    (body : nat → nat → list action) (st : state (iteration_token (option nat)))
    (sg : nat) (l1 : list nat) (c n : nat) (l2 : list nat) (f1 : list nat)
    (f fn : nat) (f2 : list nat) (p : pointer) (nw : nat) (top : option nat)
    (tl : list nat) (depth arg fuel : nat) (tr : list (nat * nat)) :
  dll (nodes st) sg (l1 ++ c :: n :: l2) →
  sigs st !! sg = Some top →
  token_chain (toks st) top tl → toks st !! depth = None →
  callbacks st l1 f1 → conns st !! c = Some (Connection p (Some f)) →
  conns st !! n = Some (Connection (ptr sg) (Some fn)) →
  callbacks st l2 f2 →
  Forall (λ x, body x arg = []) (f1 ++ fn :: f2) →
  body f arg = [MoveConstruct nw n] →
  nodes st !! nw = None → conns st !! nw = None →
  length (l1 ++ c :: n :: l2) + length tl + 3 < fuel →
  ∃ h' tks',
    signals.emit body fuel depth sg arg (st, tr) =
      Ret (Normal,
           (State h' (<[nw := Connection (ptr sg) (Some fn)]> (conns st)) tks' (sigs st),
            tr ++ ((λ x, (x, arg)) <$> (f1 ++ f :: fn :: f2)))) ∧
    dll h' sg (l1 ++ c :: nw :: l2) ∧
    is_linked n h' = Some false ∧
    (∀ t, tks' !! t = if decide (t ∈ tl) then repoint nw n <$> toks st !! t
                      else toks st !! t).
Proof.
  intros Hd Hs Htc Ht Hcb1 Hc Hcn Hcb2 Hpure Hb Hnw Hnwc Hfuel.
  rewrite !length_app in Hfuel. simpl in Hfuel.
  apply Forall_app in Hpure as [Hp1 Hp2].
  assert (∃ k, fuel = length l1 + S k ∧ length (nw :: l2) < k) as (k & Hk & Hk2).
  { exists (fuel - length l1 - 1). simpl. lia. }
  destruct fuel as [|n0]; [lia|].
  assert (dll (nodes st) sg ((l1 ++ [c]) ++ n :: l2)) as Hd2.
  { by rewrite <-app_assoc. }
  destruct (move_construct_linked n0 (during st depth sg top n) sg (l1 ++ [c]) n l2 nw
              (Some fn) (Some depth) (depth :: tl))
    as (h' & tks1 & Hm & Hd' & Hl & Htk); try done.
  { simpl. by rewrite lookup_insert_eq. }
  { by apply token_chain_during. }
  { simpl. lia. }
  rewrite <-app_assoc in Hd'. simpl in Hd'.
  assert (depth ∉ tl) as Hdtl.
  { intros Hin. apply list_elem_of_split in Hin as (ta & tb & ->).
    apply token_chain_suffix in Htc. simpl in Htc.
    destruct Htc as (_ & tok & Htok & _). congruence. }
  assert (tks1 !! depth = Some (IterationToken nw top (Some sg))) as Hcur.
  { rewrite Htk. rewrite decide_True by set_solver. cbn [toks during].
    rewrite lookup_insert_eq. cbn. unfold repoint. cbn. by rewrite decide_True. }
  exists h', (delete depth tks1). split_and!; [|done|done|].
  - rewrite (emit_up_to body st depth sg top arg l1 c (n :: l2) f1 tr (S n0) (S k));
      try done; [|lia].
    rewrite (emission_loop_step body _ st depth sg top arg l1 c (n :: l2) p f) by done.
    rewrite Hb, signals_exec_S. simpl run_list. cbn [hd conns during].
    rewrite Hcn. cbn [lift mbind result_bind bind]. rewrite Hm.
    cbn [lift on_state andthen mbind result_bind bind fst snd toks conns sigs nodes during].
    rewrite Hcur. cbn [lift mbind result_bind bind extra].
    assert (State h' (<[nw := Connection (ptr sg) (Some fn)]> (conns st)) tks1
                  (<[sg := Some depth]> (sigs st)) =
            during (State h' (<[nw := Connection (ptr sg) (Some fn)]> (conns st))
                          (delete depth tks1) (sigs st))
                   depth sg top (hd sg (nw :: l2))) as ->.
    { unfold during. cbn. f_equal. rewrite insert_delete_eq. symmetry. by apply insert_id. }
    rewrite (emit_finish body
               (State h' (<[nw := Connection (ptr sg) (Some fn)]> (conns st))
                      (delete depth tks1) (sigs st))
               depth sg top arg (l1 ++ [c]) (nw :: l2) (fn :: f2) _ k n0); try done.
    + rewrite !fmap_app, !fmap_cons. by rewrite <-!app_assoc.
    + simpl. by rewrite <-app_assoc.
    + cbn. apply lookup_delete_eq.
    + constructor.
      * eexists. cbn. by rewrite lookup_insert_eq.
      * eapply callbacks_conns; [exact Hcb2|]. intros c' Hc'. cbn.
        rewrite lookup_insert_ne; [done|]. intros ->.
        pose proof (dll_fresh _ _ _ _ Hd Hnw). set_solver.
  - intros t. destruct (decide (t = depth)) as [->|Hne].
    + rewrite lookup_delete_eq, decide_False by done. by rewrite Ht.
    + rewrite lookup_delete_ne by done. rewrite Htk. cbn [toks during].
      rewrite lookup_insert_ne by done.
      destruct (decide (t ∈ tl)).
      * rewrite decide_True; [done|set_solver].
      * rewrite decide_False; [done|set_solver].
Qed.

Lemma move_next_connection_from_callback_witness :
  ∃ h' tks',
    signals.emit (λ x _, match x with 1 => [MoveConstruct 5 2] | _ => [] end) 10 0 0 7
      (scenario.linked3, []) =
      Ret (Normal,
           (State h' (<[5 := Connection (ptr 0) (Some 2)]> (conns scenario.linked3)) tks'
                  (sigs scenario.linked3),
            [] ++ ((λ x, (x, 7)) <$> ([] ++ 1 :: 2 :: [3])))) ∧
    dll h' 0 ([] ++ 1 :: 5 :: [3]) ∧
    is_linked 2 h' = Some false ∧
    (∀ t, tks' !! t = if decide (t ∈ []) then repoint 5 2 <$> toks scenario.linked3 !! t
                      else toks scenario.linked3 !! t).
Proof.
  apply (move_next_connection_from_callback
           (λ x _, match x with 1 => [MoveConstruct 5 2] | _ => [] end)
           scenario.linked3 0 [] 1 2 [3] [] 1 2 [3] (ptr 0) 5 None [] 0 7 10 []).
  - exact linked3_dll.
  - reflexivity.
  - reflexivity.
  - reflexivity.
  - constructor.
  - reflexivity.
  - reflexivity.
  - repeat constructor; eexists; reflexivity.
  - repeat constructor.
  - reflexivity.
  - reflexivity.
  - reflexivity.
  - simpl. lia.
Defined.

Section unwinding.
Variable body : nat → nat → list action.
Implicit Type st : state (iteration_token (option nat)).

(** An emission that ends at a callback that throws. *)
Lemma emit_throw st depth sg top arg l1 c l2 f1 p f e tr fuel :
  dll (nodes st) sg (l1 ++ c :: l2) →
  sigs st !! sg = Some top → toks st !! depth = None →
  callbacks st l1 f1 → Forall (λ x, body x arg = []) f1 →
  conns st !! c = Some (Connection p (Some f)) →
  body f arg = [ThrowException e] →
  length l1 + 2 < fuel →
  signals.emit body fuel depth sg arg (st, tr) =
  Ret (Thrown (user_exception e), (st, tr ++ ((λ x, (x, arg)) <$> f1) ++ [(f, arg)])).
Proof.
  intros Hd Hs Ht Hcb Hpure Hc Hb Hfuel.
  assert (∃ k, fuel = length l1 + S k) as [k Hk] by (exists (fuel - length l1 - 1); lia).
  rewrite (emit_up_to body st depth sg top arg l1 c l2 f1 tr fuel (S k)); try done; [|lia].
  rewrite (emission_loop_step body _ st depth sg top arg l1 c l2 p f) by done.
  rewrite Hb. destruct fuel as [|n]; [lia|]. rewrite signals_exec_S. simpl run_list.
  cbn [andthen mbind result_bind bind fst snd]. rewrite during_done by done.
  cbn [lift mbind result_bind bind]. by rewrite <-app_assoc.
Qed.
End unwinding.

(** X26: an exception thrown by a callback of an emission that was started
    from inside a callback leaves both emissions: the inner one ends at the
    callback that throws, the outer one at the callback that started the
    inner one, both tokens are off the stack, and the store is the one of
    before. *)
Theorem exception_leaves_nested_emissions
    (body : nat → nat → list action) (st : state (iteration_token (option nat)))
    (sg : nat) (l1 : list nat) (c : nat) (l2 : list nat) (f1 : list nat) (f : nat)
    (p : pointer) (m1 : list nat) (c2 : nat) (m2 : list nat) (g1 : list nat) (g : nat)
    (p2 : pointer) (e : nat) (top : option nat) (depth a b fuel : nat)
    (tr : list (nat * nat)) :
  dll (nodes st) sg (l1 ++ c :: l2) →
  l1 ++ c :: l2 = m1 ++ c2 :: m2 →
  sigs st !! sg = Some top →
  toks st !! depth = None → toks st !! S depth = None →
  callbacks st l1 f1 → Forall (λ x, body x a = []) f1 →
  conns st !! c = Some (Connection p (Some f)) →
  body f a = [Emit sg b] →
  callbacks st m1 g1 → Forall (λ x, body x b = []) g1 →
  conns st !! c2 = Some (Connection p2 (Some g)) →
  body g b = [ThrowException e] →
  length (l1 ++ c :: l2) + 4 < fuel →
  signals.emit body fuel depth sg a (st, tr) =
  Ret (Thrown (user_exception e),
       (st, tr ++ ((λ x, (x, a)) <$> f1) ++ [(f, a)] ++
                  ((λ x, (x, b)) <$> g1) ++ [(g, b)])).
Proof.
  intros Hd Heq Hs Ht Ht' Hcb1 Hp1 Hc Hb Hcbm Hpm Hc2 Hg Hfuel.
  assert (length m1 < length (l1 ++ c :: l2)) as Hm1.
  { rewrite Heq, length_app. simpl. lia. }
  rewrite length_app in Hfuel, Hm1. simpl in Hfuel, Hm1.
  assert (∃ k, fuel = length l1 + S k) as [k Hk] by (exists (fuel - length l1 - 1); lia).
  rewrite (emit_up_to body st depth sg top a l1 c l2 f1 tr fuel (S k)); try done; [|lia].
  rewrite (emission_loop_step body _ st depth sg top a l1 c l2 p f) by done.
  rewrite Hb. destruct fuel as [|n]; [lia|].
  rewrite signals_exec_S. simpl run_list. rewrite lookup_insert_eq.
  cbn [lift mbind result_bind bind].
  change (signals.call_operator body (signals.exec body n (S (S depth))) n (S depth) sg b)
    with (signals.emit body n (S depth) sg b).
  rewrite (emit_throw body (during st depth sg top (hd sg l2)) (S depth) sg (Some depth) b
             m1 c2 m2 g1 p2 g e); try done.
  - cbn [andthen mbind result_bind bind fst snd]. rewrite during_done by done.
    cbn [lift mbind result_bind bind]. by rewrite <-!app_assoc.
  - cbn [nodes during]. by rewrite <-Heq.
  - by cbn; rewrite lookup_insert_eq.
  - cbn. rewrite lookup_insert_ne by lia. done.
  - lia.
Qed.

Lemma exception_leaves_nested_emissions_witness :
  signals.emit
    (λ x y, match x, y with 2, 7 => [Emit 0 8] | 3, 8 => [ThrowException 9] | _, _ => [] end)
    10 0 0 7 (scenario.linked3, []) =
  Ret (Thrown (user_exception 9),
       (scenario.linked3,
        [] ++ ((λ x, (x, 7)) <$> [1]) ++ [(2, 7)] ++ ((λ x, (x, 8)) <$> [1; 2]) ++ [(3, 8)])).
Proof.
  apply (exception_leaves_nested_emissions
           (λ x y, match x, y with 2, 7 => [Emit 0 8] | 3, 8 => [ThrowException 9]
                   | _, _ => [] end)
           scenario.linked3 0 [1] 2 [3] [1] 2 (ptr 0) [1; 2] 3 [] [1; 2] 3 (ptr 0) 9
           None 0 7 8 10 []).
  - exact linked3_dll.
  - reflexivity.
  - reflexivity.
  - reflexivity.
  - reflexivity.
  - repeat constructor; eexists; reflexivity.
  - repeat constructor.
  - reflexivity.
  - reflexivity.
  - repeat constructor; eexists; reflexivity.
  - repeat constructor.
  - reflexivity.
  - reflexivity.
  - simpl. lia.
Defined.

(** X27: every sequence of [push_front], [push_back], [pop_front],
    [pop_back], [insert], [erase] and [splice] that is used as intended acts
    on the heap as on the sequence of the elements, and leaves a list that
    forward traversal reads in order and reverse traversal in reverse order,
    in which [next] and [prev] are inverse to each other at every node, and
    where [empty()] holds exactly when [begin() == end()]. *)
Theorem operations_as_intended_keep_consistency (live : gset nat) (f : nat)
    (ops : list list_op) (h : gmap nat list_element) (xs xs' : list nat) :
  dll h f xs → dom h = live →
  model_ops live f ops xs = Some xs' →
  ∃ h', run_ops f ops h = Some h' ∧ dll h' f xs' ∧
        traverse_forward (S (length xs')) f h' = Some xs' ∧
        traverse_backward (S (length xs')) f h' = Some (rev xs') ∧
        (∀ x, x ∈ f :: xs' →
           ∃ n p, load_next h' x = Some n ∧ load_prev h' x = Some p ∧
                  load_prev h' n = Some x ∧ load_next h' p = Some x) ∧
        (list.empty f h' = Some true ↔ list.begin f h' = Some (list.end_ f)).
Proof.
  intros Hd Hdom Hm.
  destruct (run_ops_model live f ops h xs xs' Hd Hdom Hm) as (h' & Hr & Hd' & _).
  destruct (dll_traversals h' f xs' Hd') as (Hf & Hb & Hinv & He & _).
  by exists h'.
Qed.

(** The list 1, 2, 3 and a further node 5. *)
Lemma operations_as_intended_keep_consistency_witness :
  ∃ h', run_ops 0 [PushBack 5; Splice 0 1 2; PopFront; Erase 5; Insert 3 5; PopBack;
                   PushFront 1; Splice 1 5 0]
          (nodes scenario.linked3_and_5) = Some h' ∧
        dll h' 0 [5; 3; 1] ∧
        traverse_forward (S (length [5; 3; 1])) 0 h' = Some [5; 3; 1] ∧
        traverse_backward (S (length [5; 3; 1])) 0 h' = Some (rev [5; 3; 1]) ∧
        (∀ x, x ∈ 0 :: [5; 3; 1] →
           ∃ n p, load_next h' x = Some n ∧ load_prev h' x = Some p ∧
                  load_prev h' n = Some x ∧ load_next h' p = Some x) ∧
        (list.empty 0 h' = Some true ↔ list.begin 0 h' = Some (list.end_ 0)).
Proof.
  apply (operations_as_intended_keep_consistency (dom (nodes scenario.linked3_and_5)) 0
           [PushBack 5; Splice 0 1 2; PopFront; Erase 5; Insert 3 5; PopBack;
            PushFront 1; Splice 1 5 0]
           (nodes scenario.linked3_and_5) [1; 2; 3] [5; 3; 1]).
  - exact linked3_and_5_dll.
  - reflexivity.
  - by vm_compute.
Defined.
